(** * pyStoNED2: the weakCNLSG outer iteration and the weakCNLSxG1 model builder

    A shallow embedding of [src/pystoned/weakCNLSG.py] and
    [src/pystoned2/utils/weakCNLSxG1.py].

    Conventions of the embedding
    - Python floats are exact rationals ([Q]); rounding and NaN are outside
      the model.  Every comparison of the source ([>], [>=]) is the
      corresponding comparison of [Q].  Statements about scores on
      arbitrary data compare the values the scans have stored and rest on
      no identity of exact arithmetic; the concrete runs use small
      integers, which floats represent exactly.
    - numpy arrays are lists (one-dimensional) or lists of rows
      (two-dimensional); an index out of range raises [IndexError] as numpy
      does, and a product of rows of incompatible lengths raises
      [ValueError].
    - Methods are computations in a state-and-exception monad over the
      instance they mutate.  The state reached at the moment an exception
      is raised is kept, as in Python.
    - Wall-clock bookkeeping ([t0], [tt]) is not modelled. *)

From Stdlib Require Import QArith Lqa.
From stdpp Require Import base option list strings.

Local Open Scope Q_scope.

(** ** Exceptions and the method monad *)

Inductive exn : Type :=
| TypeError
| ValueError
| IndexError
| NameError
| KeyError
| UnboundLocalError
| AttributeError
| NotOptimized            (* the exception of [tools.assert_optimized] *)
| External (tag : string) (* an exception raised inside a collaborator *).

Definition result (A : Type) : Type := (exn + A)%type.

Definition M (S A : Type) : Type := S -> S * result A.

Definition ret {S A : Type} (a : A) : M S A := fun s => (s, inr a).

Definition raise {S A : Type} (e : exn) : M S A := fun s => (s, inl e).

Definition bind {S A B : Type} (c : M S A) (k : A -> M S B) : M S B :=
  fun s =>
    match c s with
    | (s', inr a) => k a s'
    | (s', inl e) => (s', inl e)
    end.

Definition lift {S A : Type} (r : result A) : M S A := fun s => (s, r).

Definition rbind {A B : Type} (r : result A) (k : A -> result B) : result B :=
  match r with
  | inr a => k a
  | inl e => inl e
  end.

(** A computation on a local object [l], run from inside a method: the
    instance is untouched, the local object comes back updated. *)
Definition on_local {S L A : Type} (c : M L A) (l : L) : M S (L * A) :=
  fun s =>
    match c l with
    | (l', inr a) => (s, inr (l', a))
    | (_, inl e) => (s, inl e)
    end.

Notation "'do' x <- c ; k" := (bind c (fun x => k))
  (at level 10, x name, c at level 100, k at level 200).
Notation "'do' ' p <- c ; k" := (bind c (fun x => match x with p => k end))
  (at level 10, p pattern, c at level 100, k at level 200).
Notation "c ;; k" := (bind c (fun _ => k))
  (at level 100, k at level 200, right associativity).
Notation "'let?' x := r 'in' k" := (rbind r (fun x => k))
  (at level 10, x name, r at level 100, k at level 200).

(** [for x in l: body x] *)
Fixpoint for_each {S A : Type} (l : list A) (body : A -> M S unit) : M S unit :=
  match l with
  | [] => ret tt
  | a :: l' => body a ;; for_each l' body
  end.

(** [for i in range(n): body i] *)
Definition for_range {S : Type} (n : nat) (body : nat -> M S unit) : M S unit :=
  for_each (seq 0 n) body.

(** ** numpy arrays *)

Abbreviation vec := (list Q) (only parsing).
Abbreviation mat := (list (list Q)) (only parsing).

(** [v[i]] *)
Definition getitem (v : vec) (i : nat) : result Q :=
  match v !! i with
  | Some q => inr q
  | None => inl IndexError
  end.

(** [m[i, :]] *)
Definition getrow (m : mat) (i : nat) : result vec :=
  match m !! i with
  | Some r => inr r
  | None => inl IndexError
  end.

(** [m[i, j]] *)
Definition getitem2 (m : mat) (i j : nat) : result Q :=
  match m !! i with
  | Some r => getitem r j
  | None => inl IndexError
  end.

(** [m[i, j] = v] *)
Definition setitem2 (m : mat) (i j : nat) (v : Q) : result mat :=
  match m !! i with
  | Some r =>
      if decide (j < length r)%nat then inr (<[i := <[j := v]> r]> m)
      else inl IndexError
  | None => inl IndexError
  end.

(** [u * v] on one-dimensional arrays; an operand of length one is
    broadcast. *)
Definition np_mul (u v : vec) : result vec :=
  if decide (length u = length v) then inr (zip_with Qmult u v)
  else match u, v with
       | [a], _ => inr (map (Qmult a) v)
       | _, [c] => inr (map (fun a => a * c) u)
       | _, _ => inl ValueError
       end.

(** [np.sum(v)] *)
Definition np_sum (v : vec) : Q := foldr Qplus 0 v.

(** [np.sum(m1[i, :] * m2[k, :])] *)
Definition sum_prod (m1 : mat) (i : nat) (m2 : mat) (k : nat) : result Q :=
  let? r1 := getrow m1 i in
  let? r2 := getrow m2 k in
  let? p := np_mul r1 r2 in
  inr (np_sum p).

(** [np.zeros((n, m))] *)
Definition np_zeros (n m : nat) : mat := replicate n (replicate m 0).

(** ** The constants of [pystoned.constant]

    The module is imported by both source files but its values are not part
    of them; every definition below takes them as a parameter. *)

Record constant : Type := {
  CET_ADDI : string;
  CET_MULT : string;
  FUN_PROD : string;
  FUN_COST : string;
  RTS_VRS : string;
  RTS_CRS : string;
  OPT_DEFAULT : option string;
  OPT_LOCAL : option string
}.

(** ** The violation scan

    [__convergence_test] and [__convergence_test_weak] contain the same
    double loop eight times; the copies differ in the score formula and in
    the pair of instance matrices they write ([active2]/[active] or
    [activeweak2]/[activeweak]).  The loop is written once, over a frame
    holding the two matrices and the two local accumulators. *)

Record frame : Type := {
  viol : mat;                (* self.active2 or self.activeweak2 *)
  act : mat;                 (* self.active or self.activeweak *)
  activetmp1 : Q;            (* local, bound before the branches *)
  activetmp : option Q       (* local, unbound until a row is entered *)
}.

Definition read_activetmp : M frame Q :=
  fun fr =>
    match activetmp fr with
    | Some t => (fr, inr t)
    | None => (fr, inl UnboundLocalError)
    end.

Definition set_activetmp (t : Q) : M frame unit :=
  fun fr =>
    ({| viol := viol fr; act := act fr;
        activetmp1 := activetmp1 fr; activetmp := Some t |}, inr tt).

Definition read_activetmp1 : M frame Q := fun fr => (fr, inr (activetmp1 fr)).

Definition set_activetmp1 (t : Q) : M frame unit :=
  fun fr =>
    ({| viol := viol fr; act := act fr;
        activetmp1 := t; activetmp := activetmp fr |}, inr tt).

Definition load_viol (i j : nat) : M frame Q :=
  fun fr => (fr, getitem2 (viol fr) i j).

Definition store_viol (i j : nat) (v : Q) : M frame unit :=
  fun fr =>
    match setitem2 (viol fr) i j v with
    | inr m =>
        ({| viol := m; act := act fr;
            activetmp1 := activetmp1 fr; activetmp := activetmp fr |}, inr tt)
    | inl e => (fr, inl e)
    end.

Definition store_act (i j : nat) (v : Q) : M frame unit :=
  fun fr =>
    match setitem2 (act fr) i j v with
    | inr m =>
        ({| viol := viol fr; act := m;
            activetmp1 := activetmp1 fr; activetmp := activetmp fr |}, inr tt)
    | inl e => (fr, inl e)
    end.

(** Body of the first inner loop: store the score of [(i, j)] and keep the
    running row maximum. *)
Definition find_violation (score : nat -> nat -> result Q) (i j : nat)
  : M frame unit :=
  do v <- lift (score i j);
  store_viol i j v;;
  do a <- load_viol i j;
  do t <- read_activetmp;
  if Qlt_le_dec t a then set_activetmp a else ret tt.

(** Body of the second inner loop:
    [if self.active2[i, j] >= activetmp and activetmp > 0: self.active[i, j] = 1]. *)
Definition add_active (i j : nat) : M frame unit :=
  do a <- load_viol i j;
  do t <- read_activetmp;
  if Qlt_le_dec a t then ret tt
  else if Qlt_le_dec 0 t then store_act i j 1
  else ret tt.

(** Body of the outer loop. *)
Definition scan_row (score : nat -> nat -> result Q) (n i : nat)
  : M frame unit :=
  set_activetmp 0;;
  for_range n (find_violation score i);;
  for_range n (add_active i);;
  do t <- read_activetmp;
  do t1 <- read_activetmp1;
  if Qlt_le_dec t1 t then set_activetmp1 t else ret tt.

Definition scan (score : nat -> nat -> result Q) (n : nat) : M frame unit :=
  for_range n (scan_row score n).

(** ** Python call protocol and the values passed to numpy *)

Inductive pyval : Type :=
| Vector (v : vec)
| Array (m : mat)
| Tuple (items : list mat).

(** A function whose signature has exactly one positional parameter, called
    with the positional arguments [args]. *)
Definition call1 {A : Type} (body : pyval -> result A) (args : list pyval)
  : result A :=
  match args with
  | [a] => body a
  | _ => inl TypeError
  end.

(** Modelled from the spec: [tools.assert_optimized], which every accessor
    of [weakCNLSG] calls first, is not part of the sources.  The spec says
    that the accessors "all fail with a 'not yet solved' error if called
    before a successful optimize" and that the status flag is "0 = unsolved,
    1 = solved". *)
Definition assert_optimized (optimization_status : nat) : result unit :=
  if decide (optimization_status = O) then inl NotOptimized else inr tt.

(** * [pystoned/weakCNLSG.py] *)

Module weakCNLSG.

(** The collaborators of the class: numpy's [column_stack], the modules
    [sweet] and [tools], the four inner model classes of [utils] (which
    share one interface) and the table reshaping done through pandas.
    None of them is part of the sources; they are parameters. *)
Record collaborators : Type := {
  Mdl : Type;     (* the pyomo model, attribute [__model__] *)
  Inner : Type;   (* an instance of weakCNLSG1, weakCNLSZG1, weakCNLSG2 or weakCNLSZG2 *)
  column_stack : pyval -> result mat;     (* numpy's [column_stack(tup)] *)
  sweet : mat -> result mat;              (* [sweet.sweet] *)
  assert_valid_wp_data :
    mat -> mat -> mat -> option mat -> result (mat * mat * mat * option mat);
  assert_various_return_to_scale : string -> result unit;
  assert_contextual_variable : option mat -> result unit;
  assert_undesirable_output : mat -> result unit;
  weakCNLSG1 : mat -> mat -> mat -> mat -> string -> string -> string -> result Inner;
  weakCNLSZG1 :
    mat -> mat -> mat -> mat -> mat -> string -> string -> string -> result Inner;
  weakCNLSG2 :
    mat -> mat -> mat -> mat -> mat -> mat -> string -> string -> string -> result Inner;
  weakCNLSZG2 :
    mat -> mat -> mat -> mat -> mat -> mat -> mat -> string -> string -> string
    -> result Inner;
  inner_optimize : option string -> option string -> M Inner unit;
  inner_get_alpha : M Inner vec;
  inner_get_beta : M Inner mat;
  inner_get_delta : M Inner mat;
  inner_model : Inner -> Mdl;             (* attribute [__model__] of an inner model *)
  values1 : Mdl -> string -> result vec;  (* [list(model.<var>[:].value)] *)
  values2 : Mdl -> string -> result (list (nat * nat * Q));
                                          (* keys zipped with [model.<var>[:, :].value] *)
  pivot : list (nat * nat * Q) -> result mat;
                                          (* DataFrame(..).pivot(..).to_numpy() *)
  np_frontier_mult : mat -> vec -> vec -> mat -> result pyval;
    (* list(np.divide(y, np.exp(residual + lamda * np.asarray(z)[:, 0])) - 1) *)
  np_subtract : mat -> vec -> result pyval  (* np.asarray(y) - residual *)
}.

Section Class.

Context (K : constant) (C : collaborators).

(** An instance.  [alpha], [beta], [delta], [__model__] and [count] do not
    exist until [optimize] assigns them. *)
Record self : Type := {
  cutactive : mat;
  y : mat;
  x : mat;
  b : mat;
  z : option mat;
  cet : string;
  fun_ : string;
  rts : string;
  active : mat;
  active2 : mat;
  activeweak : mat;
  activeweak2 : mat;
  optimization_status : nat;
  problem_status : nat;
  alpha : option vec;
  beta : option mat;
  delta : option mat;
  model : option (Mdl C);
  count : option nat
}.

(** Lines 29 to 45 of [__init__]: the attributes of a fresh instance. *)
Definition fresh (cut y0 x0 b0 : mat) (z0 : option mat) (cet0 fun0 rts0 : string)
  (n : nat) : self :=
  {| cutactive := cut; y := y0; x := x0; b := b0; z := z0;
     cet := cet0; fun_ := fun0; rts := rts0;
     active := np_zeros n n; active2 := np_zeros n n;
     activeweak := np_zeros n n; activeweak2 := np_zeros n n;
     optimization_status := 0; problem_status := 0;
     alpha := None; beta := None; delta := None; model := None; count := None |}.

(** [__init__(self, y, x, b, z, cet, fun, rts)] *)
Definition __init__ (y0 x0 b0 : mat) (z0 : option mat) (cet0 fun0 rts0 : string)
  : result self :=
  let? stacked := call1 (column_stack C) [Array x0; Array b0] in
  let? cut := sweet C stacked in
  let? d := assert_valid_wp_data C y0 x0 b0 z0 in
  let '(y1, x1, b1, z1) := d in
  inr (fresh cut y1 x1 b1 z1 cet0 fun0 rts0 (length x0)).

(** *** Attribute updates *)

Definition with_active (s : self) (a2 a : mat) : self :=
  {| cutactive := cutactive s; y := y s; x := x s; b := b s; z := z s;
     cet := cet s; fun_ := fun_ s; rts := rts s;
     active := a; active2 := a2;
     activeweak := activeweak s; activeweak2 := activeweak2 s;
     optimization_status := optimization_status s;
     problem_status := problem_status s;
     alpha := alpha s; beta := beta s; delta := delta s;
     model := model s; count := count s |}.

Definition with_activeweak (s : self) (a2 a : mat) : self :=
  {| cutactive := cutactive s; y := y s; x := x s; b := b s; z := z s;
     cet := cet s; fun_ := fun_ s; rts := rts s;
     active := active s; active2 := active2 s;
     activeweak := a; activeweak2 := a2;
     optimization_status := optimization_status s;
     problem_status := problem_status s;
     alpha := alpha s; beta := beta s; delta := delta s;
     model := model s; count := count s |}.

Definition with_fit (s : self) (al : option vec) (be de : option mat)
  (m : option (Mdl C)) (c : option nat) (st : nat) : self :=
  {| cutactive := cutactive s; y := y s; x := x s; b := b s; z := z s;
     cet := cet s; fun_ := fun_ s; rts := rts s;
     active := active s; active2 := active2 s;
     activeweak := activeweak s; activeweak2 := activeweak2 s;
     optimization_status := st;
     problem_status := problem_status s;
     alpha := al; beta := be; delta := de;
     model := m; count := c |}.

Definition set_alpha (a : vec) : M self unit :=
  fun s => (with_fit s (Some a) (beta s) (delta s) (model s) (count s)
              (optimization_status s), inr tt).
Definition set_beta (a : mat) : M self unit :=
  fun s => (with_fit s (alpha s) (Some a) (delta s) (model s) (count s)
              (optimization_status s), inr tt).
Definition set_delta (a : mat) : M self unit :=
  fun s => (with_fit s (alpha s) (beta s) (Some a) (model s) (count s)
              (optimization_status s), inr tt).
Definition set_model (m : Mdl C) : M self unit :=
  fun s => (with_fit s (alpha s) (beta s) (delta s) (Some m) (count s)
              (optimization_status s), inr tt).
Definition set_count (c : nat) : M self unit :=
  fun s => (with_fit s (alpha s) (beta s) (delta s) (model s) (Some c)
              (optimization_status s), inr tt).
Definition set_optimization_status (st : nat) : M self unit :=
  fun s => (with_fit s (alpha s) (beta s) (delta s) (model s) (count s) st,
            inr tt).

(** Reading an attribute that may not exist yet. *)
Definition attr {A : Type} (f : self -> option A) : M self A :=
  fun s =>
    match f s with
    | Some a => (s, inr a)
    | None => (s, inl AttributeError)
    end.

(** *** The score formulas, one per branch *)

Section Scores.

Variables (al : vec) (be de xs bs : mat).

(** Lines 98 to 100. *)
Definition score_vrs_prod (i j : nat) : result Q :=
  let? ai := getitem al i in
  let? s1 := sum_prod be i xs i in
  let? s2 := sum_prod de i bs i in
  let? aj := getitem al j in
  let? s3 := sum_prod be j xs i in
  let? s4 := sum_prod de j bs i in
  inr (ai + s1 + s2 - aj - s3 - s4).

(** Lines 119 to 121. *)
Definition score_vrs_cost (i j : nat) : result Q :=
  let? ai := getitem al i in
  let? s1 := sum_prod be i xs i in
  let? s2 := sum_prod de i bs i in
  let? aj := getitem al j in
  let? s3 := sum_prod be j xs i in
  let? s4 := sum_prod de j bs i in
  inr (- ai - s1 - s2 + aj + s3 + s4).

(** Lines 140 to 141. *)
Definition score_crs_prod (i j : nat) : result Q :=
  let? s1 := sum_prod be i xs i in
  let? s2 := sum_prod de i bs i in
  let? s3 := sum_prod be j xs i in
  let? s4 := sum_prod de j bs i in
  inr (s1 + s2 - s3 - s4).

(** Lines 159 to 160. *)
Definition score_crs_cost (i j : nat) : result Q :=
  let? s1 := sum_prod be i xs i in
  let? s2 := sum_prod de i bs i in
  let? s3 := sum_prod be j xs i in
  let? s4 := sum_prod de j bs i in
  inr (- s1 - s2 + s3 + s4).

(** Line 184. *)
Definition weak_vrs_prod (i j : nat) : result Q :=
  let? aj := getitem al j in
  let? s := sum_prod be j xs i in
  inr (- aj - s).

(** Line 202. *)
Definition weak_vrs_cost (i j : nat) : result Q :=
  let? aj := getitem al j in
  let? s := sum_prod be j xs i in
  inr (aj + s).

(** Line 220. *)
Definition weak_crs_prod (i j : nat) : result Q :=
  let? s := sum_prod be j xs i in
  inr (- s).

(** Line 238. *)
Definition weak_crs_cost (i j : nat) : result Q :=
  sum_prod be j xs i.

End Scores.

(** *** The two scans *)

(** The [if]/[elif] chain shared by the two methods; no [else]. *)
Definition branches (s : self) (vp vc cp cc : nat -> nat -> result Q)
  : M frame unit :=
  let n := length (x s) in
  if String.eqb (rts s) (RTS_VRS K) && String.eqb (fun_ s) (FUN_PROD K)
  then scan vp n
  else if String.eqb (rts s) (RTS_VRS K) && String.eqb (fun_ s) (FUN_COST K)
  then scan vc n
  else if String.eqb (rts s) (RTS_CRS K) && String.eqb (fun_ s) (FUN_PROD K)
  then scan cp n
  else if String.eqb (rts s) (RTS_CRS K) && String.eqb (fun_ s) (FUN_COST K)
  then scan cc n
  else ret tt.

(** The locals on entry: [activetmp1 = 0.0], [activetmp] unbound. *)
Definition enter (a2 a : mat) : frame :=
  {| viol := a2; act := a; activetmp1 := 0; activetmp := None |}.

(** [__convergence_test(self, alpha, beta, delta)]; the last line is
    [return activetmp]. *)
Definition __convergence_test (al : vec) (be de : mat) : M self Q :=
  fun s =>
    let body :=
      branches s
        (score_vrs_prod al be de (x s) (b s))
        (score_vrs_cost al be de (x s) (b s))
        (score_crs_prod be de (x s) (b s))
        (score_crs_cost be de (x s) (b s));;
      read_activetmp in
    let '(fr, r) := body (enter (active2 s) (active s)) in
    (with_active s (viol fr) (act fr), r).

(** [__convergence_test_weak(self, alpha, beta, delta)]; the last line is
    [return activetmp]. *)
Definition __convergence_test_weak (al : vec) (be de : mat) : M self Q :=
  fun s =>
    let body :=
      branches s
        (weak_vrs_prod al be (x s))
        (weak_vrs_cost al be (x s))
        (weak_crs_prod be (x s))
        (weak_crs_cost be (x s));;
      read_activetmp in
    let '(fr, r) := body (enter (activeweak2 s) (activeweak s)) in
    (with_activeweak s (viol fr) (act fr), r).

(** *** [optimize] *)

(** Lines 53 to 63: build and solve the first-pass model, read its fit. *)
Definition first_pass (email solver : option string) : M self unit :=
  do m0 <- (fun s =>
              (s, match z s with
                  | Some zz =>
                      weakCNLSZG1 C (y s) (x s) (b s) zz (cutactive s)
                        (cet s) (fun_ s) (rts s)
                  | None =>
                      weakCNLSG1 C (y s) (x s) (b s) (cutactive s)
                        (cet s) (fun_ s) (rts s)
                  end));
  do ' (m1, _) <- on_local (inner_optimize C email solver) m0;
  do ' (m2, a) <- on_local (inner_get_alpha C) m1;
  set_alpha a;;
  do ' (m3, a) <- on_local (inner_get_beta C) m2;
  set_beta a;;
  do ' (m4, a) <- on_local (inner_get_delta C) m3;
  set_delta a;;
  set_model (inner_model C m4).

(** Lines 66 and 67, the head of the [while]: Python's [or] evaluates its
    right operand only when the left one is false. *)
Definition loop_test : M self bool :=
  do al <- attr alpha;
  do be <- attr beta;
  do de <- attr delta;
  do c <- __convergence_test al be de;
  if Qlt_le_dec 0.0001 c then ret true
  else
    do al <- attr alpha;
    do be <- attr beta;
    do de <- attr delta;
    do w <- __convergence_test_weak al be de;
    if Qlt_le_dec 0.0001 w then ret true else ret false.

(** Lines 68 to 84, the body of the [while]. *)
Definition loop_body (email solver : option string) : M self unit :=
  do m0 <- (fun s =>
              (s, match z s with
                  | Some zz =>
                      weakCNLSZG2 C (y s) (x s) (b s) zz (cutactive s)
                        (active s) (activeweak s) (cet s) (fun_ s) (rts s)
                  | None =>
                      weakCNLSG2 C (y s) (x s) (b s) (cutactive s)
                        (active s) (activeweak s) (cet s) (fun_ s) (rts s)
                  end));
  do ' (m1, _) <- on_local (inner_optimize C email solver) m0;
  do ' (m2, a) <- on_local (inner_get_alpha C) m1;
  set_alpha a;;
  do ' (m3, a) <- on_local (inner_get_beta C) m2;
  set_beta a;;
  do ' (m4, a) <- on_local (inner_get_delta C) m3;
  set_delta a;;
  set_model (inner_model C m4);;
  do c <- attr count;
  set_count (c + 1).

Inductive flow : Type := Again | Finished.

(** One turn of the [while]: the head, then the body when the head holds. *)
Definition turn (email solver : option string) : M self flow :=
  do c <- loop_test;
  if c then loop_body email solver;; ret Again else ret Finished.

(** The instance after [t] turns; it stops changing once the loop has
    finished or an exception has been raised. *)
Fixpoint turns (email solver : option string) (t : nat) (s : self)
  : self * result flow :=
  match t with
  | O => (s, inr Again)
  | S t' =>
      match turns email solver t' s with
      | (s', inr Again) => turn email solver s'
      | r => r
      end
  end.

(** The [while] statement.  The source puts no bound on the number of
    turns; [None] is returned when [fuel] turns were not enough. *)
Fixpoint while (fuel : nat) (email solver : option string) (s : self)
  : option (self * result unit) :=
  match fuel with
  | O => None
  | S fuel' =>
      match turn email solver s with
      | (s', inr Again) => while fuel' email solver s'
      | (s', inr Finished) => Some (s', inr tt)
      | (s', inl e) => Some (s', inl e)
      end
  end.

(** [optimize(self, email, solver)] *)
Definition optimize (fuel : nat) (email solver : option string) (s : self)
  : option (self * result unit) :=
  match (first_pass email solver;; set_count 0) s with
  | (s1, inl e) => Some (s1, inl e)
  | (s1, inr _) =>
      match while fuel email solver s1 with
      | Some (s2, inr _) => Some (set_optimization_status 1 s2)
      | r => r
      end
  end.

(** *** Accessors *)

(** A method that reads the instance and does not assign to it. *)
Definition reader {A : Type} (f : self -> result A) : M self A :=
  fun s => (s, f s).

Definition the_model (s : self) : result (Mdl C) :=
  match model s with
  | Some m => inr m
  | None => inl AttributeError
  end.

Definition get_status : M self nat := reader (fun s => inr (optimization_status s)).

Definition get_alpha : M self vec :=
  reader (fun s =>
    let? _ := assert_optimized (optimization_status s) in
    let? _ := assert_various_return_to_scale C (rts s) in
    let? m := the_model s in
    values1 C m "alpha").

Definition get_beta : M self mat :=
  reader (fun s =>
    let? _ := assert_optimized (optimization_status s) in
    let? m := the_model s in
    let? rows := values2 C m "beta" in
    pivot C rows).

Definition get_residual : M self vec :=
  reader (fun s =>
    let? _ := assert_optimized (optimization_status s) in
    let? m := the_model s in
    values1 C m "epsilon").

Definition get_lamda : M self vec :=
  reader (fun s =>
    let? _ := assert_optimized (optimization_status s) in
    let? _ := assert_contextual_variable C (z s) in
    let? m := the_model s in
    values1 C m "lamda").

Definition get_frontier : M self pyval :=
  do _ <- reader (fun s => assert_optimized (optimization_status s));
  do s <- (fun s => (s, inr s));
  if String.eqb (cet s) (CET_MULT K) then
    match z s with
    | None =>
        do m <- reader the_model;
        do v <- lift (values1 C m "frontier");
        ret (Vector (map (fun q => q + 1) v))
    | Some zz =>
        do res <- get_residual;
        do lam <- get_lamda;
        lift (np_frontier_mult C (y s) res lam zz)
    end
  else if String.eqb (cet s) (CET_ADDI K) then
    do res <- get_residual;
    lift (np_subtract C (y s) res)
  else raise UnboundLocalError.

Definition get_delta : M self mat :=
  reader (fun s =>
    let? _ := assert_optimized (optimization_status s) in
    let? _ := assert_undesirable_output C (b s) in
    let? m := the_model s in
    let? rows := values2 C m "delta" in
    pivot C rows).

End Class.

End weakCNLSG.

(** * [pystoned2/utils/weakCNLSxG1.py] *)

Module weakCNLSxG1.

(** ** The modelling layer

    Expressions handed to pyomo are kept as syntax, operation by operation
    as the source writes them; no simplification is modelled.  A data
    operand ([self.y[i][j]], [self.b[i][l]], [self.x[i][l]]) is read when
    the rule is called and enters the expression as a number; a data index
    out of range raises [IndexError], and a variable indexed outside the
    set it was declared over raises [KeyError]. *)

Inductive expr : Type :=
| Num (q : Q)
| Row (v : vec)                        (* self.x[i], a row standing as an operand *)
| Var1 (name : string) (i : nat)       (* model.<name>[i] *)
| Var2 (name : string) (i j : nat)     (* model.<name>[i, j] *)
| Neg (e : expr)
| Add (e1 e2 : expr)
| Sub (e1 e2 : expr)
| Mul (e1 e2 : expr)
| Pow (e : expr) (k : nat)
| Log (e : expr).

(** [sum(f k for k in ks)] when no term can raise: Python's [sum] starts
    from 0. *)
Definition sum_expr (ks : list nat) (f : nat -> expr) : expr :=
  fold_left (fun acc k => Add acc (f k)) ks (Num 0).

(** Operands are evaluated from left to right; the first exception ends
    the evaluation. *)
Definition lift1 (op : expr -> expr) (a : result expr) : result expr :=
  let? e := a in inr (op e).

Definition lift2 (op : expr -> expr -> expr) (a b : result expr) : result expr :=
  let? l := a in
  let? r := b in
  inr (op l r).

(** [v * d]: a variable times a data entry. *)
Definition times (v : result expr) (d : result Q) : result expr :=
  let? e := v in
  let? q := d in
  inr (Mul e (Num q)).

Notation "-! a" := (lift1 Neg a) (at level 35, right associativity).
Notation "a +! b" := (lift2 Add a b) (at level 50, left associativity).
Notation "a -! b" := (lift2 Sub a b) (at level 50, left associativity).
Notation "v *! d" := (times v d) (at level 40, left associativity).

(** [sum(f k for k in ks)], the terms being built one after the other. *)
Fixpoint sum_from (acc : expr) (ks : list nat) (f : nat -> result expr)
  : result expr :=
  match ks with
  | [] => inr acc
  | k :: ks' => let? t := f k in sum_from (Add acc t) ks' f
  end.

Definition sum_of (ks : list nat) (f : nat -> result expr) : result expr :=
  sum_from (Num 0) ks f.

(** [sum(d k for k in ks)] on data alone: a number. *)
Fixpoint sum_data_from (acc : Q) (ks : list nat) (d : nat -> result Q)
  : result Q :=
  match ks with
  | [] => inr acc
  | k :: ks' => let? q := d k in sum_data_from (acc + q) ks' d
  end.

Definition sum_data (ks : list nat) (d : nat -> result Q) : result Q :=
  sum_data_from 0 ks d.

Inductive relation : Type :=
| Eq (l r : expr)    (* l == r *)
| Le (l r : expr)    (* l <= r, NumericValue.__le__ *)
| Ge (l r : expr)    (* l >= r, NumericValue.__ge__ *).

(** What a constraint rule returns. *)
Inductive rule_result : Type :=
| Rel (r : relation)
| Skip                           (* Constraint.Skip *)
| Truth (t : bool)               (* a comparison of data alone: a truth value *)
| RowEq (row : vec) (e : expr)   (* self.x[i] == e, numpy's comparison of a row *).

(** A rule: a Python function of [model] and [params] indices. *)
Record rule : Type := {
  params : nat;
  body : list nat -> result rule_result
}.

(** The modelling layer calls [rule(model, *index)]. *)
Definition call_rule (r : rule) (index : list nat) : result rule_result :=
  if decide (length index = params r) then body r index else inl TypeError.

Inductive component : Type :=
| CSet (elems : list nat)
| CVar (index : list (list nat)) (lower : option Q)
| CObjective (e : expr)
| CConstraint (rows : list (list nat * relation)).

(** A [ConcreteModel]: its components in the order of their declaration,
    and the values the solver has given to the variables. *)
Record ConcreteModel : Type := {
  components : list (string * component);
  values : list (string * list nat * Q)
}.

Definition empty_model : ConcreteModel := {| components := []; values := [] |}.

(** [model.<name> = c] *)
Definition add_component (name : string) (c : component) : M ConcreteModel unit :=
  fun m =>
    ({| components := components m ++ [(name, c)]; values := values m |}, inr tt).

(** The index tuples of one set and of the product of two sets. *)
Definition index1 (I : list nat) : list (list nat) := map (fun i => [i]) I.
Definition index2 (I J : list nat) : list (list nat) :=
  flat_map (fun i => map (fun j => [i; j]) J) I.

(** The element after [i] in [I = range(n)], wrapping around. *)
Definition nextw (n i : nat) : nat := ((i + 1) mod n)%nat.

(** The collaborators: the solve oracle of [tools], the table reshaping
    done through pandas, and what numpy and pyomo make of a row of [x]
    that stands where the source treats [self.x[i]] as one number. *)
Record collaborators : Type := {
  optimize_model :
    ConcreteModel -> option string -> string -> option string
    -> result (ConcreteModel * nat * nat);
  pivot : list (nat * nat * option Q) -> result (list (list (option Q)));
  (* whether a constraint takes [self.x[i] == e] for a relation *)
  eq_row : vec -> result unit;
  (* whether [log] takes [self.x[i]] for a number *)
  log_row : vec -> result unit
}.

Section Class.

Context (K : constant) (C : collaborators).

Record self : Type := {
  x : mat;
  y : mat;
  b : mat;
  cet : string;
  fun_ : string;
  rts : string;
  cutactive : mat;
  model : ConcreteModel;          (* __model__ *)
  optimization_status : nat;
  problem_status : nat
}.

(** What [Constraint] makes of the value its rule returns for one index:
    a row, no row for [Constraint.Skip], and no constraint at all of a
    truth value. *)
Definition constraint_value (v : rule_result) : result (option relation) :=
  match v with
  | Rel c => inr (Some c)
  | Skip => inr None
  | Truth _ => inl ValueError
  | RowEq row e => let? _ := eq_row C row in inr (Some (Eq (Row row) e))
  end.

(** The rows of a constraint over [indices]: the rule is called on each
    index in turn; the rows built before a call raises are kept. *)
Fixpoint build_rows (r : rule) (indices : list (list nat))
  : list (list nat * relation) * result unit :=
  match indices with
  | [] => ([], inr tt)
  | ix :: rest =>
      match (let? v := call_rule r ix in constraint_value v) with
      | inl e => ([], inl e)
      | inr None => build_rows r rest
      | inr (Some c) =>
          let '(rows, res) := build_rows r rest in ((ix, c) :: rows, res)
      end
  end.

(** [model.<name> = Constraint(<index sets>, rule=r)]: the component is
    attached to the model, then constructed. *)
Definition add_constraint (name : string) (indices : list (list nat)) (r : rule)
  : M ConcreteModel unit :=
  fun m =>
    let '(rows, res) := build_rows r indices in
    ({| components := components m ++ [(name, CConstraint rows)];
        values := values m |}, res).

Section Rules.

(** The attributes assigned on lines 27 to 34, the sets [model.J] and
    [model.L], and the size of the set [model.I]. *)
Variables (x0 y0 b0 : mat) (cet0 fun0 rts0 : string) (cut : mat).
Variables (J L : list nat) (n : nat).

(** [model.<name>[i]], for [alpha], [epsilon] and [frontier], declared
    over [I] (lines 45, 54 and 55). *)
Definition var1 (name : string) (i : nat) : result expr :=
  if decide (i < n)%nat then inr (Var1 name i) else inl KeyError.

(** [model.delta[i, l]]: [delta] is declared over [I x J] (lines 46-49). *)
Definition delta (i l : nat) : result expr :=
  if decide ((i < n)%nat /\ l ∈ J) then inr (Var2 "delta" i l) else inl KeyError.

(** [model.gamma[i, j]]: [gamma] is declared over [I x L] (lines 50-53). *)
Definition gamma (i j : nat) : result expr :=
  if decide ((i < n)%nat /\ j ∈ L) then inr (Var2 "gamma" i j) else inl KeyError.

(** [self.__model__.I.nextw(i)]: only a member of [I] has a successor. *)
Definition I_nextw (i : nat) : result nat :=
  if decide (i < n)%nat then inr (nextw n i) else inl (External "Set.nextw").

(** [__objective_rule] *)
Definition __objective_rule (I : list nat) : expr :=
  sum_expr I (fun i => Pow (Var1 "epsilon" i) 2).

(** [__regression_rule] *)
Definition __regression_rule : result rule :=
  if String.eqb cet0 (CET_ADDI K) then
    if String.eqb rts0 (RTS_VRS K) then
      inr {| params := 1;
             body := fun ix =>
               match ix with
               | [i] =>
                   let? xi := getrow x0 i in
                   let? rhs :=
                     -! var1 "alpha" i
                     +! sum_of J (fun j => gamma i j *! getitem2 y0 i j)
                     -! sum_of L (fun l => delta i l *! getitem2 b0 i l)
                     -! var1 "epsilon" i in
                   inr (RowEq xi rhs)
               | _ => inl TypeError
               end |}
    else if String.eqb rts0 (RTS_CRS K) then
      inr {| params := 1;
             body := fun ix =>
               match ix with
               | [i] =>
                   let? xi := getrow x0 i in
                   let? rhs :=
                     sum_of J (fun j => gamma i j *! getitem2 y0 i j)
                     -! sum_of L (fun l => delta i l *! getitem2 b0 i l)
                     -! var1 "epsilon" i in
                   inr (RowEq xi rhs)
               | _ => inl TypeError
               end |}
    else inl ValueError
  else if String.eqb cet0 (CET_MULT K) then
    inr {| params := 1;
           body := fun ix =>
             match ix with
             | [i] =>
                 let? xi := getrow x0 i in
                 let? _ := log_row C xi in
                 let? rhs :=
                   -! lift1 Log (var1 "frontier" i +! inr (Num 1))
                   -! var1 "epsilon" i in
                 inr (Rel (Eq (Log (Row xi)) rhs))
             | _ => inl TypeError
             end |}
  else inl ValueError.

(** [__log_rule] *)
Definition __log_rule : result rule :=
  if String.eqb cet0 (CET_MULT K) then
    if String.eqb rts0 (RTS_VRS K) then
      inr {| params := 1;
             body := fun ix =>
               match ix with
               | [i] =>
                   let? f := var1 "frontier" i in
                   let? rhs :=
                     var1 "alpha" i
                     -! sum_of J (fun j => gamma i j *! getitem2 y0 i j)
                     +! sum_of L (fun l => delta i l *! getitem2 b0 i l)
                     -! inr (Num 1) in
                   inr (Rel (Eq f rhs))
               | _ => inl TypeError
               end |}
    else if String.eqb rts0 (RTS_CRS K) then
      inr {| params := 1;
             body := fun ix =>
               match ix with
               | [i] =>
                   let? f := var1 "frontier" i in
                   let? rhs :=
                     -! sum_of J (fun j => gamma i j *! getitem2 y0 i j)
                     +! sum_of L (fun l => delta i l *! getitem2 b0 i l)
                     -! inr (Num 1) in
                   inr (Rel (Eq f rhs))
               | _ => inl TypeError
               end |}
    else inl ValueError
  else inl ValueError.

(** The local [__operator] of [__afriat_rule] and [__sweet_rule]: bound
    only when [fun] is one of the two directions. *)
Definition operator : option (expr -> expr -> relation) :=
  if String.eqb fun0 (FUN_PROD K) then Some Le
  else if String.eqb fun0 (FUN_COST K) then Some Ge
  else None.

(** A call [__operator(l, r)] from inside a rule: the name is looked up
    before the two arguments are evaluated. *)
Definition apply_operator (l r : result expr) : result rule_result :=
  match operator with
  | Some op =>
      let? a := l in
      let? c := r in
      inr (Rel (op a c))
  | None => inl NameError
  end.

(** [__afriat_rule] *)
Definition __afriat_rule : result rule :=
  if String.eqb rts0 (RTS_VRS K) then
    inr {| params := 1;
           body := fun ix =>
             match ix with
             | [i] =>
                 apply_operator
                   (var1 "alpha" i
                    +! sum_of L (fun l => delta i l *! getitem2 b0 i l)
                    -! sum_of J (fun j => gamma i j *! getitem2 y0 i j))
                   ((let? k := I_nextw i in var1 "alpha" k)
                    +! sum_of L (fun l =>
                          (let? k := I_nextw i in delta k l) *! getitem2 x0 i l)
                    -! sum_of J (fun j =>
                          (let? k := I_nextw i in gamma k j) *! getitem2 y0 i j))
             | _ => inl TypeError
             end |}
  else if String.eqb rts0 (RTS_CRS K) then
    inr {| params := 1;
           body := fun ix =>
             match ix with
             | [i] =>
                 apply_operator
                   (sum_of L (fun l => delta i l *! getitem2 b0 i l)
                    -! sum_of J (fun j => gamma i j *! getitem2 y0 i j))
                   (sum_of L (fun l =>
                       (let? k := I_nextw i in delta k l) *! getitem2 x0 i l)
                    -! sum_of J (fun j =>
                          (let? k := I_nextw i in gamma k j) *! getitem2 y0 i j))
             | _ => inl TypeError
             end |}
  else inl ValueError.

(** [__disposability_rule]: both rules take [model] and one index [i].
    Under constant returns to scale the comparison holds data alone. *)
Definition __disposability_rule : result rule :=
  if String.eqb rts0 (RTS_VRS K) then
    inr {| params := 1;
           body := fun ix =>
             match ix with
             | [i] =>
                 let? a := (let? k := I_nextw i in var1 "alpha" k) in
                 let? s := sum_data J (fun j => getitem2 x0 i j) in
                 inr (Rel (Ge (Add a (Num s)) (Num 0)))
             | _ => inl TypeError
             end |}
  else if String.eqb rts0 (RTS_CRS K) then
    inr {| params := 1;
           body := fun ix =>
             match ix with
             | [i] =>
                 let? s := sum_data J (fun j => getitem2 x0 i j) in
                 inr (Truth (Qle_bool 0 s))
             | _ => inl TypeError
             end |}
  else inl ValueError.

(** [if self.cutactive[i][h]:], a non-zero entry being true. *)
Definition cut_set (i h : nat) : result bool :=
  let? c := getitem2 cut i h in
  inr (if Qeq_bool c 0 then false else true).

(** [__sweet_rule] *)
Definition __sweet_rule : result rule :=
  if String.eqb rts0 (RTS_VRS K) then
    inr {| params := 2;
           body := fun ix =>
             match ix with
             | [i; h] =>
                 let? c := cut_set i h in
                 if c then
                   if decide (i = h) then inr Skip
                   else
                     apply_operator
                       (var1 "alpha" i
                        -! sum_of J (fun j => gamma i j *! getitem2 y0 i j)
                        +! sum_of L (fun l => delta i l *! getitem2 b0 i l))
                       (var1 "alpha" h
                        -! sum_of J (fun j => gamma h j *! getitem2 y0 i j)
                        +! sum_of L (fun l => delta h l *! getitem2 b0 i l))
                 else inr Skip
             | _ => inl TypeError
             end |}
  else if String.eqb rts0 (RTS_CRS K) then
    inr {| params := 2;
           body := fun ix =>
             match ix with
             | [i; h] =>
                 let? c := cut_set i h in
                 if c then
                   if decide (i = h) then inr Skip
                   else
                     apply_operator
                       (-! sum_of J (fun j => gamma i j *! getitem2 y0 i j)
                        +! sum_of L (fun l => delta i l *! getitem2 b0 i l))
                       (-! sum_of J (fun j => gamma h j *! getitem2 y0 i j)
                        +! sum_of L (fun l => delta h l *! getitem2 b0 i l))
                 else inr Skip
             | _ => inl TypeError
             end |}
  else inl ValueError.

End Rules.

(** [len(m[0])] *)
Definition width (m : mat) : result nat :=
  match m !! O with
  | Some r => inr (length r)
  | None => inl IndexError
  end.

(** Lines 63 to 80 of [__init__]: the five constraints, over the sets
    [I = range(n)], [J] and [L]. *)
Definition constrain (y0 x0 b0 cut : mat) (cet0 fun0 rts0 : string)
  (J L : list nat) : M ConcreteModel unit :=
  let n := length x0 in
  let I := seq 0 n in
  do r <- lift (__regression_rule x0 y0 b0 cet0 rts0 J L n);
  add_constraint "regression_rule" (index1 I) r;;
  (if String.eqb cet0 (CET_MULT K)
   then do r <- lift (__log_rule y0 b0 cet0 rts0 J L n);
        add_constraint "log_rule" (index1 I) r
   else ret tt);;
  do r <- lift (__afriat_rule x0 y0 b0 fun0 rts0 J L n);
  add_constraint "afriat_rule" (index1 I) r;;
  do r <- lift (__disposability_rule x0 rts0 J n);
  add_constraint "disposability_rule" (index2 I I) r;;
  do r <- lift (__sweet_rule y0 b0 fun0 rts0 cut J L n);
  add_constraint "sweet_rule" (index2 I I) r.

(** Lines 37 to 80 of [__init__]: what is done to [self.__model__]. *)
Definition build (y0 x0 b0 cut : mat) (cet0 fun0 rts0 : string)
  : M ConcreteModel unit :=
  let n := length x0 in
  let I := seq 0 n in
  add_component "I" (CSet I);;
  do wy <- lift (width y0);
  let J := seq 0 wy in
  add_component "J" (CSet J);;
  do wb <- lift (width b0);
  let L := seq 0 wb in
  add_component "L" (CSet L);;
  add_component "alpha" (CVar (index1 I) None);;
  add_component "delta" (CVar (index2 I J) (Some 0));;
  add_component "gamma" (CVar (index2 I L) (Some 0));;
  add_component "epsilon" (CVar (index1 I) None);;
  add_component "frontier" (CVar (index1 I) (Some 0));;
  add_component "objective" (CObjective (__objective_rule I));;
  constrain y0 x0 b0 cut cet0 fun0 rts0 J L.

(** [__init__(self, y, x, b, cutactive, cet, fun, rts)]: the model as it
    stands when the constructor stops, and the instance if it returns. *)
Definition __init__ (y0 x0 b0 cut : mat) (cet0 fun0 rts0 : string)
  : ConcreteModel * result self :=
  match build y0 x0 b0 cut cet0 fun0 rts0 empty_model with
  | (m, inl e) => (m, inl e)
  | (m, inr _) =>
      (m, inr {| x := x0; y := y0; b := b0; cet := cet0; fun_ := fun0;
                 rts := rts0; cutactive := cut; model := m;
                 optimization_status := 0; problem_status := 0 |})
  end.

(** [optimize(self, email, solver)] *)
Definition optimize (email solver : option string) : M self unit :=
  fun s =>
    match optimize_model C (model s) email (cet s) solver with
    | inl e => (s, inl e)
    | inr (m, ps, os) =>
        ({| x := x s; y := y s; b := b s; cet := cet s; fun_ := fun_ s;
            rts := rts s; cutactive := cutactive s; model := m;
            optimization_status := os; problem_status := ps |}, inr tt)
    end.

(** The value the solver gave to [model.<name>[index]], [None] if none. *)
Definition value_of (m : ConcreteModel) (name : string) (index : list nat)
  : option Q :=
  match list_find (fun e => e.1 = (name, index)) (values m) with
  | Some (_, e) => Some e.2
  | None => None
  end.

(** The index tuples of the variable [model.<name>]. *)
Definition var_index (m : ConcreteModel) (name : string)
  : result (list (list nat)) :=
  match list_find (fun e => e.1 = name) (components m) with
  | Some (_, (_, CVar index _)) => inr index
  | Some _ => inl TypeError
  | None => inl AttributeError
  end.

(** The slice [model.<name>[:]] or [model.<name>[:, :]]: a variable over
    an empty set has no position to slice. *)
Definition slice (m : ConcreteModel) (name : string)
  : result (list (list nat)) :=
  let? index := var_index m name in
  if decide (index = []) then inl IndexError else inr index.

(** [list(model.<name>[:].value)] *)
Definition values1 (m : ConcreteModel) (name : string) : result (list (option Q)) :=
  let? index := slice m name in
  inr (map (value_of m name) index).

(** The triples [i + tuple([j])] of a variable with two indices. *)
Definition values2 (m : ConcreteModel) (name : string)
  : result (list (nat * nat * option Q)) :=
  let? index := slice m name in
  inr (omap (fun ix => match ix with
                       | [i; j] => Some (i, j, value_of m name ix)
                       | _ => None
                       end) index).

(** The optional solve at the head of the three accessors. *)
Definition solve_if_needed : M self unit :=
  fun s =>
    if decide (optimization_status s = O)
    then optimize (OPT_LOCAL K) (OPT_DEFAULT K) s
    else (s, inr tt).

Definition get_alpha : M self (list (option Q)) :=
  solve_if_needed;;
  fun s => (s, values1 (model s) "alpha").

Definition get_delta : M self (list (list (option Q))) :=
  solve_if_needed;;
  fun s => (s, let? rows := values2 (model s) "delta" in pivot C rows).


End Class.

End weakCNLSxG1.

(** * Vocabulary of the statements *)

(** ** Outcomes of a method *)

(** [keeps R c]: the state in which [c] stops, normally or by an exception,
    is related by [R] to the one it started in. *)
Definition keeps {S A : Type} (R : S -> S -> Prop) (c : M S A) : Prop :=
  forall s, R s (c s).1.

(** [returns c s P]: started in [s], [c] raises nothing and ends in a state
    and with a value that satisfy [P]. *)
Definition returns {S A : Type} (c : M S A) (s : S) (P : A -> S -> Prop) : Prop :=
  exists s' a, c s = (s', inr a) /\ P a s'.

(** [c] raises [e] from the state [s]. *)
Definition raises {S A : Type} (c : M S A) (s : S) (e : exn) : Prop :=
  (c s).2 = inl e.

(** [c] raises some exception from the state [s]. *)
Definition stops {S A : Type} (c : M S A) (s : S) : Prop :=
  exists e, (c s).2 = inl e.

(** ** Matrices *)

(** Every entry that reads 1 in [m] reads 1 in [m']. *)
Definition grows (m m' : mat) : Prop :=
  forall i j, getitem2 m i j = inr 1 -> getitem2 m' i j = inr 1.

(** The relation kept by the scan: the activation matrix only gains ones. *)
Definition act_grows (fr fr' : frame) : Prop := grows (act fr) (act fr').

(** Every entry [(i, j)] with [i, j < n] exists. *)
Definition covers (n : nat) (m : mat) : Prop :=
  forall i j, (i < n)%nat -> (j < n)%nat -> exists v, getitem2 m i j = inr v.

(** The value of a result that is known not to be an exception. *)
Definition value (r : result Q) : Q :=
  match r with
  | inr v => v
  | inl _ => 0
  end.

(** Column [j] of row [i] of the stored scores [m] achieves the maximum of
    the first [n] columns of that row, and this maximum is positive. *)
Definition row_top (m : mat) (n i j : nat) : Prop :=
  exists v, getitem2 m i j = inr v /\ 0 < v /\
            forall j' v', (j' < n)%nat -> getitem2 m i j' = inr v' -> v' <= v.

(** [m] has [n] rows of [k] columns. *)
Definition table (n k : nat) (m : mat) : Prop :=
  length m = n /\ Forall (fun r => length r = k) m.

(** The fit and the data have the shapes the solved model gives them. *)
Definition well_shaped (n : nat) (al : vec) (be de xs bs : mat) : Prop :=
  length al = n /\
  exists k l, table n k be /\ table n k xs /\ table n l de /\ table n l bs.

(** ** The scan *)

(** For scores [sc]: [t] is what [activetmp] holds once the first inner
    loop has seen the first [k] columns of row [i]. *)
Definition running_max (sc : nat -> nat -> Q) (i k : nat) (t : Q) : Prop :=
  0 <= t /\
  (forall j, (j < k)%nat -> sc i j <= t) /\
  (0 < t -> exists j, (j < k)%nat /\ t = sc i j).

(** Column [j] achieves the maximum of row [i], and this maximum is
    positive. *)
Definition top (sc : nat -> nat -> Q) (n i j : nat) : Prop :=
  0 < sc i j /\ forall j', (j' < n)%nat -> sc i j' <= sc i j.

(** The frame [fr'] left by the body of the outer loop on row [i], started
    in [fr]. *)
Definition row_done (sc : nat -> nat -> Q) (n i : nat) (fr fr' : frame) : Prop :=
  covers n (viol fr') /\ covers n (act fr') /\
  (forall j, (j < n)%nat -> getitem2 (viol fr') i j = inr (sc i j)) /\
  (forall i' j, i' <> i -> getitem2 (viol fr') i' j = getitem2 (viol fr) i' j) /\
  (forall j, (j < n)%nat -> top sc n i j -> getitem2 (act fr') i j = inr 1) /\
  (forall j, ~ ((j < n)%nat /\ top sc n i j) ->
             getitem2 (act fr') i j = getitem2 (act fr) i j) /\
  (forall i' j, i' <> i -> getitem2 (act fr') i' j = getitem2 (act fr) i' j) /\
  exists t, activetmp fr' = Some t /\ running_max sc i n t.

(** The frame [fr'] left by the outer loop once rows [0 .. k-1] are done,
    started in [fr]. *)
Definition rows_done (sc : nat -> nat -> Q) (n k : nat) (fr fr' : frame) : Prop :=
  covers n (viol fr') /\ covers n (act fr') /\
  (forall i j, (i < k)%nat -> (j < n)%nat ->
               getitem2 (viol fr') i j = inr (sc i j)) /\
  (forall i j, (i < k)%nat -> (j < n)%nat -> top sc n i j ->
               getitem2 (act fr') i j = inr 1) /\
  (forall i j, ~ ((i < k)%nat /\ (j < n)%nat /\ top sc n i j) ->
               getitem2 (act fr') i j = getitem2 (act fr) i j) /\
  match k with
  | O => activetmp fr' = activetmp fr
  | Datatypes.S k' => exists t, activetmp fr' = Some t /\ running_max sc k' n t
  end.

(** ** The regime dispatch *)

(** The branch the [if]/[elif] chain of the scans selects, if any. *)
Definition pick {A : Type} (K : constant) (rts fun_ : string) (vp vc cp cc : A)
  : option A :=
  if String.eqb rts (RTS_VRS K) && String.eqb fun_ (FUN_PROD K) then Some vp
  else if String.eqb rts (RTS_VRS K) && String.eqb fun_ (FUN_COST K) then Some vc
  else if String.eqb rts (RTS_CRS K) && String.eqb fun_ (FUN_PROD K) then Some cp
  else if String.eqb rts (RTS_CRS K) && String.eqb fun_ (FUN_COST K) then Some cc
  else None.

(** [(rts, fun)] matches one of the four branches. *)
Definition recognized (K : constant) (rts fun_ : string) : bool :=
  match pick K rts fun_ tt tt tt tt with
  | Some _ => true
  | None => false
  end.

(** ** Instances of [weakCNLSG] *)

(** Both activation matrices of the instance only gain ones. *)
Definition self_grows (C : weakCNLSG.collaborators) (s s' : weakCNLSG.self C)
  : Prop :=
  grows (weakCNLSG.active C s) (weakCNLSG.active C s') /\
  grows (weakCNLSG.activeweak C s) (weakCNLSG.activeweak C s').

(** The status flag of [s'] is that of [s]. *)
Definition same_status (C : weakCNLSG.collaborators) (s s' : weakCNLSG.self C)
  : Prop :=
  weakCNLSG.optimization_status C s' = weakCNLSG.optimization_status C s.

Section Stated_weakCNLSG.

Import weakCNLSG.

(** C4, as stated: after a solve the head of the loop runs both scans, and
    holds exactly when one of the two returned statistics exceeds 1e-4. *)
Definition head_runs_both_scans (K : constant) (C : collaborators) (s : self C)
  : Prop :=
  forall al be de s1 c s2 w,
    alpha C s = Some al -> beta C s = Some be -> delta C s = Some de ->
    __convergence_test K C al be de s = (s1, inr c) ->
    __convergence_test_weak K C al be de s1 = (s2, inr w) ->
    loop_test K C s
    = (s2, inr (if Qlt_le_dec 0.0001 c then true
                else if Qlt_le_dec 0.0001 w then true else false)).

End Stated_weakCNLSG.

(** ** Models of [weakCNLSxG1] *)

Section Stated_weakCNLSxG1.

Import weakCNLSxG1.

(** The sets, the variables and the objective, as lines 40 to 62 declare
    them for [n] units, [wy] columns of [y] and [wb] columns of [b]. *)
Definition declared (n wy wb : nat) : list (string * component) :=
  let I := seq 0 n in
  [("I", CSet I); ("J", CSet (seq 0 wy)); ("L", CSet (seq 0 wb));
   ("alpha", CVar (index1 I) None);
   ("delta", CVar (index2 I (seq 0 wy)) (Some 0));
   ("gamma", CVar (index2 I (seq 0 wb)) (Some 0));
   ("epsilon", CVar (index1 I) None);
   ("frontier", CVar (index1 I) (Some 0));
   ("objective", CObjective (__objective_rule I))].

(** [e] mentions the variable [model.<name>]. *)
Fixpoint mentions (name : string) (e : expr) : bool :=
  match e with
  | Num _ | Row _ => false
  | Var1 v _ | Var2 v _ _ => String.eqb v name
  | Neg e1 | Pow e1 _ | Log e1 => mentions name e1
  | Add e1 e2 | Sub e1 e2 | Mul e1 e2 => mentions name e1 || mentions name e2
  end.


(** An operand that, when its evaluation returns, does not mention the
    variable [model.<name>]. *)
Definition omits (name : string) (a : result expr) : Prop :=
  forall e, a = inr e -> mentions name e = false.

(** The two sides of a relation. *)
Definition sides (r : relation) : expr * expr :=
  match r with
  | Eq l r' | Le l r' | Ge l r' => (l, r')
  end.

(** The relation [r] mentions the variable [model.<name>]. *)
Definition mentions_rel (name : string) (r : relation) : bool :=
  mentions name (sides r).1 || mentions name (sides r).2.

End Stated_weakCNLSxG1.

(** ** Shapes of the instance matrices *)

(** The lengths of the rows of [m]. *)
Definition shape (m : mat) : list nat := map length m.

(** The two matrices of [fr'] have the shapes of those of [fr]. *)
Definition frame_shape (fr fr' : frame) : Prop :=
  shape (viol fr') = shape (viol fr) /\ shape (act fr') = shape (act fr).

(** The four matrices of [s'] have the shapes of those of [s]. *)
Definition self_shape (C : weakCNLSG.collaborators) (s s' : weakCNLSG.self C)
  : Prop :=
  shape (weakCNLSG.active C s') = shape (weakCNLSG.active C s) /\
  shape (weakCNLSG.active2 C s') = shape (weakCNLSG.active2 C s) /\
  shape (weakCNLSG.activeweak C s') = shape (weakCNLSG.activeweak C s) /\
  shape (weakCNLSG.activeweak2 C s') = shape (weakCNLSG.activeweak2 C s).

(** The data and the regime of [s'] are those of [s]. *)
Definition same_data (C : weakCNLSG.collaborators) (s s' : weakCNLSG.self C)
  : Prop :=
  weakCNLSG.cutactive C s' = weakCNLSG.cutactive C s /\
  weakCNLSG.y C s' = weakCNLSG.y C s /\
  weakCNLSG.x C s' = weakCNLSG.x C s /\
  weakCNLSG.b C s' = weakCNLSG.b C s /\
  weakCNLSG.z C s' = weakCNLSG.z C s /\
  weakCNLSG.cet C s' = weakCNLSG.cet C s /\
  weakCNLSG.fun_ C s' = weakCNLSG.fun_ C s /\
  weakCNLSG.rts C s' = weakCNLSG.rts C s.

(** ** Sample data *)

(** One possible content of [pystoned.constant]. *)
Definition sample_constant : constant :=
  {| CET_ADDI := "addi"; CET_MULT := "mult";
     FUN_PROD := "prod"; FUN_COST := "cost";
     RTS_VRS := "vrs"; RTS_CRS := "crs";
     OPT_DEFAULT := None; OPT_LOCAL := Some "local" |}.

(** Collaborators that accept everything; every solve yields the same fit
    for two units. *)
Definition sample_collaborators : weakCNLSG.collaborators :=
  {| weakCNLSG.Mdl := unit;
     weakCNLSG.Inner := unit;
     weakCNLSG.column_stack := fun _ => inr [];
     weakCNLSG.sweet := fun m => inr m;
     weakCNLSG.assert_valid_wp_data := fun y0 x0 b0 z0 => inr (y0, x0, b0, z0);
     weakCNLSG.assert_various_return_to_scale := fun _ => inr tt;
     weakCNLSG.assert_contextual_variable := fun _ => inr tt;
     weakCNLSG.assert_undesirable_output := fun _ => inr tt;
     weakCNLSG.weakCNLSG1 := fun _ _ _ _ _ _ _ => inr tt;
     weakCNLSG.weakCNLSZG1 := fun _ _ _ _ _ _ _ _ => inr tt;
     weakCNLSG.weakCNLSG2 := fun _ _ _ _ _ _ _ _ _ => inr tt;
     weakCNLSG.weakCNLSZG2 := fun _ _ _ _ _ _ _ _ _ _ => inr tt;
     weakCNLSG.inner_optimize := fun _ _ => ret tt;
     weakCNLSG.inner_get_alpha := ret [1; 0];
     weakCNLSG.inner_get_beta := ret [[0]; [0]];
     weakCNLSG.inner_get_delta := ret [[0]; [0]];
     weakCNLSG.inner_model := fun _ => tt;
     weakCNLSG.values1 := fun _ _ => inr [];
     weakCNLSG.values2 := fun _ _ => inr [];
     weakCNLSG.pivot := fun _ => inr [];
     weakCNLSG.np_frontier_mult := fun _ _ _ _ => inr (Vector []);
     weakCNLSG.np_subtract := fun _ _ => inr (Array []) |}.

(** Two units, one input ([x = 1] and [x = 0]), one undesirable output; the
    attributes are those of a fresh instance. *)
Definition two_units (fun0 rts0 : string) : weakCNLSG.self sample_collaborators :=
  weakCNLSG.fresh sample_collaborators [] [[1]; [1]] [[1]; [0]] [[0]; [0]] None
    "addi" fun0 rts0 2.

(** The same instance, production frontier and variable returns to scale,
    once a solve has stored the fit [alpha = al], [beta = delta = 0]. *)
Definition two_units_fitted (al : vec) : weakCNLSG.self sample_collaborators :=
  weakCNLSG.with_fit sample_collaborators (two_units "prod" "vrs")
    (Some al) (Some [[0]; [0]]) (Some [[0]; [0]]) (Some tt) (Some O) 0.

(** A solver that assigns 5 to [alpha[0]] and 2 to [delta[0, 0]]; the
    reshaping lays the triples out as one row.  A row of [x] with one
    entry is compared as that entry; any other row, and the logarithm of
    a row, is refused. *)
Definition sample_solver : weakCNLSxG1.collaborators :=
  {| weakCNLSxG1.optimize_model := fun m _ _ _ =>
       inr ({| weakCNLSxG1.components := weakCNLSxG1.components m;
               weakCNLSxG1.values :=
                 [("alpha", [O], 5); ("delta", [O; O], 2)] |}, O, 1%nat);
     weakCNLSxG1.pivot := fun rows => inr [map (fun r => r.2) rows];
     weakCNLSxG1.eq_row := fun row =>
       match row with
       | [_] => inr tt
       | _ => inl ValueError
       end;
     weakCNLSxG1.log_row := fun _ => inl TypeError |}.


(** Collaborators like [sample_collaborators], except that every solve
    yields the fit [alpha = [0, 1]], under which the last of two units
    violates concavity by 1. *)
Definition stubborn_collaborators : weakCNLSG.collaborators :=
  {| weakCNLSG.Mdl := unit;
     weakCNLSG.Inner := unit;
     weakCNLSG.column_stack := fun _ => inr [];
     weakCNLSG.sweet := fun m => inr m;
     weakCNLSG.assert_valid_wp_data := fun y0 x0 b0 z0 => inr (y0, x0, b0, z0);
     weakCNLSG.assert_various_return_to_scale := fun _ => inr tt;
     weakCNLSG.assert_contextual_variable := fun _ => inr tt;
     weakCNLSG.assert_undesirable_output := fun _ => inr tt;
     weakCNLSG.weakCNLSG1 := fun _ _ _ _ _ _ _ => inr tt;
     weakCNLSG.weakCNLSZG1 := fun _ _ _ _ _ _ _ _ => inr tt;
     weakCNLSG.weakCNLSG2 := fun _ _ _ _ _ _ _ _ _ => inr tt;
     weakCNLSG.weakCNLSZG2 := fun _ _ _ _ _ _ _ _ _ _ => inr tt;
     weakCNLSG.inner_optimize := fun _ _ => ret tt;
     weakCNLSG.inner_get_alpha := ret [0; 1];
     weakCNLSG.inner_get_beta := ret [[0]; [0]];
     weakCNLSG.inner_get_delta := ret [[0]; [0]];
     weakCNLSG.inner_model := fun _ => tt;
     weakCNLSG.values1 := fun _ _ => inr [];
     weakCNLSG.values2 := fun _ _ => inr [];
     weakCNLSG.pivot := fun _ => inr [];
     weakCNLSG.np_frontier_mult := fun _ _ _ _ => inr (Vector []);
     weakCNLSG.np_subtract := fun _ _ => inr (Array []) |}.

(** A fresh instance of two units for these collaborators. *)
Definition stubborn_units : weakCNLSG.self stubborn_collaborators :=
  weakCNLSG.fresh stubborn_collaborators [] [[1]; [1]] [[1]; [0]] [[0]; [0]] None
    "addi" "prod" "vrs" 2.

(** That instance after the first pass and [c] further turns, [c >= 1]:
    the scan has stored its scores and marked the pair [(1, 0)]. *)
Definition stubborn_after (c : nat) : weakCNLSG.self stubborn_collaborators :=
  weakCNLSG.with_fit stubborn_collaborators
    (weakCNLSG.with_active stubborn_collaborators stubborn_units
       [[0; -1]; [1; 0]] [[0; 0]; [1; 0]])
    (Some [0; 1]) (Some [[0]; [0]]) (Some [[0]; [0]]) (Some tt) (Some c) 0.

(** * Reasoning about methods *)

(** ** Properties kept by every step, whatever the outcome *)

Section Keeps.

Context {S : Type} (R : S -> S -> Prop) `{!PreOrder R}.

Lemma keeps_ret {A : Type} (a : A) : keeps R (ret a).
Proof using Type*. intros s. simpl. reflexivity. Qed.

Lemma keeps_raise {A : Type} (e : exn) : keeps R (@raise S A e).
Proof using Type*. intros s. simpl. reflexivity. Qed.

Lemma keeps_lift {A : Type} (r : result A) : keeps R (@lift S A r).
Proof using Type*. intros s. simpl. reflexivity. Qed.

Lemma keeps_bind {A B : Type} (c : M S A) (k : A -> M S B) :
  keeps R c -> (forall a, keeps R (k a)) -> keeps R (bind c k).
Proof using Type*.
  intros Hc Hk s. unfold bind. specialize (Hc s).
  destruct (c s) as [s' [e | a]]; simpl in *.
  - exact Hc.
  - etransitivity; [exact Hc | apply Hk].
Qed.

Lemma keeps_for_each {A : Type} (l : list A) (body : A -> M S unit) :
  (forall a, keeps R (body a)) -> keeps R (for_each l body).
Proof using Type*.
  intros Hb. induction l as [| a l IH]; simpl.
  - apply keeps_ret.
  - apply keeps_bind; [apply Hb | intros _; exact IH].
Qed.

Lemma keeps_for_range (n : nat) (body : nat -> M S unit) :
  (forall i, keeps R (body i)) -> keeps R (for_range n body).
Proof using Type*. intros Hb. apply keeps_for_each, Hb. Qed.

Lemma keeps_on_local {L A : Type} (c : M L A) (l : L) : keeps R (on_local c l).
Proof using Type*.
  intros s. unfold on_local. destruct (c l) as [l' [e | a]]; simpl; reflexivity.
Qed.

End Keeps.

(** ** Matrices that only gain ones *)

#[local] Instance grows_preorder : PreOrder grows.
Proof.
  split.
  - intros m i j H. exact H.
  - intros m1 m2 m3 H12 H23 i j H. apply H23, H12, H.
Qed.

Lemma getitem2_setitem2 (m m' : mat) (i j i' j' : nat) (v : Q) :
  setitem2 m i j v = inr m' ->
  getitem2 m' i' j' = if decide (i' = i /\ j' = j) then inr v else getitem2 m i' j'.
Proof.
  unfold setitem2, getitem2, getitem. intros H.
  destruct (m !! i) as [r |] eqn:Hr; [| discriminate].
  destruct (decide (j < length r)%nat) as [Hj |]; [| discriminate].
  injection H as <-.
  assert (Hi : (i < length m)%nat) by (eapply lookup_lt_Some; eassumption).
  destruct (decide (i' = i)) as [-> | Hne].
  - rewrite list_lookup_insert_eq by exact Hi. rewrite Hr.
    destruct (decide (j' = j)) as [-> | Hne'].
    + rewrite list_lookup_insert_eq by exact Hj.
      rewrite decide_True by done. reflexivity.
    + rewrite list_lookup_insert_ne by done.
      rewrite decide_False by (intros [_ ?]; done). reflexivity.
  - rewrite list_lookup_insert_ne by done.
    rewrite decide_False by (intros [? _]; done). reflexivity.
Qed.

Lemma setitem2_one_grows (m m' : mat) (i j : nat) :
  setitem2 m i j 1 = inr m' -> grows m m'.
Proof.
  intros H i' j' H1. rewrite (getitem2_setitem2 _ _ _ _ _ _ _ H).
  destruct (decide (i' = i /\ j' = j)); [reflexivity | exact H1].
Qed.

#[local] Instance act_grows_preorder : PreOrder act_grows.
Proof.
  split.
  - intros fr. unfold act_grows. reflexivity.
  - intros f1 f2 f3 H12 H23. unfold act_grows in *. etransitivity; eassumption.
Qed.

Lemma keeps_set_activetmp (t : Q) : keeps act_grows (set_activetmp t).
Proof. intros fr. unfold act_grows. simpl. reflexivity. Qed.

Lemma keeps_set_activetmp1 (t : Q) : keeps act_grows (set_activetmp1 t).
Proof. intros fr. unfold act_grows. simpl. reflexivity. Qed.

Lemma keeps_read_activetmp : keeps act_grows read_activetmp.
Proof.
  intros fr. unfold read_activetmp. destruct (activetmp fr); simpl; reflexivity.
Qed.

Lemma keeps_read_activetmp1 : keeps act_grows read_activetmp1.
Proof. intros fr. simpl. reflexivity. Qed.

Lemma keeps_load_viol (i j : nat) : keeps act_grows (load_viol i j).
Proof. intros fr. simpl. reflexivity. Qed.

Lemma keeps_store_viol (i j : nat) (v : Q) : keeps act_grows (store_viol i j v).
Proof.
  intros fr. unfold store_viol, act_grows.
  destruct (setitem2 (viol fr) i j v); simpl; reflexivity.
Qed.

Lemma keeps_store_act_one (i j : nat) : keeps act_grows (store_act i j 1).
Proof.
  intros fr. unfold store_act, act_grows.
  destruct (setitem2 (act fr) i j 1) eqn:H; simpl; [reflexivity |].
  eapply setitem2_one_grows; eassumption.
Qed.

Create HintDb keeps_db.

#[local] Hint Resolve keeps_set_activetmp keeps_set_activetmp1
  keeps_read_activetmp keeps_read_activetmp1 keeps_load_viol keeps_store_viol
  keeps_store_act_one : keeps_db.

Ltac keeps_step :=
  first
    [ apply keeps_bind; [exact _ | | intros ?]
    | apply keeps_for_range; [exact _ | intros ?]
    | apply keeps_ret; exact _
    | apply keeps_lift; exact _
    | apply keeps_on_local; exact _
    | solve [auto with keeps_db typeclass_instances]
    | match goal with |- keeps _ (if ?c then _ else _) => destruct c end
    | match goal with |- keeps _ (match ?c with _ => _ end) => destruct c end ].

Lemma keeps_scan (score : nat -> nat -> result Q) (n : nat) :
  keeps act_grows (scan score n).
Proof.
  unfold scan, scan_row, find_violation, add_active.
  repeat keeps_step.
Qed.

(** ** Methods that return *)

Lemma returns_ret {S A : Type} (a : A) (s : S) (P : A -> S -> Prop) :
  P a s -> returns (ret a) s P.
Proof. intros H. exists s, a. split; [reflexivity | exact H]. Qed.

Lemma returns_bind {S A B : Type} (c : M S A) (k : A -> M S B) (s : S)
  (P : B -> S -> Prop) :
  returns c s (fun a s' => returns (k a) s' P) -> returns (bind c k) s P.
Proof.
  intros (s' & a & Hc & s'' & b & Hk & HP).
  exists s'', b. split; [| exact HP]. unfold bind. rewrite Hc. exact Hk.
Qed.

Lemma returns_weaken {S A : Type} (c : M S A) (s : S) (P P' : A -> S -> Prop) :
  returns c s P -> (forall a s', P a s' -> P' a s') -> returns c s P'.
Proof. intros (s' & a & Hc & HP) H. exists s', a. split; [exact Hc | apply H, HP]. Qed.

(** The rule of the [for] loop over [seq a m]: [I k] holds before the
    iteration of index [k]. *)
Lemma returns_for_seq {S : Type} (body : nat -> M S unit) (I : nat -> S -> Prop)
  (m a : nat) (s : S) :
  I a s ->
  (forall k s', (a <= k < a + m)%nat -> I k s' ->
                returns (body k) s' (fun _ s'' => I (Datatypes.S k) s'')) ->
  returns (for_each (seq a m) body) s (fun _ s' => I (a + m)%nat s').
Proof.
  revert a s. induction m as [| m IH]; intros a s H0 Hstep; simpl.
  - apply returns_ret. replace (a + 0)%nat with a by lia. exact H0.
  - apply returns_bind.
    eapply returns_weaken; [apply (Hstep a s); [lia | exact H0] |].
    intros u s' H1. simpl in H1.
    replace (a + Datatypes.S m)%nat with (Datatypes.S a + m)%nat by lia.
    apply IH; [exact H1 |].
    intros k s'' Hk. apply Hstep. lia.
Qed.

Lemma returns_for_range {S : Type} (body : nat -> M S unit) (I : nat -> S -> Prop)
  (n : nat) (s : S) :
  I O s ->
  (forall k s', (k < n)%nat -> I k s' ->
                returns (body k) s' (fun _ s'' => I (Datatypes.S k) s'')) ->
  returns (for_range n body) s (fun _ s' => I n s').
Proof.
  intros H0 Hstep. unfold for_range.
  apply (returns_for_seq body I n O s H0).
  intros k s' Hk. apply Hstep. lia.
Qed.

(** ** Matrices large enough for the scan *)

Lemma setitem2_covered (n : nat) (m : mat) (i j : nat) (v : Q) :
  covers n m -> (i < n)%nat -> (j < n)%nat ->
  exists m', setitem2 m i j v = inr m'.
Proof.
  intros Hc Hi Hj. destruct (Hc i j Hi Hj) as [w Hw].
  unfold getitem2, getitem in Hw. unfold setitem2.
  destruct (m !! i) as [r |]; [| discriminate].
  destruct (r !! j) as [q |] eqn:Hq; [| discriminate].
  apply lookup_lt_Some in Hq.
  rewrite decide_True by exact Hq. eexists. reflexivity.
Qed.

Lemma setitem2_covers (n : nat) (m m' : mat) (i j : nat) (v : Q) :
  setitem2 m i j v = inr m' -> covers n m -> covers n m'.
Proof.
  intros H Hc i' j' Hi Hj. rewrite (getitem2_setitem2 _ _ _ _ _ _ _ H).
  destruct (decide (i' = i /\ j' = j)); [eexists; reflexivity | apply Hc; assumption].
Qed.

Lemma np_zeros_covers (n : nat) : covers n (np_zeros n n).
Proof.
  intros i j Hi Hj. exists 0. unfold getitem2, getitem, np_zeros.
  rewrite lookup_replicate_2 by exact Hi.
  rewrite lookup_replicate_2 by exact Hj. reflexivity.
Qed.

(** ** What one scan does *)

Section ScanCorrect.

Variables (score : nat -> nat -> result Q) (sc : nat -> nat -> Q) (n : nat).

Hypothesis score_ok :
  forall i j, (i < n)%nat -> (j < n)%nat -> score i j = inr (sc i j).

Lemma top_iff_test (i j : nat) (t : Q) :
  (j < n)%nat -> running_max sc i n t ->
  top sc n i j <-> (sc i j >= t /\ 0 < t).
Proof using Type.
  intros Hj (H0 & Hle & Hex). split.
  - intros [Hpos Hmax]. specialize (Hle j Hj). split; [| lra].
    destruct Hex as (j0 & Hj0 & ->); [lra |]. apply Hmax, Hj0.
  - intros [Hge Hpos]. split; [lra |].
    intros j' Hj'. specialize (Hle j' Hj'). lra.
Qed.

Lemma find_violation_eq (i j : nat) (fr : frame) (v t : Q) (m' : mat) :
  score i j = inr v -> setitem2 (viol fr) i j v = inr m' -> activetmp fr = Some t ->
  find_violation score i j fr =
  ({| viol := m'; act := act fr; activetmp1 := activetmp1 fr;
      activetmp := Some (if Qlt_le_dec t v then v else t) |}, inr tt).
Proof using Type.
  intros Hs Hm Ht. unfold find_violation, bind, lift, store_viol, load_viol.
  rewrite Hs, Hm. simpl.
  rewrite (getitem2_setitem2 _ _ _ _ _ _ _ Hm), decide_True by done.
  unfold read_activetmp. simpl. rewrite Ht.
  destruct (Qlt_le_dec t v); simpl; [reflexivity |].
  rewrite <- Ht. reflexivity.
Qed.

Lemma add_active_eq (i j : nat) (fr : frame) (a t : Q) :
  getitem2 (viol fr) i j = inr a -> activetmp fr = Some t ->
  add_active i j fr =
  if Qlt_le_dec a t then (fr, inr tt)
  else if Qlt_le_dec 0 t then store_act i j 1 fr
  else (fr, inr tt).
Proof using Type.
  intros Ha Ht. unfold add_active, bind, load_viol, read_activetmp.
  rewrite Ha, Ht.
  destruct (Qlt_le_dec a t); [reflexivity |].
  destruct (Qlt_le_dec 0 t); reflexivity.
Qed.

(** The first inner loop on row [i]. *)
Lemma find_violation_row (i : nat) (fr : frame) :
  (i < n)%nat -> covers n (viol fr) -> activetmp fr = Some 0 ->
  returns (for_range n (find_violation score i)) fr (fun _ fr' =>
    act fr' = act fr /\ activetmp1 fr' = activetmp1 fr /\
    covers n (viol fr') /\
    (forall j, (j < n)%nat -> getitem2 (viol fr') i j = inr (sc i j)) /\
    (forall i' j, i' <> i -> getitem2 (viol fr') i' j = getitem2 (viol fr) i' j) /\
    exists t, activetmp fr' = Some t /\ running_max sc i n t).
Proof using score_ok.
  intros Hi Hc Ht.
  apply (returns_for_range (find_violation score i) (fun k fr' =>
    act fr' = act fr /\ activetmp1 fr' = activetmp1 fr /\
    covers n (viol fr') /\
    (forall j, (j < k)%nat -> getitem2 (viol fr') i j = inr (sc i j)) /\
    (forall i' j, i' <> i -> getitem2 (viol fr') i' j = getitem2 (viol fr) i' j) /\
    exists t, activetmp fr' = Some t /\ running_max sc i k t)).
  - repeat split; try done.
    + intros j Hj. lia.
    + exists 0. split; [exact Ht |]. repeat split.
      * lra.
      * intros j Hj. lia.
      * intros H. lra.
  - intros k fr' Hk (Ha & Ha1 & Hc' & Hrow & Hoth & t & Ht' & H0 & Hle & Hex).
    destruct (setitem2_covered n (viol fr') i k (sc i k) Hc' Hi Hk) as [m' Hm'].
    exists {| viol := m'; act := act fr'; activetmp1 := activetmp1 fr';
              activetmp := Some (if Qlt_le_dec t (sc i k) then sc i k else t) |}, tt.
    split; [apply find_violation_eq; auto |]. simpl.
    split; [exact Ha |]. split; [exact Ha1 |].
    split; [eapply setitem2_covers; eassumption |].
    split; [| split].
    + intros j Hj. rewrite (getitem2_setitem2 _ _ _ _ _ _ _ Hm').
      destruct (decide (i = i /\ j = k)) as [[_ ->] | Hne]; [reflexivity |].
      apply Hrow. destruct (decide (j = k)) as [-> | ?]; [tauto | lia].
    + intros i' j Hne. rewrite (getitem2_setitem2 _ _ _ _ _ _ _ Hm').
      rewrite decide_False by tauto. apply Hoth, Hne.
    + eexists. split; [reflexivity |].
      destruct (Qlt_le_dec t (sc i k)) as [Hlt | Hge]; repeat split.
      * lra.
      * intros j Hj. destruct (decide (j = k)) as [-> | ?]; [lra |].
        assert (sc i j <= t) by (apply Hle; lia). lra.
      * intros _. exists k. split; [lia | reflexivity].
      * exact H0.
      * intros j Hj. destruct (decide (j = k)) as [-> | ?]; [exact Hge |].
        apply Hle. lia.
      * intros Hpos. destruct (Hex Hpos) as (j & Hj & Hjt).
        exists j. split; [lia | exact Hjt].
Qed.

(** The second inner loop on row [i]. *)
Lemma add_active_row (i : nat) (fr : frame) (t : Q) :
  (i < n)%nat -> covers n (act fr) ->
  (forall j, (j < n)%nat -> getitem2 (viol fr) i j = inr (sc i j)) ->
  activetmp fr = Some t -> running_max sc i n t ->
  returns (for_range n (add_active i)) fr (fun _ fr' =>
    viol fr' = viol fr /\ activetmp fr' = activetmp fr /\
    activetmp1 fr' = activetmp1 fr /\ covers n (act fr') /\
    (forall j, (j < n)%nat -> top sc n i j -> getitem2 (act fr') i j = inr 1) /\
    (forall j, ~ ((j < n)%nat /\ top sc n i j) ->
               getitem2 (act fr') i j = getitem2 (act fr) i j) /\
    (forall i' j, i' <> i -> getitem2 (act fr') i' j = getitem2 (act fr) i' j)).
Proof using Type.
  intros Hi Hc Hrow Ht Hmax.
  apply (returns_for_range (add_active i) (fun k fr' =>
    viol fr' = viol fr /\ activetmp fr' = activetmp fr /\
    activetmp1 fr' = activetmp1 fr /\ covers n (act fr') /\
    (forall j, (j < k)%nat -> top sc n i j -> getitem2 (act fr') i j = inr 1) /\
    (forall j, ~ ((j < k)%nat /\ top sc n i j) ->
               getitem2 (act fr') i j = getitem2 (act fr) i j) /\
    (forall i' j, i' <> i -> getitem2 (act fr') i' j = getitem2 (act fr) i' j))).
  - repeat split; try done. intros j Hj. lia.
  - intros k fr' Hk (Hv & Ht' & Ht1 & Hc' & Hone & Hsame & Hoth).
    assert (Hiff := top_iff_test i k t Hk Hmax).
    unfold returns.
    rewrite (add_active_eq i k fr' (sc i k) t)
      by (rewrite ?Hv, ?Ht'; auto).
    assert (Hskip : ~ top sc n i k ->
      (viol fr' = viol fr /\ activetmp fr' = activetmp fr /\
       activetmp1 fr' = activetmp1 fr /\ covers n (act fr') /\
       (forall j, (j < Datatypes.S k)%nat -> top sc n i j ->
                  getitem2 (act fr') i j = inr 1) /\
       (forall j, ~ ((j < Datatypes.S k)%nat /\ top sc n i j) ->
                  getitem2 (act fr') i j = getitem2 (act fr) i j) /\
       (forall i' j, i' <> i ->
                     getitem2 (act fr') i' j = getitem2 (act fr) i' j))).
    { intros Hnt. repeat split; try done.
      - intros j Hj Htop. apply Hone; [| exact Htop].
        destruct (decide (j = k)) as [-> | ?]; [tauto | lia].
      - intros j Hj. apply Hsame. intros [Hjk Htop]. apply Hj. split; [lia | exact Htop]. }
    destruct (Qlt_le_dec (sc i k) t) as [Hlt | Hge].
    { exists fr', tt. split; [reflexivity |]. apply Hskip. rewrite Hiff. lra. }
    destruct (Qlt_le_dec 0 t) as [Hpos | Hnpos].
    2: { exists fr', tt. split; [reflexivity |]. apply Hskip. rewrite Hiff. lra. }
    assert (Htop : top sc n i k) by (rewrite Hiff; split; [exact Hge | exact Hpos]).
    destruct (setitem2_covered n (act fr') i k 1 Hc' Hi Hk) as [m' Hm'].
    unfold store_act. rewrite Hm'. eexists _, tt. split; [reflexivity |]. simpl.
    split; [exact Hv |]. split; [exact Ht' |]. split; [exact Ht1 |].
    split; [eapply setitem2_covers; eassumption |].
    split; [| split].
    + intros j Hj Htj. rewrite (getitem2_setitem2 _ _ _ _ _ _ _ Hm').
      destruct (decide (i = i /\ j = k)) as [_ | Hne]; [reflexivity |].
      apply Hone; [| exact Htj].
      destruct (decide (j = k)) as [-> | ?]; [tauto | lia].
    + intros j Hj. rewrite (getitem2_setitem2 _ _ _ _ _ _ _ Hm').
      destruct (decide (i = i /\ j = k)) as [[_ ->] | Hne].
      * exfalso. apply Hj. split; [lia | exact Htop].
      * apply Hsame. intros [Hjk Htj]. apply Hj. split; [lia | exact Htj].
    + intros i' j Hne. rewrite (getitem2_setitem2 _ _ _ _ _ _ _ Hm').
      rewrite decide_False by tauto. apply Hoth, Hne.
Qed.

Lemma scan_row_spec (i : nat) (fr : frame) :
  (i < n)%nat -> covers n (viol fr) -> covers n (act fr) ->
  returns (scan_row score n i) fr (fun _ fr' => row_done sc n i fr fr').
Proof using score_ok.
  intros Hi Hcv Hca. unfold scan_row.
  apply returns_bind. eexists _, tt. split; [reflexivity |].
  apply returns_bind.
  eapply returns_weaken; [apply (find_violation_row i); [exact Hi | exact Hcv | reflexivity] |].
  intros u f1 (Ha & Ha1 & Hc1 & Hrow & Hoth & t & Ht & Hmax). simpl in *.
  apply returns_bind.
  eapply returns_weaken.
  { apply (add_active_row i f1 t); try assumption. rewrite Ha. exact Hca. }
  intros u' f2 (Hv2 & Ht2 & Ht12 & Hc2 & Hone & Hsame & Hoth2). simpl in *.
  assert (Hdone : forall f3, viol f3 = viol f2 -> act f3 = act f2 ->
                             activetmp f3 = activetmp f2 -> row_done sc n i fr f3).
  { intros f3 E1 E2 E3. unfold row_done. rewrite E1, E2, E3, Hv2, Ht2.
    split; [exact Hc1 |]. split; [exact Hc2 |]. split; [exact Hrow |].
    split; [exact Hoth |]. split; [exact Hone |].
    split; [intros j Hj; rewrite <- Ha; apply Hsame, Hj |].
    split; [intros i' j Hne; rewrite <- Ha; apply Hoth2, Hne |].
    exists t. split; [exact Ht | exact Hmax]. }
  unfold bind, read_activetmp, read_activetmp1, returns.
  rewrite Ht2, Ht.
  destruct (Qlt_le_dec (activetmp1 f2) t); eexists _, tt;
    (split; [reflexivity | apply Hdone; reflexivity]).
Qed.

Lemma scan_spec (fr : frame) :
  covers n (viol fr) -> covers n (act fr) ->
  returns (scan score n) fr (fun _ fr' => rows_done sc n n fr fr').
Proof using score_ok.
  intros Hcv Hca. unfold scan.
  eapply returns_weaken.
  { apply (returns_for_range (scan_row score n) (fun k fr' =>
             (k <= n)%nat /\ rows_done sc n k fr fr')).
    - split; [lia |]. unfold rows_done. repeat split; try done.
      + intros i j Hi. lia.
      + intros i j Hi. lia.
    - intros k f1 Hk [_ (Hc1 & Hc2 & Hv & Hone & Hsame & _)].
      eapply returns_weaken; [apply (scan_row_spec k f1 Hk Hc1 Hc2) |].
      intros u f2 (Hd1 & Hd2 & Hrow & Hoth & Hone2 & Hsame2 & Hoth2 & Ht). simpl.
      split; [lia |]. unfold rows_done.
      split; [exact Hd1 |]. split; [exact Hd2 |].
      split; [| split; [| split; [| exact Ht]]].
      + intros i j Hi Hj. destruct (decide (i = k)) as [-> | Hne].
        * apply Hrow, Hj.
        * rewrite Hoth by exact Hne. apply Hv; [lia | exact Hj].
      + intros i j Hi Hj Htop. destruct (decide (i = k)) as [-> | Hne].
        * apply Hone2; assumption.
        * rewrite Hoth2 by exact Hne. apply Hone; [lia | assumption..].
      + intros i j Hn. destruct (decide (i = k)) as [-> | Hne].
        * rewrite Hsame2 by (intros [? ?]; apply Hn; split; [lia | split; assumption]).
          apply Hsame. intros (? & _). lia.
        * rewrite Hoth2 by exact Hne. apply Hsame.
          intros (? & ? & ?). apply Hn. split; [lia | split; assumption]. }
  intros a s' [_ H]. exact H.
Qed.

End ScanCorrect.

Lemma scan_marks (score : nat -> nat -> result Q) (n : nat) (fr : frame) :
  (forall i j, (i < n)%nat -> (j < n)%nat -> exists v, score i j = inr v) ->
  covers n (viol fr) -> covers n (act fr) ->
  exists fr' r,
    (scan score n;; read_activetmp) fr = (fr', r) /\
    forall i j, (i < n)%nat -> (j < n)%nat ->
      getitem2 (viol fr') i j = score i j /\
      (row_top (viol fr') n i j -> getitem2 (act fr') i j = inr 1) /\
      (~ row_top (viol fr') n i j -> getitem2 (act fr') i j = getitem2 (act fr) i j).
Proof.
  intros Hok Hcv Hca.
  assert (Hsc : forall i j, (i < n)%nat -> (j < n)%nat ->
                            score i j = inr (value (score i j))).
  { intros i j Hi Hj. destruct (Hok i j Hi Hj) as [v ->]. reflexivity. }
  destruct (scan_spec score (fun i j => value (score i j)) n Hsc fr Hcv Hca)
    as (fr' & u & Hrun & _ & _ & Hv & Hone & Hsame & _).
  exists fr', (read_activetmp fr').2. split.
  { unfold bind. rewrite Hrun. unfold read_activetmp.
    destruct (activetmp fr'); reflexivity. }
  intros i j Hi Hj.
  assert (Hiff : row_top (viol fr') n i j <->
                 top (fun i j => value (score i j)) n i j).
  { unfold row_top, top. split.
    - intros (v & Hvij & Hpos & Hmax). rewrite Hv in Hvij by assumption.
      injection Hvij as <-. split; [exact Hpos |].
      intros j' Hj'. apply (Hmax j'); [exact Hj' | apply Hv; assumption].
    - intros [Hpos Hmax]. eexists. split; [apply Hv; assumption |].
      split; [exact Hpos |]. intros j' v' Hj' Hv'.
      rewrite Hv in Hv' by assumption. injection Hv' as <-. apply Hmax, Hj'. }
  split; [rewrite Hv, <- Hsc by assumption; reflexivity |].
  split.
  - intros Ht. apply Hone; [assumption.. | apply Hiff, Ht].
  - intros Ht. apply Hsame. intros (_ & _ & Htop). apply Ht, Hiff, Htop.
Qed.

(** What the scans hand to [return activetmp]: with at least one row, the
    accumulator of the last row, that is the largest score of the last row
    when it is positive and 0 otherwise. *)
Lemma scan_returns_last_row (score : nat -> nat -> result Q) (k : nat)
  (fr : frame) :
  let n := Datatypes.S k in
  (forall i j, (i < n)%nat -> (j < n)%nat -> exists v, score i j = inr v) ->
  covers n (viol fr) -> covers n (act fr) ->
  exists fr' t,
    (scan score n;; read_activetmp) fr = (fr', inr t) /\
    0 <= t /\
    (forall j, (j < n)%nat -> value (score k j) <= t) /\
    (0 < t -> exists j, (j < n)%nat /\ t = value (score k j)).
Proof.
  intros n Hok Hcv Hca.
  assert (Hsc : forall i j, (i < n)%nat -> (j < n)%nat ->
                            score i j = inr (value (score i j))).
  { intros i j Hi Hj. destruct (Hok i j Hi Hj) as [v ->]. reflexivity. }
  destruct (scan_spec score (fun i j => value (score i j)) n Hsc fr Hcv Hca)
    as (fr' & u & Hrun & _ & _ & _ & _ & _ & t & Ht & H0 & Hle & Hex).
  exists fr', t. split.
  { unfold bind. rewrite Hrun. unfold read_activetmp. rewrite Ht. reflexivity. }
  split; [exact H0 |]. split; [exact Hle | exact Hex].
Qed.

(** ** Shapes under which no score raises *)

Lemma getitem_ok (v : vec) (i : nat) :
  (i < length v)%nat -> exists q, getitem v i = inr q.
Proof.
  intros Hi. unfold getitem. destruct (lookup_lt_is_Some_2 v i Hi) as [q ->].
  eexists. reflexivity.
Qed.

Lemma sum_prod_ok (n k : nat) (m1 m2 : mat) (i j : nat) :
  table n k m1 -> table n k m2 -> (i < n)%nat -> (j < n)%nat ->
  exists q, sum_prod m1 i m2 j = inr q.
Proof.
  intros [L1 F1] [L2 F2] Hi Hj. unfold sum_prod, getrow, rbind.
  destruct (lookup_lt_is_Some_2 m1 i) as [r1 Hr1]; [lia |].
  destruct (lookup_lt_is_Some_2 m2 j) as [r2 Hr2]; [lia |].
  rewrite Hr1, Hr2. unfold np_mul.
  rewrite decide_True; [eexists; reflexivity |].
  rewrite (Forall_lookup_1 _ _ _ _ F1 Hr1), (Forall_lookup_1 _ _ _ _ F2 Hr2).
  reflexivity.
Qed.

Ltac score_ok_step :=
  match goal with
  | |- exists v, rbind (getitem ?al ?i) _ = inr v =>
      let q := fresh "q" in let H := fresh "H" in
      destruct (getitem_ok al i) as [q H]; [lia | rewrite H; simpl]
  | |- exists v, rbind (sum_prod ?m1 ?i ?m2 ?j) _ = inr v =>
      let q := fresh "q" in let H := fresh "H" in
      destruct (sum_prod_ok _ _ m1 m2 i j ltac:(eassumption) ltac:(eassumption)
                  ltac:(assumption) ltac:(assumption)) as [q H];
      rewrite H; simpl
  | |- exists v, sum_prod ?m1 ?i ?m2 ?j = inr v =>
      apply (sum_prod_ok _ _ m1 m2 i j ltac:(eassumption) ltac:(eassumption)
               ltac:(assumption) ltac:(assumption))
  | |- exists v, inr _ = inr v => eexists; reflexivity
  end.

Section ScoresOk.

Import weakCNLSG.

Variables (n : nat) (al : vec) (be de xs bs : mat).
Hypothesis shapes : well_shaped n al be de xs bs.
Variables (i j : nat).
Hypotheses (Hi : (i < n)%nat) (Hj : (j < n)%nat).

Lemma scores_ok :
  (exists v, score_vrs_prod al be de xs bs i j = inr v) /\
  (exists v, score_vrs_cost al be de xs bs i j = inr v) /\
  (exists v, score_crs_prod be de xs bs i j = inr v) /\
  (exists v, score_crs_cost be de xs bs i j = inr v) /\
  (exists v, weak_vrs_prod al be xs i j = inr v) /\
  (exists v, weak_vrs_cost al be xs i j = inr v) /\
  (exists v, weak_crs_prod be xs i j = inr v) /\
  (exists v, weak_crs_cost be xs i j = inr v).
Proof using shapes Hi Hj.
  destruct shapes as (Hal & k & l & Tbe & Txs & Tde & Tbs).
  unfold score_vrs_prod, score_vrs_cost, score_crs_prod, score_crs_cost,
    weak_vrs_prod, weak_vrs_cost, weak_crs_prod, weak_crs_cost.
  repeat split; repeat score_ok_step.
Qed.

End ScoresOk.

(** ** The regime dispatch *)

Ltac case_regime :=
  match goal with
  | |- context [(String.eqb ?a ?b && String.eqb ?c ?d)%bool] =>
      destruct (String.eqb a b && String.eqb c d)%bool
  end.

Section Dispatch.

Import weakCNLSG.

Context (K : constant) (C : collaborators).

Lemma branches_pick (s : self C) (vp vc cp cc : nat -> nat -> result Q) :
  branches K C s vp vc cp cc =
  match pick K (rts C s) (fun_ C s) vp vc cp cc with
  | Some score => scan score (length (x C s))
  | None => ret tt
  end.
Proof.
  unfold branches, pick.
  repeat case_regime;
    reflexivity.
Qed.

Lemma pick_unrecognized {A : Type} (rts fun_ : string) (vp vc cp cc : A) :
  recognized K rts fun_ = false -> pick K rts fun_ vp vc cp cc = None.
Proof.
  unfold recognized, pick.
  repeat case_regime;
    intros H; try discriminate H; reflexivity.
Qed.

(** What the loops of either scan do to the frame they run on. *)
Lemma branches_marks (s : self C) (vp vc cp cc : nat -> nat -> result Q)
  (fr : frame) :
  let n := length (x C s) in
  recognized K (rts C s) (fun_ C s) = true ->
  (forall i j, (i < n)%nat -> (j < n)%nat ->
     (exists v, vp i j = inr v) /\ (exists v, vc i j = inr v) /\
     (exists v, cp i j = inr v) /\ (exists v, cc i j = inr v)) ->
  covers n (viol fr) -> covers n (act fr) ->
  exists fr' r,
    (branches K C s vp vc cp cc;; read_activetmp) fr = (fr', r) /\
    forall i j, (i < n)%nat -> (j < n)%nat ->
      Some (getitem2 (viol fr') i j)
        = pick K (rts C s) (fun_ C s) (vp i j) (vc i j) (cp i j) (cc i j) /\
      (row_top (viol fr') n i j -> getitem2 (act fr') i j = inr 1) /\
      (~ row_top (viol fr') n i j ->
       getitem2 (act fr') i j = getitem2 (act fr) i j).
Proof.
  intros n Hrec Hok Hcv Hca. rewrite branches_pick. fold n.
  assert (Hsel : exists score,
             pick K (rts C s) (fun_ C s) vp vc cp cc = Some score /\
             (forall i j, pick K (rts C s) (fun_ C s)
                            (vp i j) (vc i j) (cp i j) (cc i j)
                          = Some (score i j)) /\
             (score = vp \/ score = vc \/ score = cp \/ score = cc)).
  { revert Hrec. unfold recognized, pick.
    repeat case_regime;
      intros H; try discriminate H; eexists; split; try reflexivity;
      split; try (intros; reflexivity); tauto. }
  destruct Hsel as (score & -> & Hpt & Hcase).
  destruct (scan_marks score n fr) as (fr' & r & Hrun & Hpost); try assumption.
  { intros i j Hi Hj. destruct (Hok i j Hi Hj) as (H1 & H2 & H3 & H4).
    destruct Hcase as [-> | [-> | [-> | ->]]]; assumption. }
  exists fr', r. split; [exact Hrun |].
  intros i j Hi Hj. destruct (Hpost i j Hi Hj) as (Hv & Hone & Hsame).
  split; [rewrite Hpt, Hv; reflexivity |]. split; assumption.
Qed.

End Dispatch.

(** ** The whole instance: both activation matrices only gain ones *)

Section Monotone.

Import weakCNLSG.

Context (K : constant) (C : collaborators).

#[local] Instance self_grows_preorder : PreOrder (self_grows C).
Proof.
  split.
  - intros s. split; reflexivity.
  - intros s1 s2 s3 [H1 H2] [H3 H4]. split; etransitivity; eassumption.
Qed.

Lemma keeps_branches (s : self C) (vp vc cp cc : nat -> nat -> result Q) :
  keeps act_grows (branches K C s vp vc cp cc;; read_activetmp).
Proof.
  rewrite branches_pick. apply keeps_bind; [exact _ | | intros _; apply keeps_read_activetmp].
  destruct (pick K (rts C s) (fun_ C s) vp vc cp cc).
  - apply keeps_scan.
  - apply keeps_ret. exact _.
Qed.

Lemma keeps_convergence_test (al : vec) (be de : mat) :
  keeps (self_grows C) (__convergence_test K C al be de).
Proof.
  intros s. unfold __convergence_test. cbv zeta.
  match goal with
  | |- context [bind (branches K C s ?vp ?vc ?cp ?cc) ?k ?fr] =>
      pose proof (keeps_branches s vp vc cp cc fr) as H;
      destruct (bind (branches K C s vp vc cp cc) k fr) as [fr' r]
  end.
  simpl in *. split; [exact H | reflexivity].
Qed.

Lemma keeps_convergence_test_weak (al : vec) (be de : mat) :
  keeps (self_grows C) (__convergence_test_weak K C al be de).
Proof.
  intros s. unfold __convergence_test_weak. cbv zeta.
  match goal with
  | |- context [bind (branches K C s ?vp ?vc ?cp ?cc) ?k ?fr] =>
      pose proof (keeps_branches s vp vc cp cc fr) as H;
      destruct (bind (branches K C s vp vc cp cc) k fr) as [fr' r]
  end.
  simpl in *. split; [reflexivity | exact H].
Qed.

Lemma keeps_with_fit (f : self C -> self C * result unit) :
  (forall s, exists al be de m c st, f s = (with_fit C s al be de m c st, inr tt)) ->
  keeps (self_grows C) f.
Proof.
  intros H s. destruct (H s) as (al & be & de & m & c & st & ->).
  simpl. split; reflexivity.
Qed.

Lemma keeps_attr {A : Type} (f : self C -> option A) : keeps (self_grows C) (attr C f).
Proof. intros s. unfold attr. destruct (f s); simpl; reflexivity. Qed.

Lemma keeps_pure {A : Type} (f : self C -> result A) :
  keeps (self_grows C) (fun s => (s, f s)).
Proof. intros s. simpl. reflexivity. Qed.

#[local] Hint Resolve keeps_convergence_test keeps_convergence_test_weak
  keeps_attr : keeps_db.

Ltac keeps_self :=
  first
    [ keeps_step
    | apply keeps_pure
    | apply keeps_with_fit; intros ?; repeat eexists ].

Lemma keeps_first_pass (email solver : option string) :
  keeps (self_grows C) (first_pass C email solver).
Proof. unfold first_pass. repeat keeps_self. Qed.

Lemma keeps_loop_test : keeps (self_grows C) (loop_test K C).
Proof. unfold loop_test. repeat keeps_self. Qed.

Lemma keeps_loop_body (email solver : option string) :
  keeps (self_grows C) (loop_body C email solver).
Proof. unfold loop_body. repeat keeps_self. Qed.

Lemma keeps_turn (email solver : option string) :
  keeps (self_grows C) (turn K C email solver).
Proof.
  unfold turn. apply keeps_bind; [exact _ | apply keeps_loop_test |].
  intros [|].
  - apply keeps_bind; [exact _ | apply keeps_loop_body |].
    intros _. apply keeps_ret. exact _.
  - apply keeps_ret. exact _.
Qed.

Lemma turns_step (email solver : option string) (t : nat) (s : self C) :
  self_grows C (turns K C email solver t s).1
             (turns K C email solver (Datatypes.S t) s).1.
Proof.
  simpl. destruct (turns K C email solver t s) as [s' [e | [|]]]; simpl;
    try reflexivity.
  apply keeps_turn.
Qed.

Lemma grows_while (fuel : nat) (email solver : option string) (s s' : self C)
  (r : result unit) :
  while K C fuel email solver s = Some (s', r) -> self_grows C s s'.
Proof.
  revert s. induction fuel as [| fuel IH]; intros s H; simpl in H; [discriminate |].
  pose proof (keeps_turn email solver s) as Ht.
  destruct (turn K C email solver s) as [s1 [e | [|]]]; simpl in Ht.
  - injection H as <- _. exact Ht.
  - etransitivity; [exact Ht | apply IH, H].
  - injection H as <- _. exact Ht.
Qed.

Lemma grows_optimize (fuel : nat) (email solver : option string) (s s' : self C)
  (r : result unit) :
  optimize K C fuel email solver s = Some (s', r) -> self_grows C s s'.
Proof.
  unfold optimize. intros H.
  assert (H1 : keeps (self_grows C) (first_pass C email solver;; set_count C 0)).
  { apply keeps_bind; [exact _ | apply keeps_first_pass |].
    intros _. apply keeps_with_fit. intros s0. repeat eexists. }
  specialize (H1 s).
  destruct ((first_pass C email solver;; set_count C 0) s) as [s1 [e1 | u]];
    simpl in H1.
  - injection H as <- _. exact H1.
  - destruct (while K C fuel email solver s1) as [[s2 [e2 | u2]] |] eqn:Hw;
      try discriminate H.
    + injection H as <- _. etransitivity; [exact H1 |]. eapply grows_while, Hw.
    + injection H as <- _. etransitivity; [exact H1 |].
      apply grows_while in Hw. destruct Hw as [Ha Hb]. split; assumption.
Qed.

End Monotone.

(** ** The status flag is only set at the end of [optimize] *)

Section Status.

Import weakCNLSG.

Context (K : constant) (C : collaborators).

#[local] Instance same_status_preorder : PreOrder (same_status C).
Proof.
  split.
  - intros s. reflexivity.
  - intros s1 s2 s3 H1 H2. unfold same_status in *. congruence.
Qed.

Lemma status_convergence_test (al : vec) (be de : mat) :
  keeps (same_status C) (__convergence_test K C al be de).
Proof.
  intros s. unfold __convergence_test. cbv zeta.
  match goal with
  | |- context [bind ?a ?k ?fr] => destruct (bind a k fr) as [fr' r]
  end.
  reflexivity.
Qed.

Lemma status_convergence_test_weak (al : vec) (be de : mat) :
  keeps (same_status C) (__convergence_test_weak K C al be de).
Proof.
  intros s. unfold __convergence_test_weak. cbv zeta.
  match goal with
  | |- context [bind ?a ?k ?fr] => destruct (bind a k fr) as [fr' r]
  end.
  reflexivity.
Qed.

Lemma status_attr {A : Type} (f : self C -> option A) : keeps (same_status C) (attr C f).
Proof. intros s. unfold attr. destruct (f s); reflexivity. Qed.

Lemma status_pure {A : Type} (f : self C -> result A) :
  keeps (same_status C) (fun s => (s, f s)).
Proof. intros s. reflexivity. Qed.

Lemma status_set_alpha (a : vec) : keeps (same_status C) (set_alpha C a).
Proof. intros s. reflexivity. Qed.

Lemma status_set_beta (a : mat) : keeps (same_status C) (set_beta C a).
Proof. intros s. reflexivity. Qed.

Lemma status_set_delta (a : mat) : keeps (same_status C) (set_delta C a).
Proof. intros s. reflexivity. Qed.

Lemma status_set_model (m : Mdl C) : keeps (same_status C) (set_model C m).
Proof. intros s. reflexivity. Qed.

Lemma status_set_count (c : nat) : keeps (same_status C) (set_count C c).
Proof. intros s. reflexivity. Qed.

#[local] Hint Resolve status_convergence_test status_convergence_test_weak
  status_attr status_set_alpha status_set_beta status_set_delta
  status_set_model status_set_count : keeps_db.

Ltac status_step := first [ keeps_step | apply status_pure ].

Lemma status_first_pass (email solver : option string) :
  keeps (same_status C) (first_pass C email solver;; set_count C 0).
Proof. unfold first_pass. repeat status_step. Qed.

Lemma status_turn (email solver : option string) :
  keeps (same_status C) (turn K C email solver).
Proof. unfold turn, loop_test, loop_body. repeat status_step. Qed.

Lemma status_while (fuel : nat) (email solver : option string) (s s' : self C)
  (r : result unit) :
  while K C fuel email solver s = Some (s', r) -> same_status C s s'.
Proof.
  revert s. induction fuel as [| fuel IH]; intros s H; simpl in H; [discriminate |].
  pose proof (status_turn email solver s) as Ht.
  destruct (turn K C email solver s) as [s1 [e | [|]]]; simpl in Ht.
  - injection H as <- _. exact Ht.
  - etransitivity; [exact Ht | apply IH, H].
  - injection H as <- _. exact Ht.
Qed.

(** An [optimize] that ends in an exception leaves the status as it was. *)
Lemma status_failed_optimize (fuel : nat) (email solver : option string)
  (s s' : self C) (e : exn) :
  optimize K C fuel email solver s = Some (s', inl e) -> same_status C s s'.
Proof.
  unfold optimize. intros H.
  pose proof (status_first_pass email solver s) as H1.
  destruct ((first_pass C email solver;; set_count C 0) s) as [s1 [e1 | u]];
    simpl in H1.
  - injection H as <- _. exact H1.
  - destruct (while K C fuel email solver s1) as [[s2 [e2 | u2]] |] eqn:Hw;
      try discriminate H.
    injection H as <- _. etransitivity; [exact H1 |].
    eapply status_while, Hw.
Qed.

End Status.

(** * The claims about [weakCNLSG] *)

Section Claims_weakCNLSG.

Import weakCNLSG.

(** C1.  The claim says that both scans return the largest violation score
    over all ordered pairs.  Both methods end in [return activetmp], the
    accumulator of the last row, instead of [activetmp1], the maximum over
    the rows that the loops maintain.  On two units whose only violated
    pair is in the first row, each scan returns 0 although the pair
    [(0, 1)] (resp. [(0, 0)]) has score 1. *)
Theorem convergence_test_returns_last_row :
  let s := two_units "prod" "vrs" in
  let zero := [[0]; [0]] in
  (__convergence_test sample_constant sample_collaborators [1; 0] zero zero s).2
    = inr 0 /\
  score_vrs_prod [1; 0] zero zero (x _ s) (b _ s) 0 1 = inr 1 /\
  (__convergence_test_weak sample_constant sample_collaborators
     [0; 0] [[-1]; [0]] zero s).2 = inr 0 /\
  weak_vrs_prod [0; 0] [[-1]; [0]] (x _ s) 0 0 = inr 1.
Proof. vm_compute. repeat split; reflexivity. Qed.

(** C3.  From one turn of the outer loop to the next, every entry of the
    active-constraint matrix and of the weak-disposability active matrix
    that reads 1 still reads 1, whichever way the turn ends; and every
    entry that reads 1 when [optimize] is called reads 1 when it stops. *)
Theorem activation_only_grows (K : constant) (C : collaborators)
  (email solver : option string) (s : self C) (t i j : nat) :
  (getitem2 (active C (turns K C email solver t s).1) i j = inr 1 ->
   getitem2 (active C (turns K C email solver (Datatypes.S t) s).1) i j = inr 1)
  /\
  (getitem2 (activeweak C (turns K C email solver t s).1) i j = inr 1 ->
   getitem2 (activeweak C (turns K C email solver (Datatypes.S t) s).1) i j = inr 1)
  /\
  (forall fuel s' r,
     optimize K C fuel email solver s = Some (s', r) ->
     (getitem2 (active C s) i j = inr 1 -> getitem2 (active C s') i j = inr 1) /\
     (getitem2 (activeweak C s) i j = inr 1 ->
      getitem2 (activeweak C s') i j = inr 1)).
Proof.
  destruct (turns_step K C email solver t s) as [Ha Hw].
  split; [apply Ha |]. split; [apply Hw |].
  intros fuel s' r Hopt.
  destruct (grows_optimize K C fuel email solver s s' r Hopt) as [Ha' Hw'].
  split; [apply Ha' | apply Hw'].
Qed.

Lemma activation_only_grows_witness :
  getitem2 (active _ (turns sample_constant sample_collaborators None None 2
                        (two_units_fitted [0; 1])).1) 1 0 = inr 1.
Proof.
  apply (proj1 (activation_only_grows sample_constant sample_collaborators
                  None None (two_units_fitted [0; 1]) 1 1 0)).
  reflexivity.
Defined.

(** C10.  When [(rts, fun)] matches none of the four branches, both scans
    raise the unbound-local error at their [return], and leave the
    instance as it was. *)
Theorem scans_unbound_outside_regimes (K : constant) (C : collaborators)
  (s : self C) (al : vec) (be de : mat) :
  recognized K (rts C s) (fun_ C s) = false ->
  __convergence_test K C al be de s = (s, inl UnboundLocalError) /\
  __convergence_test_weak K C al be de s = (s, inl UnboundLocalError).
Proof.
  intros H. unfold __convergence_test, __convergence_test_weak. cbv zeta.
  rewrite !branches_pick, !(pick_unrecognized K _ _ _ _ _ _ H).
  destruct s; split; reflexivity.
Qed.

Lemma scans_unbound_outside_regimes_witness :
  __convergence_test sample_constant sample_collaborators [1; 0] [[0]; [0]]
    [[0]; [0]] (two_units "prod" "irs")
  = (two_units "prod" "irs", inl UnboundLocalError).
Proof.
  apply (proj1 (scans_unbound_outside_regimes sample_constant sample_collaborators
                  (two_units "prod" "irs") [1; 0] [[0]; [0]] [[0]; [0]]
                  eq_refl)).
Defined.

(** C7.  In a scan of a recognized regime, on a fit of the right shape, the
    stored scores are those of the regime's formula, and for every row [i]
    and column [j]: if [j] achieves the maximum of row [i] and that maximum
    is positive, the entry [(i, j)] of the activation matrix is 1
    afterwards; otherwise the entry is what it was before the scan.  This
    holds for the concavity scan and for the weak-disposability scan. *)
Theorem scan_marks_row_maximizers (K : constant) (C : collaborators)
  (s : self C) (al : vec) (be de : mat) (i j : nat) :
  let n := length (x C s) in
  let s1 := (__convergence_test K C al be de s).1 in
  let s2 := (__convergence_test_weak K C al be de s).1 in
  recognized K (rts C s) (fun_ C s) = true ->
  well_shaped n al be de (x C s) (b C s) ->
  covers n (active2 C s) -> covers n (active C s) ->
  covers n (activeweak2 C s) -> covers n (activeweak C s) ->
  (i < n)%nat -> (j < n)%nat ->
  (Some (getitem2 (active2 C s1) i j)
     = pick K (rts C s) (fun_ C s)
         (score_vrs_prod al be de (x C s) (b C s) i j)
         (score_vrs_cost al be de (x C s) (b C s) i j)
         (score_crs_prod be de (x C s) (b C s) i j)
         (score_crs_cost be de (x C s) (b C s) i j) /\
   (row_top (active2 C s1) n i j -> getitem2 (active C s1) i j = inr 1) /\
   (~ row_top (active2 C s1) n i j ->
    getitem2 (active C s1) i j = getitem2 (active C s) i j)) /\
  (Some (getitem2 (activeweak2 C s2) i j)
     = pick K (rts C s) (fun_ C s)
         (weak_vrs_prod al be (x C s) i j)
         (weak_vrs_cost al be (x C s) i j)
         (weak_crs_prod be (x C s) i j)
         (weak_crs_cost be (x C s) i j) /\
   (row_top (activeweak2 C s2) n i j -> getitem2 (activeweak C s2) i j = inr 1) /\
   (~ row_top (activeweak2 C s2) n i j ->
    getitem2 (activeweak C s2) i j = getitem2 (activeweak C s) i j)).
Proof.
  intros n s1 s2 Hrec Hshape Hc1 Hc2 Hc3 Hc4 Hi Hj.
  split.
  - destruct (branches_marks K C s
                (score_vrs_prod al be de (x C s) (b C s))
                (score_vrs_cost al be de (x C s) (b C s))
                (score_crs_prod be de (x C s) (b C s))
                (score_crs_cost be de (x C s) (b C s))
                (enter (active2 C s) (active C s)) Hrec)
      as (fr' & r & Hrun & Hpost); try assumption.
    { intros i' j' Hi' Hj'.
      destruct (scores_ok n al be de (x C s) (b C s) Hshape i' j' Hi' Hj')
        as (H1 & H2 & H3 & H4 & _). repeat split; assumption. }
    subst s1. unfold __convergence_test. cbv zeta. rewrite Hrun. simpl.
    apply Hpost; assumption.
  - destruct (branches_marks K C s
                (weak_vrs_prod al be (x C s))
                (weak_vrs_cost al be (x C s))
                (weak_crs_prod be (x C s))
                (weak_crs_cost be (x C s))
                (enter (activeweak2 C s) (activeweak C s)) Hrec)
      as (fr' & r & Hrun & Hpost); try assumption.
    { intros i' j' Hi' Hj'.
      destruct (scores_ok n al be de (x C s) (b C s) Hshape i' j' Hi' Hj')
        as (_ & _ & _ & _ & H1 & H2 & H3 & H4). repeat split; assumption. }
    subst s2. unfold __convergence_test_weak. cbv zeta. rewrite Hrun. simpl.
    apply Hpost; assumption.
Qed.

Lemma two_units_well_shaped (al : vec) (be : mat) :
  length al = 2%nat -> table 2 1 be ->
  well_shaped 2 al be [[0]; [0]] [[1]; [0]] [[0]; [0]].
Proof.
  intros Hal Hbe. split; [exact Hal |]. exists 1%nat, 1%nat.
  split; [exact Hbe |]. repeat split; repeat constructor.
Defined.

Lemma scan_marks_row_maximizers_witness :
  getitem2 (active _ (__convergence_test sample_constant sample_collaborators
                        [1; 0] [[0]; [0]] [[0]; [0]] (two_units "prod" "vrs")).1)
    0 1 = inr 1.
Proof.
  refine (proj1 (proj2 (proj1 (scan_marks_row_maximizers sample_constant
            sample_collaborators (two_units "prod" "vrs")
            [1; 0] [[0]; [0]] [[0]; [0]] 0 1 _ _ _ _ _ _ _ _))) _).
  - vm_compute. reflexivity.
  - apply two_units_well_shaped; [reflexivity | repeat constructor].
  - apply (np_zeros_covers 2).
  - apply (np_zeros_covers 2).
  - apply (np_zeros_covers 2).
  - apply (np_zeros_covers 2).
  - vm_compute. lia.
  - vm_compute. lia.
  - exists 1. split; [vm_compute; reflexivity |]. split; [reflexivity |].
    intros [| [| j']] v' Hj' Hv'.
    + vm_compute in Hv'. injection Hv' as <-. discriminate.
    + vm_compute in Hv'. injection Hv' as <-. discriminate.
    + vm_compute in Hj'. lia.
Defined.

(** C4, counterexample.  With the fit [alpha = [0, 1]] the concavity scan
    returns 1; the head of the loop then holds without running the
    weak-disposability scan, whose score matrix would no longer be zero. *)
Lemma head_skips_weak_scan :
  ~ head_runs_both_scans sample_constant sample_collaborators
      (two_units_fitted [0; 1]).
Proof.
  intros H.
  pose (s := two_units_fitted [0; 1]).
  pose (r1 := __convergence_test sample_constant sample_collaborators
                [0; 1] [[0]; [0]] [[0]; [0]] s).
  pose (r2 := __convergence_test_weak sample_constant sample_collaborators
                [0; 1] [[0]; [0]] [[0]; [0]] r1.1).
  specialize (H [0; 1] [[0]; [0]] [[0]; [0]] r1.1 1 r2.1 0).
  assert (E : loop_test sample_constant sample_collaborators s
              = (r2.1, inr true)).
  { apply H; vm_compute; reflexivity. }
  vm_compute in E. discriminate E.
Qed.

(** C4, amended.  After a solve the head of the loop runs the concavity
    scan.  If its statistic exceeds 1e-4 the head holds at once, the
    weak-disposability scan is not run, and the turn goes on with the body
    (rebuild and solve).  Otherwise the weak-disposability scan is run on
    the instance the first scan left, and the turn goes on with the body if
    and only if the weak statistic exceeds 1e-4; if it does not, the loop
    is finished. *)
Theorem head_short_circuits (K : constant) (C : collaborators)
  (email solver : option string) (s s1 : self C) (al : vec) (be de : mat)
  (c : Q) :
  alpha C s = Some al -> beta C s = Some be -> delta C s = Some de ->
  __convergence_test K C al be de s = (s1, inr c) ->
  (0.0001 < c ->
   loop_test K C s = (s1, inr true) /\
   turn K C email solver s = (loop_body C email solver;; ret Again) s1) /\
  (~ 0.0001 < c ->
   forall s2 w,
     __convergence_test_weak K C al be de s1 = (s2, inr w) ->
     (0.0001 < w ->
      loop_test K C s = (s2, inr true) /\
      turn K C email solver s = (loop_body C email solver;; ret Again) s2) /\
     (~ 0.0001 < w ->
      loop_test K C s = (s2, inr false) /\
      turn K C email solver s = (s2, inr Finished))).
Proof.
  intros Hal Hbe Hde Hc.
  assert (Hattr : alpha C s1 = Some al /\ beta C s1 = Some be /\
                  delta C s1 = Some de).
  { unfold __convergence_test in Hc. cbv zeta in Hc.
    match type of Hc with
    | context [bind ?a ?k ?fr] => destruct (bind a k fr) as [fr' r]
    end.
    injection Hc as <- _. simpl. auto. }
  destruct Hattr as (Hal1 & Hbe1 & Hde1).
  assert (Hhead : loop_test K C s =
                  if Qlt_le_dec 0.0001 c then (s1, inr true)
                  else match __convergence_test_weak K C al be de s1 with
                       | (s2, inr w) =>
                           (s2, inr (if Qlt_le_dec 0.0001 w then true else false))
                       | (s2, inl e) => (s2, inl e)
                       end).
  { unfold loop_test, bind, attr. rewrite Hal, Hbe, Hde, Hc.
    destruct (Qlt_le_dec 0.0001 c); [reflexivity |].
    rewrite Hal1, Hbe1, Hde1.
    destruct (__convergence_test_weak K C al be de s1) as [s2 [e | w]];
      [reflexivity |].
    destruct (Qlt_le_dec 0.0001 w); reflexivity. }
  split.
  - intros Hgt. destruct (Qlt_le_dec 0.0001 c) as [_ | Hle]; [| lra].
    split; [exact Hhead |]. unfold turn, bind at 1. rewrite Hhead. reflexivity.
  - intros Hngt s2 w Hw. rewrite Hw in Hhead.
    destruct (Qlt_le_dec 0.0001 c) as [Hlt | _]; [contradiction |].
    split; intros Hcmp; (destruct (Qlt_le_dec 0.0001 w) as [Hlt | Hle];
      [| ]); try lra; try contradiction;
      (split; [exact Hhead |]); unfold turn, bind at 1; rewrite Hhead;
      reflexivity.
Qed.

Lemma head_short_circuits_witness :
  let s := two_units_fitted [0; 1] in
  let s1 := (__convergence_test sample_constant sample_collaborators
               [0; 1] [[0]; [0]] [[0]; [0]] s).1 in
  loop_test sample_constant sample_collaborators s = (s1, inr true).
Proof.
  intros s s1.
  refine (proj1 (proj1 (head_short_circuits sample_constant sample_collaborators
            None None s s1 [0; 1] [[0]; [0]] [[0]; [0]] 1 _ _ _ _) _)).
  - vm_compute. reflexivity.
  - vm_compute. reflexivity.
  - vm_compute. reflexivity.
  - vm_compute. reflexivity.
  - vm_compute. reflexivity.
Defined.

(** C2.  Whatever the arguments and whatever the collaborators do,
    [__init__] raises [TypeError] and returns no instance:
    [np.column_stack], which takes one positional parameter, is called with
    the two arguments [x] and [b].  The call is the first step of the
    constructor, so neither the sweet-spot preselection nor the data
    validation is reached.  The same function called with the one tuple
    [(x, b)] is entered. *)
Theorem init_always_raises (C : collaborators) (y0 x0 b0 : mat)
  (z0 : option mat) (cet0 fun0 rts0 : string) :
  __init__ C y0 x0 b0 z0 cet0 fun0 rts0 = inl TypeError /\
  (forall s, __init__ C y0 x0 b0 z0 cet0 fun0 rts0 <> inr s) /\
  call1 (column_stack C) [Array x0; Array b0] = inl TypeError /\
  call1 (column_stack C) [Tuple [x0; b0]] = column_stack C (Tuple [x0; b0]).
Proof.
  assert (H : __init__ C y0 x0 b0 z0 cet0 fun0 rts0 = inl TypeError).
  { unfold __init__, call1, rbind. reflexivity. }
  split; [exact H |]. split; [| split; reflexivity].
  intros s Hs. rewrite H in Hs. discriminate Hs.
Qed.

(** C8.  On an instance whose status flag is 0, each of the six accessors
    raises the not-yet-solved error and leaves the instance as it is.  The
    flag is 0 on the attributes the constructor sets, and it is still what
    it was after an [optimize] that ended in an exception. *)
Theorem accessors_need_optimize (K : constant) (C : collaborators) (s : self C) :
  optimization_status C s = O ->
  (get_alpha C s = (s, inl NotOptimized) /\
   get_beta C s = (s, inl NotOptimized) /\
   get_delta C s = (s, inl NotOptimized) /\
   get_residual C s = (s, inl NotOptimized) /\
   get_lamda C s = (s, inl NotOptimized) /\
   get_frontier K C s = (s, inl NotOptimized)) /\
  (forall fuel email solver s' e,
     optimize K C fuel email solver s = Some (s', inl e) ->
     get_alpha C s' = (s', inl NotOptimized) /\
     get_beta C s' = (s', inl NotOptimized) /\
     get_delta C s' = (s', inl NotOptimized) /\
     get_residual C s' = (s', inl NotOptimized) /\
     get_lamda C s' = (s', inl NotOptimized) /\
     get_frontier K C s' = (s', inl NotOptimized)).
Proof.
  assert (H6 : forall s0 : self C, optimization_status C s0 = O ->
    get_alpha C s0 = (s0, inl NotOptimized) /\
    get_beta C s0 = (s0, inl NotOptimized) /\
    get_delta C s0 = (s0, inl NotOptimized) /\
    get_residual C s0 = (s0, inl NotOptimized) /\
    get_lamda C s0 = (s0, inl NotOptimized) /\
    get_frontier K C s0 = (s0, inl NotOptimized)).
  { intros s0 H0.
    unfold get_alpha, get_beta, get_delta, get_residual, get_lamda,
      get_frontier, reader, bind.
    rewrite H0. simpl. repeat split; reflexivity. }
  intros H0. split; [apply H6, H0 |].
  intros fuel email solver s' e Hopt. apply H6.
  rewrite (status_failed_optimize K C fuel email solver s s' e Hopt). exact H0.
Qed.

Lemma accessors_need_optimize_witness :
  get_alpha sample_collaborators (two_units "prod" "vrs")
  = (two_units "prod" "vrs", inl NotOptimized).
Proof.
  apply (proj1 (accessors_need_optimize sample_constant sample_collaborators
                  (two_units "prod" "vrs") eq_refl)).
Defined.

End Claims_weakCNLSG.

(** * The claims about [weakCNLSxG1] *)

Section Claims_weakCNLSxG1.

Import weakCNLSxG1.

(** Once the first rows of [y] and [b] have been measured, the constructor
    declares the sets, the variables and the objective, and goes on to the
    constraints. *)
Lemma build_declares (K : constant) (C : collaborators) (y0 x0 b0 cut : mat)
  (cet0 fun0 rts0 : string) (wy wb : nat) :
  width y0 = inr wy -> width b0 = inr wb ->
  build K C y0 x0 b0 cut cet0 fun0 rts0 empty_model
  = constrain K C y0 x0 b0 cut cet0 fun0 rts0 (seq 0 wy) (seq 0 wb)
      {| components := declared (length x0) wy wb; values := [] |}.
Proof.
  intros Hy Hb. unfold build, bind, lift, add_component. rewrite Hy, Hb.
  reflexivity.
Qed.

Lemma init_of_build (K : constant) (C : collaborators) (y0 x0 b0 cut : mat)
  (cet0 fun0 rts0 : string) (m : ConcreteModel) (e : exn) :
  build K C y0 x0 b0 cut cet0 fun0 rts0 empty_model = (m, inl e) ->
  __init__ K C y0 x0 b0 cut cet0 fun0 rts0 = (m, inl e).
Proof. intros H. unfold __init__. rewrite H. reflexivity. Qed.




(** C6.  The claim asks for one weak-disposability constraint per unit,
    relating the undesirable-output coefficients of the next unit to the
    unit's own inputs.  The constructor declares the constraint over pairs
    of units while the rule it passes takes one unit (the Afriat rule, a
    rule of one unit too, is declared over [I]): on two units the first
    call raises [TypeError] and the constraint is left on the model
    without a row.  And what the rule builds for a unit holds the
    intercept [alpha] of the next unit and the bare sum of the unit's
    data, no coefficient [delta]; under constant returns to scale it
    holds data alone and is a truth value, not a relation. *)
Theorem disposability_constraint_has_no_row :
  let x0 := [[1]; [2]] in
  let run := __init__ sample_constant sample_solver [[1]; [1]] x0 [[1]; [1]]
               [[0; 0]; [0; 0]] "addi" "prod" "vrs" in
  run.2 = inl TypeError /\
  last (components run.1) = Some ("disposability_rule", CConstraint []) /\
  (let? r := __disposability_rule sample_constant x0 "vrs" [O] 2 in
   call_rule r [1%nat])
  = inr (Rel (Ge (Add (Var1 "alpha" 0) (Num 2)) (Num 0))) /\
  (let? r := __disposability_rule sample_constant x0 "crs" [O] 2 in
   call_rule r [1%nat])
  = inr (Truth true).
Proof. vm_compute. repeat split; reflexivity. Qed.





End Claims_weakCNLSxG1.

(** * Further properties of [weakCNLSG] *)

(** ** The scans keep the shapes of the matrices *)

Lemma setitem2_shape (m m' : mat) (i j : nat) (v : Q) :
  setitem2 m i j v = inr m' -> shape m' = shape m.
Proof.
  unfold setitem2, shape. intros H.
  destruct (m !! i) as [r |] eqn:Hr; [| discriminate].
  destruct (decide (j < length r)%nat); [| discriminate].
  injection H as <-.
  rewrite list_fmap_insert, length_insert.
  apply list_insert_id. rewrite list_lookup_fmap, Hr. reflexivity.
Qed.

Lemma covers_shape (n : nat) (m m' : mat) :
  shape m' = shape m -> covers n m -> covers n m'.
Proof.
  unfold shape. intros Hs Hc i j Hi Hj.
  destruct (Hc i j Hi Hj) as [v Hv]. unfold getitem2, getitem in *.
  destruct (m !! i) as [r |] eqn:Hr; [| discriminate].
  destruct (r !! j) as [q |] eqn:Hq; [| discriminate].
  assert (Hl : map length m' !! i = Some (length r))
    by (rewrite Hs, list_lookup_fmap, Hr; reflexivity).
  rewrite list_lookup_fmap in Hl.
  destruct (m' !! i) as [r' |]; [| discriminate]. injection Hl as Hl.
  apply lookup_lt_Some in Hq.
  destruct (lookup_lt_is_Some_2 r' j) as [q' ->]; [lia |].
  eexists. reflexivity.
Qed.

#[local] Instance frame_shape_preorder : PreOrder frame_shape.
Proof.
  split.
  - intros fr. split; reflexivity.
  - intros f1 f2 f3 [H1 H2] [H3 H4]. split; congruence.
Qed.

Lemma shape_scan (score : nat -> nat -> result Q) (n : nat) :
  keeps frame_shape (scan score n;; read_activetmp).
Proof.
  assert (Hsv : forall i j v, keeps frame_shape (store_viol i j v)).
  { intros i j v fr. unfold store_viol.
    destruct (setitem2 (viol fr) i j v) eqn:H; simpl; [reflexivity |].
    split; [eapply setitem2_shape; eassumption | reflexivity]. }
  assert (Hsa : forall i j v, keeps frame_shape (store_act i j v)).
  { intros i j v fr. unfold store_act.
    destruct (setitem2 (act fr) i j v) eqn:H; simpl; [reflexivity |].
    split; [reflexivity | eapply setitem2_shape; eassumption]. }
  assert (Hrd : keeps frame_shape read_activetmp).
  { intros fr. unfold read_activetmp. destruct (activetmp fr); reflexivity. }
  assert (Hst : forall t, keeps frame_shape (set_activetmp t))
    by (intros t fr; split; reflexivity).
  assert (Hst1 : forall t, keeps frame_shape (set_activetmp1 t))
    by (intros t fr; split; reflexivity).
  assert (Hr1 : keeps frame_shape read_activetmp1)
    by (intros fr; split; reflexivity).
  assert (Hlv : forall i j, keeps frame_shape (load_viol i j))
    by (intros i j fr; split; reflexivity).
  unfold scan, scan_row, find_violation, add_active.
  repeat first
    [ apply keeps_bind; [exact _ | | intros ?]
    | apply keeps_for_range; [exact _ | intros ?]
    | apply keeps_ret; exact _
    | apply keeps_lift; exact _
    | solve [auto]
    | match goal with |- keeps _ (if ?c then _ else _) => destruct c end ].
Qed.

Section Shapes.

Import weakCNLSG.

Context (K : constant) (C : collaborators).

#[local] Instance self_shape_preorder : PreOrder (self_shape C).
Proof.
  split.
  - intros s. repeat split; reflexivity.
  - intros s1 s2 s3 (A1 & A2 & A3 & A4) (B1 & B2 & B3 & B4).
    repeat split; congruence.
Qed.

Lemma shape_branches (s : self C) (vp vc cp cc : nat -> nat -> result Q) :
  keeps frame_shape (branches K C s vp vc cp cc;; read_activetmp).
Proof.
  rewrite branches_pick.
  destruct (pick K (rts C s) (fun_ C s) vp vc cp cc).
  - apply shape_scan.
  - intros fr. unfold bind, ret, read_activetmp.
    destruct (activetmp fr); reflexivity.
Qed.

Lemma shape_convergence_test (al : vec) (be de : mat) :
  keeps (self_shape C) (__convergence_test K C al be de).
Proof.
  intros s. unfold __convergence_test. cbv zeta.
  match goal with
  | |- context [bind (branches K C s ?vp ?vc ?cp ?cc) ?k ?fr] =>
      pose proof (shape_branches s vp vc cp cc fr) as H;
      destruct (bind (branches K C s vp vc cp cc) k fr) as [fr' r]
  end.
  destruct H as [H1 H2]. simpl in *. repeat split; assumption.
Qed.

Lemma shape_convergence_test_weak (al : vec) (be de : mat) :
  keeps (self_shape C) (__convergence_test_weak K C al be de).
Proof.
  intros s. unfold __convergence_test_weak. cbv zeta.
  match goal with
  | |- context [bind (branches K C s ?vp ?vc ?cp ?cc) ?k ?fr] =>
      pose proof (shape_branches s vp vc cp cc fr) as H;
      destruct (bind (branches K C s vp vc cp cc) k fr) as [fr' r]
  end.
  destruct H as [H1 H2]. simpl in *. repeat split; assumption.
Qed.

Lemma shape_with_fit (f : self C -> self C * result unit) :
  (forall s, exists al be de m c st, f s = (with_fit C s al be de m c st, inr tt)) ->
  keeps (self_shape C) f.
Proof.
  intros H s. destruct (H s) as (al & be & de & m & c & st & ->).
  simpl. repeat split; reflexivity.
Qed.

Lemma shape_attr {A : Type} (f : self C -> option A) :
  keeps (self_shape C) (attr C f).
Proof. intros s. unfold attr. destruct (f s); simpl; reflexivity. Qed.

Lemma shape_pure {A : Type} (f : self C -> result A) :
  keeps (self_shape C) (fun s => (s, f s)).
Proof. intros s. simpl. reflexivity. Qed.

#[local] Hint Resolve shape_convergence_test shape_convergence_test_weak
  shape_attr : keeps_db.

Ltac shape_step :=
  first
    [ keeps_step
    | apply shape_pure
    | apply shape_with_fit; intros ?; repeat eexists ].

Lemma shape_turn (email solver : option string) :
  keeps (self_shape C) (turn K C email solver).
Proof. unfold turn, loop_test, loop_body. repeat shape_step. Qed.

(** X1.  Whatever the fit returned by the solves and however a turn ends,
    after any number of turns of the outer loop the four instance matrices
    ([active], [active2], [activeweak], [activeweak2]) have the row lengths
    they had before: the scans only overwrite existing entries.  In
    particular matrices that hold every entry [(i, j)], [i, j < n], still
    do. *)
Theorem turns_keep_shapes (email solver : option string) (s : self C)
  (t n : nat) :
  let s' := (turns K C email solver t s).1 in
  self_shape C s s' /\
  (covers n (active C s) -> covers n (active C s')) /\
  (covers n (active2 C s) -> covers n (active2 C s')) /\
  (covers n (activeweak C s) -> covers n (activeweak C s')) /\
  (covers n (activeweak2 C s) -> covers n (activeweak2 C s')).
Proof.
  intros s'.
  assert (H : self_shape C s s').
  { subst s'. induction t as [| t IH]; [reflexivity |].
    simpl. destruct (turns K C email solver t s) as [s1 [e | [|]]]; simpl in *;
      try exact IH.
    etransitivity; [exact IH | apply shape_turn]. }
  split; [exact H |]. destruct H as (H1 & H2 & H3 & H4).
  repeat split; apply covers_shape; assumption.
Qed.

End Shapes.

Lemma turns_keep_shapes_witness :
  covers 2 (weakCNLSG.active _
              (weakCNLSG.turns sample_constant sample_collaborators None None 2
                 (two_units_fitted [0; 1])).1).
Proof.
  apply (proj1 (proj2 (turns_keep_shapes sample_constant sample_collaborators
                         None None (two_units_fitted [0; 1]) 2 2))).
  apply (np_zeros_covers 2).
Defined.

(** ** What the scans return *)

Section ScanFacts.

Import weakCNLSG.

Context (K : constant) (C : collaborators).

Lemma convergence_test_frame (al : vec) (be de : mat) (s : self C)
  (fr' : frame) (r : result Q) :
  (branches K C s
     (score_vrs_prod al be de (x C s) (b C s))
     (score_vrs_cost al be de (x C s) (b C s))
     (score_crs_prod be de (x C s) (b C s))
     (score_crs_cost be de (x C s) (b C s));; read_activetmp)
    (enter (active2 C s) (active C s)) = (fr', r) ->
  __convergence_test K C al be de s = (with_active C s (viol fr') (act fr'), r).
Proof. intros H. unfold __convergence_test. cbv zeta. rewrite H. reflexivity. Qed.

Lemma convergence_test_weak_frame (al : vec) (be de : mat) (s : self C)
  (fr' : frame) (r : result Q) :
  (branches K C s
     (weak_vrs_prod al be (x C s))
     (weak_vrs_cost al be (x C s))
     (weak_crs_prod be (x C s))
     (weak_crs_cost be (x C s));; read_activetmp)
    (enter (activeweak2 C s) (activeweak C s)) = (fr', r) ->
  __convergence_test_weak K C al be de s
  = (with_activeweak C s (viol fr') (act fr'), r).
Proof. intros H. unfold __convergence_test_weak. cbv zeta. rewrite H. reflexivity. Qed.

(** The value the loops leave in [activetmp], in terms of the stored
    scores of the last row. *)
Lemma branches_value (s : self C) (vp vc cp cc : nat -> nat -> result Q)
  (fr : frame) (k : nat) :
  let n := Datatypes.S k in
  length (x C s) = n ->
  recognized K (rts C s) (fun_ C s) = true ->
  (forall i j, (i < n)%nat -> (j < n)%nat ->
     (exists v, vp i j = inr v) /\ (exists v, vc i j = inr v) /\
     (exists v, cp i j = inr v) /\ (exists v, cc i j = inr v)) ->
  covers n (viol fr) -> covers n (act fr) ->
  exists fr' t,
    (branches K C s vp vc cp cc;; read_activetmp) fr = (fr', inr t) /\
    0 <= t /\
    (forall j v, (j < n)%nat -> getitem2 (viol fr') k j = inr v -> v <= t) /\
    (0 < t -> exists j, (j < n)%nat /\ getitem2 (viol fr') k j = inr t).
Proof.
  intros n Hlen Hrec Hok Hcv Hca. rewrite branches_pick, Hlen.
  assert (Hsel : exists score,
             pick K (rts C s) (fun_ C s) vp vc cp cc = Some score /\
             (score = vp \/ score = vc \/ score = cp \/ score = cc)).
  { revert Hrec. unfold recognized, pick.
    repeat case_regime;
      intros H; try discriminate H; eexists; split; try reflexivity; tauto. }
  destruct Hsel as (score & -> & Hcase).
  assert (Hsc : forall i j, (i < n)%nat -> (j < n)%nat ->
                            exists v, score i j = inr v).
  { intros i j Hi Hj. destruct (Hok i j Hi Hj) as (H1 & H2 & H3 & H4).
    destruct Hcase as [-> | [-> | [-> | ->]]]; assumption. }
  destruct (scan_returns_last_row score k fr Hsc Hcv Hca)
    as (fr' & t & Hrun & H0 & Hle & Hex).
  destruct (scan_marks score n fr Hsc Hcv Hca) as (fr2 & r2 & Hrun2 & Hst).
  fold n in Hrun. rewrite Hrun in Hrun2. injection Hrun2 as <- <-.
  assert (Hval : forall j, (j < n)%nat ->
                           getitem2 (viol fr') k j = inr (value (score k j))).
  { intros j Hj. destruct (Hst k j) as (Hv & _); [unfold n; lia | exact Hj |].
    rewrite Hv. destruct (Hsc k j) as [v ->]; [unfold n; lia | exact Hj |].
    reflexivity. }
  exists fr', t. split; [exact Hrun |]. split; [exact H0 |]. split.
  - intros j v Hj Hv. rewrite Hval in Hv by exact Hj. injection Hv as <-.
    apply Hle, Hj.
  - intros Hpos. destruct (Hex Hpos) as (j & Hj & Ht).
    exists j. split; [exact Hj |]. rewrite Hval by exact Hj. rewrite Ht.
    reflexivity.
Qed.

(** X2.  In a recognized regime, with at least one unit and a fit of the
    right shape, each scan returns a value: it is never negative, it
    bounds every score stored for the last unit, and when it is positive
    it is one of those scores.  So the returned statistic is the largest
    score of the last row when that is positive, and 0 otherwise. *)
Theorem scans_return_last_row_maximum (s : self C) (al : vec) (be de : mat)
  (k : nat) :
  let n := Datatypes.S k in
  length (x C s) = n ->
  recognized K (rts C s) (fun_ C s) = true ->
  well_shaped n al be de (x C s) (b C s) ->
  covers n (active2 C s) -> covers n (active C s) ->
  covers n (activeweak2 C s) -> covers n (activeweak C s) ->
  (exists s1 t,
     __convergence_test K C al be de s = (s1, inr t) /\ 0 <= t /\
     (forall j v, (j < n)%nat -> getitem2 (active2 C s1) k j = inr v -> v <= t) /\
     (0 < t -> exists j, (j < n)%nat /\ getitem2 (active2 C s1) k j = inr t)) /\
  (exists s2 t,
     __convergence_test_weak K C al be de s = (s2, inr t) /\ 0 <= t /\
     (forall j v, (j < n)%nat -> getitem2 (activeweak2 C s2) k j = inr v -> v <= t) /\
     (0 < t -> exists j, (j < n)%nat /\ getitem2 (activeweak2 C s2) k j = inr t)).
Proof.
  intros n Hlen Hrec Hshape Hc1 Hc2 Hc3 Hc4.
  split.
  - destruct (branches_value s
                (score_vrs_prod al be de (x C s) (b C s))
                (score_vrs_cost al be de (x C s) (b C s))
                (score_crs_prod be de (x C s) (b C s))
                (score_crs_cost be de (x C s) (b C s))
                (enter (active2 C s) (active C s)) k Hlen Hrec)
      as (fr' & t & Hrun & H0 & Hle & Hex); try assumption.
    { intros i' j' Hi' Hj'.
      destruct (scores_ok n al be de (x C s) (b C s) Hshape i' j' Hi' Hj')
        as (H1 & H2 & H3 & H4 & _). repeat split; assumption. }
    eexists _, t. split; [apply convergence_test_frame, Hrun |].
    simpl. split; [exact H0 |]. split; assumption.
  - destruct (branches_value s
                (weak_vrs_prod al be (x C s))
                (weak_vrs_cost al be (x C s))
                (weak_crs_prod be (x C s))
                (weak_crs_cost be (x C s))
                (enter (activeweak2 C s) (activeweak C s)) k Hlen Hrec)
      as (fr' & t & Hrun & H0 & Hle & Hex); try assumption.
    { intros i' j' Hi' Hj'.
      destruct (scores_ok n al be de (x C s) (b C s) Hshape i' j' Hi' Hj')
        as (_ & _ & _ & _ & H1 & H2 & H3 & H4). repeat split; assumption. }
    eexists _, t. split; [apply convergence_test_weak_frame, Hrun |].
    simpl. split; [exact H0 |]. split; assumption.
Qed.

(** X3.  With no unit ([x] empty) both scans raise the unbound-local
    error, in every regime, and leave the instance as it was: the outer
    [for] never runs, so [activetmp] is never bound. *)
Theorem scans_unbound_without_units (s : self C) (al : vec) (be de : mat) :
  x C s = [] ->
  __convergence_test K C al be de s = (s, inl UnboundLocalError) /\
  __convergence_test_weak K C al be de s = (s, inl UnboundLocalError).
Proof.
  intros Hx. unfold __convergence_test, __convergence_test_weak. cbv zeta.
  rewrite !branches_pick, Hx. simpl.
  split.
  - destruct (pick K (rts C s) (fun_ C s) _ _ _ _); destruct s; reflexivity.
  - destruct (pick K (rts C s) (fun_ C s) _ _ _ _); destruct s; reflexivity.
Qed.

End ScanFacts.

Lemma scans_return_last_row_maximum_witness :
  exists s1 t,
    weakCNLSG.__convergence_test sample_constant sample_collaborators
      [0; 1] [[0]; [0]] [[0]; [0]] (two_units "prod" "vrs") = (s1, inr t) /\
    0 <= t /\
    (forall j v, (j < 2)%nat ->
       getitem2 (weakCNLSG.active2 _ s1) 1 j = inr v -> v <= t) /\
    (0 < t -> exists j, (j < 2)%nat /\
                        getitem2 (weakCNLSG.active2 _ s1) 1 j = inr t).
Proof.
  refine (proj1 (scans_return_last_row_maximum sample_constant
            sample_collaborators (two_units "prod" "vrs")
            [0; 1] [[0]; [0]] [[0]; [0]] 1 _ _ _ _ _ _ _)).
  - reflexivity.
  - vm_compute. reflexivity.
  - apply two_units_well_shaped; [reflexivity | repeat constructor].
  - apply (np_zeros_covers 2).
  - apply (np_zeros_covers 2).
  - apply (np_zeros_covers 2).
  - apply (np_zeros_covers 2).
Defined.

Lemma scans_unbound_without_units_witness :
  weakCNLSG.__convergence_test sample_constant sample_collaborators [] [] []
    (weakCNLSG.fresh sample_collaborators [] [] [] [] None "addi" "prod" "vrs" 0)
  = (weakCNLSG.fresh sample_collaborators [] [] [] [] None "addi" "prod" "vrs" 0,
     inl UnboundLocalError).
Proof.
  apply (proj1 (scans_unbound_without_units sample_constant sample_collaborators
                  (weakCNLSG.fresh sample_collaborators [] [] [] [] None
                     "addi" "prod" "vrs" 0) [] [] [] eq_refl)).
Defined.

(** ** Scanning twice with the same fit *)

Lemma row_top_decidable (m : mat) (n i j : nat) :
  row_top m n i j \/ ~ row_top m n i j.
Proof.
  unfold row_top.
  destruct (getitem2 m i j) as [e | v] eqn:Hv.
  { right. intros (v & H & _). discriminate H. }
  destruct (Qlt_le_dec 0 v) as [Hpos | Hnpos].
  2: { right. intros (v0 & H & Hp & _). injection H as <-. lra. }
  assert (Hall : (forall j' v', (j' < n)%nat -> getitem2 m i j' = inr v' -> v' <= v)
                 \/ ~ (forall j' v', (j' < n)%nat -> getitem2 m i j' = inr v' ->
                                     v' <= v)).
  { clear Hv. induction n as [| n IH].
    - left. intros j' v' Hj'. lia.
    - destruct IH as [IH | IH].
      + destruct (getitem2 m i n) as [e | w] eqn:Hw.
        * left. intros j' v' Hj' H'.
          destruct (decide (j' = n)) as [-> | ?]; [congruence |].
          apply (IH j'); [lia | exact H'].
        * destruct (Qlt_le_dec v w) as [Hlt | Hle].
          -- right. intros H. specialize (H n w ltac:(lia) Hw). lra.
          -- left. intros j' v' Hj' H'.
             destruct (decide (j' = n)) as [-> | ?].
             ++ rewrite Hw in H'. injection H' as <-. exact Hle.
             ++ apply (IH j'); [lia | exact H'].
      + right. intros H. apply IH. intros j' v' Hj'. apply H. lia. }
  destruct Hall as [Hall | Hall].
  - left. exists v. split; [reflexivity |]. split; assumption.
  - right. intros (v0 & H & _ & Hmax). injection H as <-. contradiction.
Qed.

Lemma row_top_same_scores (m m' : mat) (n i j : nat) :
  (j < n)%nat ->
  (forall j', (j' < n)%nat -> getitem2 m' i j' = getitem2 m i j') ->
  row_top m n i j -> row_top m' n i j.
Proof.
  intros Hj Heq (v & Hv & Hpos & Hmax).
  exists v. split; [rewrite Heq by exact Hj; exact Hv |].
  split; [exact Hpos |].
  intros j' v' Hj' Hv'. rewrite Heq in Hv' by exact Hj'. eapply Hmax; eassumption.
Qed.

Section ScanTwice.

Import weakCNLSG.

Context (K : constant) (C : collaborators).

(** The loops of a scan, run again on the frame they left, leave every
    entry as it is. *)
Lemma branches_twice (s s1 : self C) (vp vc cp cc : nat -> nat -> result Q)
  (fr0 : frame) :
  let n := length (x C s) in
  let run := branches K C s vp vc cp cc;; read_activetmp in
  let run1 := branches K C s1 vp vc cp cc;; read_activetmp in
  x C s1 = x C s -> rts C s1 = rts C s -> fun_ C s1 = fun_ C s ->
  recognized K (rts C s) (fun_ C s) = true ->
  (forall i j, (i < n)%nat -> (j < n)%nat ->
     (exists v, vp i j = inr v) /\ (exists v, vc i j = inr v) /\
     (exists v, cp i j = inr v) /\ (exists v, cc i j = inr v)) ->
  covers n (viol fr0) -> covers n (act fr0) ->
  forall i j, (i < n)%nat -> (j < n)%nat ->
    let fr1 := (run fr0).1 in
    let fr2 := (run1 (enter (viol fr1) (act fr1))).1 in
    getitem2 (viol fr2) i j = getitem2 (viol fr1) i j /\
    getitem2 (act fr2) i j = getitem2 (act fr1) i j.
Proof.
  intros n run run1 Hx Hr Hf Hrec Hok Hcv Hca i j Hi Hj fr1 fr2.
  destruct (branches_marks K C s vp vc cp cc fr0 Hrec Hok Hcv Hca)
    as (f1 & r1 & Hrun1 & Hpost1).
  pose proof (shape_branches K C s vp vc cp cc fr0) as [Hs1 Hs2].
  subst fr2 fr1 run run1. rewrite Hrun1 in *. simpl in *.
  assert (Hcv1 : covers n (viol f1)) by (eapply covers_shape; eassumption).
  assert (Hca1 : covers n (act f1)) by (eapply covers_shape; eassumption).
  destruct (branches_marks K C s1 vp vc cp cc (enter (viol f1) (act f1)))
    as (f2 & r2 & Hrun2 & Hpost2);
    try (rewrite ?Hx, ?Hr, ?Hf; assumption).
  rewrite Hrun2. simpl.
  rewrite Hx, Hr, Hf in Hpost2. fold n in Hpost2. simpl in Hpost2.
  assert (Hsame : forall j', (j' < n)%nat ->
                             getitem2 (viol f2) i j' = getitem2 (viol f1) i j').
  { intros j' Hj'. destruct (Hpost1 i j' Hi Hj') as (H1 & _).
    destruct (Hpost2 i j' Hi Hj') as (H2 & _). congruence. }
  split; [apply Hsame, Hj |].
  destruct (Hpost2 i j Hi Hj) as (_ & Hone2 & Hkeep2).
  destruct (row_top_decidable (viol f2) n i j) as [Ht | Ht].
  - rewrite (Hone2 Ht). symmetry.
    destruct (Hpost1 i j Hi Hj) as (_ & Hone1 & _). apply Hone1.
    eapply row_top_same_scores; [exact Hj | | exact Ht].
    intros j' Hj'. symmetry. apply Hsame, Hj'.
  - apply (Hkeep2 Ht).
Qed.

(** X5.  Scanning a second time with the same fit changes nothing: in a
    recognized regime and on a fit of the right shape, every entry of the
    score matrix and of the activation matrix is after two scans what it
    is after one.  This holds for the concavity scan and for the
    weak-disposability scan. *)
Theorem scans_are_idempotent (s : self C) (al : vec) (be de : mat) (i j : nat) :
  let n := length (x C s) in
  let s1 := (__convergence_test K C al be de s).1 in
  let s2 := (__convergence_test K C al be de s1).1 in
  let w1 := (__convergence_test_weak K C al be de s).1 in
  let w2 := (__convergence_test_weak K C al be de w1).1 in
  recognized K (rts C s) (fun_ C s) = true ->
  well_shaped n al be de (x C s) (b C s) ->
  covers n (active2 C s) -> covers n (active C s) ->
  covers n (activeweak2 C s) -> covers n (activeweak C s) ->
  (i < n)%nat -> (j < n)%nat ->
  (getitem2 (active2 C s2) i j = getitem2 (active2 C s1) i j /\
   getitem2 (active C s2) i j = getitem2 (active C s1) i j) /\
  (getitem2 (activeweak2 C w2) i j = getitem2 (activeweak2 C w1) i j /\
   getitem2 (activeweak C w2) i j = getitem2 (activeweak C w1) i j).
Proof.
  intros n s1 s2 w1 w2 Hrec Hshape Hc1 Hc2 Hc3 Hc4 Hi Hj.
  assert (Hok : forall i' j', (i' < n)%nat -> (j' < n)%nat -> _) by
    (intros i' j' Hi' Hj';
     exact (scores_ok n al be de (x C s) (b C s) Hshape i' j' Hi' Hj')).
  split.
  - destruct ((branches K C s
                 (score_vrs_prod al be de (x C s) (b C s))
                 (score_vrs_cost al be de (x C s) (b C s))
                 (score_crs_prod be de (x C s) (b C s))
                 (score_crs_cost be de (x C s) (b C s));; read_activetmp)
                (enter (active2 C s) (active C s))) as [f1 r1] eqn:Hrun1.
    subst s2 s1. rewrite (convergence_test_frame K C al be de s f1 r1 Hrun1).
    cbn [fst].
    set (s' := with_active C s (viol f1) (act f1)).
    destruct ((branches K C s'
                 (score_vrs_prod al be de (x C s') (b C s'))
                 (score_vrs_cost al be de (x C s') (b C s'))
                 (score_crs_prod be de (x C s') (b C s'))
                 (score_crs_cost be de (x C s') (b C s'));; read_activetmp)
                (enter (active2 C s') (active C s'))) as [f2 r2] eqn:Hrun2.
    rewrite (convergence_test_frame K C al be de s' f2 r2 Hrun2). cbn [fst].
    pose proof (branches_twice s s'
                  (score_vrs_prod al be de (x C s) (b C s))
                  (score_vrs_cost al be de (x C s) (b C s))
                  (score_crs_prod be de (x C s) (b C s))
                  (score_crs_cost be de (x C s) (b C s))
                  (enter (active2 C s) (active C s))
                  eq_refl eq_refl eq_refl Hrec) as H.
    cbv zeta in H. fold n in H.
    specialize (H ltac:(intros i' j' Hi' Hj';
                        destruct (Hok i' j' Hi' Hj') as (H1 & H2 & H3 & H4 & _);
                        repeat split; assumption) Hc1 Hc2 i j Hi Hj).
    rewrite Hrun1 in H. cbn [fst] in H.
    assert (Hrun2' :
              (branches K C s'
                 (score_vrs_prod al be de (x C s) (b C s))
                 (score_vrs_cost al be de (x C s) (b C s))
                 (score_crs_prod be de (x C s) (b C s))
                 (score_crs_cost be de (x C s) (b C s));; read_activetmp)
                (enter (viol f1) (act f1)) = (f2, r2)) by exact Hrun2.
    rewrite Hrun2' in H. exact H.
  - destruct ((branches K C s
                 (weak_vrs_prod al be (x C s))
                 (weak_vrs_cost al be (x C s))
                 (weak_crs_prod be (x C s))
                 (weak_crs_cost be (x C s));; read_activetmp)
                (enter (activeweak2 C s) (activeweak C s))) as [f1 r1] eqn:Hrun1.
    subst w2 w1. rewrite (convergence_test_weak_frame K C al be de s f1 r1 Hrun1).
    cbn [fst].
    set (s' := with_activeweak C s (viol f1) (act f1)).
    destruct ((branches K C s'
                 (weak_vrs_prod al be (x C s'))
                 (weak_vrs_cost al be (x C s'))
                 (weak_crs_prod be (x C s'))
                 (weak_crs_cost be (x C s'));; read_activetmp)
                (enter (activeweak2 C s') (activeweak C s'))) as [f2 r2] eqn:Hrun2.
    rewrite (convergence_test_weak_frame K C al be de s' f2 r2 Hrun2). cbn [fst].
    pose proof (branches_twice s s'
                  (weak_vrs_prod al be (x C s))
                  (weak_vrs_cost al be (x C s))
                  (weak_crs_prod be (x C s))
                  (weak_crs_cost be (x C s))
                  (enter (activeweak2 C s) (activeweak C s))
                  eq_refl eq_refl eq_refl Hrec) as H.
    cbv zeta in H. fold n in H.
    specialize (H ltac:(intros i' j' Hi' Hj';
                        destruct (Hok i' j' Hi' Hj')
                          as (_ & _ & _ & _ & H1 & H2 & H3 & H4);
                        repeat split; assumption) Hc3 Hc4 i j Hi Hj).
    rewrite Hrun1 in H. cbn [fst] in H.
    assert (Hrun2' :
              (branches K C s'
                 (weak_vrs_prod al be (x C s))
                 (weak_vrs_cost al be (x C s))
                 (weak_crs_prod be (x C s))
                 (weak_crs_cost be (x C s));; read_activetmp)
                (enter (viol f1) (act f1)) = (f2, r2)) by exact Hrun2.
    rewrite Hrun2' in H. exact H.
Qed.

End ScanTwice.

Lemma scans_are_idempotent_witness :
  let s1 := (weakCNLSG.__convergence_test sample_constant sample_collaborators
               [1; 0] [[0]; [0]] [[0]; [0]] (two_units "prod" "vrs")).1 in
  let s2 := (weakCNLSG.__convergence_test sample_constant sample_collaborators
               [1; 0] [[0]; [0]] [[0]; [0]] s1).1 in
  getitem2 (weakCNLSG.active _ s2) 0 1 = getitem2 (weakCNLSG.active _ s1) 0 1.
Proof.
  refine (proj2 (proj1 (scans_are_idempotent sample_constant sample_collaborators
            (two_units "prod" "vrs") [1; 0] [[0]; [0]] [[0]; [0]] 0 1
            _ _ _ _ _ _ _ _))).
  - vm_compute. reflexivity.
  - apply two_units_well_shaped; [reflexivity | repeat constructor].
  - apply (np_zeros_covers 2).
  - apply (np_zeros_covers 2).
  - apply (np_zeros_covers 2).
  - apply (np_zeros_covers 2).
  - vm_compute. lia.
  - vm_compute. lia.
Defined.

(** ** The run of [optimize] *)

Section Run.

Import weakCNLSG.

Context (K : constant) (C : collaborators).

(** A first pass that returns has stored a fit and a model, and nothing
    else. *)
Lemma first_pass_returns (email solver : option string) (s s1 : self C) :
  (first_pass C email solver;; set_count C 0) s = (s1, inr tt) ->
  exists a be de m,
    s1 = with_fit C s (Some a) (Some be) (Some de) (Some m) (Some O)
           (optimization_status C s).
Proof.
  unfold first_pass, bind, on_local, set_alpha, set_beta, set_delta, set_model,
    set_count.
  destruct (match z C s with Some zz => _ | None => _ end) as [e | m0];
    [discriminate |].
  destruct (inner_optimize C email solver m0) as [m1 [e | u]]; [discriminate |].
  destruct (inner_get_alpha C m1) as [m2 [e | a]]; [discriminate |].
  destruct (inner_get_beta C m2) as [m3 [e | be]]; [discriminate |].
  destruct (inner_get_delta C m3) as [m4 [e | de]]; [discriminate |].
  intros H. injection H as <-. exists a, be, de, (inner_model C m4). reflexivity.
Qed.

(** A loop body that returns has stored a new fit and a new model and has
    added one to the counter. *)
Lemma loop_body_returns (email solver : option string) (s s' : self C) :
  loop_body C email solver s = (s', inr tt) ->
  exists a be de m c,
    count C s = Some c /\
    s' = with_fit C s (Some a) (Some be) (Some de) (Some m)
           (Some (c + 1)%nat) (optimization_status C s).
Proof.
  unfold loop_body, bind, on_local, set_alpha, set_beta, set_delta, set_model,
    set_count, attr.
  destruct (match z C s with Some zz => _ | None => _ end) as [e | m0];
    [discriminate |].
  destruct (inner_optimize C email solver m0) as [m1 [e | u]]; [discriminate |].
  destruct (inner_get_alpha C m1) as [m2 [e | a]]; [discriminate |].
  destruct (inner_get_beta C m2) as [m3 [e | be]]; [discriminate |].
  destruct (inner_get_delta C m3) as [m4 [e | de]]; [discriminate |].
  simpl. destruct (count C s) as [c |] eqn:Hc; [| discriminate].
  intros H. injection H as <-.
  exists a, be, de, (inner_model C m4), c. split; reflexivity.
Qed.

(** A scan changes its two matrices and nothing else. *)
Lemma convergence_test_writes (al : vec) (be de : mat) (s : self C) :
  exists a2 a, (__convergence_test K C al be de s).1 = with_active C s a2 a.
Proof.
  unfold __convergence_test. cbv zeta.
  destruct (bind _ _ _) as [fr r]. eexists _, _. reflexivity.
Qed.

Lemma convergence_test_weak_writes (al : vec) (be de : mat) (s : self C) :
  exists a2 a, (__convergence_test_weak K C al be de s).1
               = with_activeweak C s a2 a.
Proof.
  unfold __convergence_test_weak. cbv zeta.
  destruct (bind _ _ _) as [fr r]. eexists _, _. reflexivity.
Qed.

(** The head of the loop, when it does not hold: both scans have returned
    a statistic of at most 1e-4. *)
Lemma loop_test_false (s s2 : self C) :
  loop_test K C s = (s2, inr false) ->
  exists al be de sa c w,
    alpha C s = Some al /\ beta C s = Some be /\ delta C s = Some de /\
    __convergence_test K C al be de s = (sa, inr c) /\ c <= 0.0001 /\
    __convergence_test_weak K C al be de sa = (s2, inr w) /\ w <= 0.0001.
Proof.
  unfold loop_test, bind, attr.
  destruct (alpha C s) as [al |] eqn:Ha; [| discriminate].
  destruct (beta C s) as [be |] eqn:Hb; [| discriminate].
  destruct (delta C s) as [de |] eqn:Hd; [| discriminate].
  destruct (convergence_test_writes al be de s) as (a2 & a & Hw).
  destruct (__convergence_test K C al be de s) as [sa [e | c]] eqn:Ht;
    [discriminate |].
  simpl in Hw. subst sa.
  destruct (Qlt_le_dec 0.0001 c) as [Hc | Hc]; [discriminate |].
  simpl. rewrite Ha. simpl. rewrite Hb. simpl. rewrite Hd. simpl.
  destruct (__convergence_test_weak K C al be de (with_active C s a2 a))
    as [sb [e | w]] eqn:Htw; [discriminate |].
  destruct (Qlt_le_dec 0.0001 w) as [Hw' | Hw']; [discriminate |].
  intros H. injection H as <-.
  exists al, be, de, (with_active C s a2 a), c, w. repeat split; assumption.
Qed.

(** The head of the loop never touches the fit or the counter. *)
Lemma loop_test_fields (s s' : self C) (r : result bool) :
  loop_test K C s = (s', r) ->
  alpha C s' = alpha C s /\ beta C s' = beta C s /\ delta C s' = delta C s /\
  count C s' = count C s /\ model C s' = model C s.
Proof.
  unfold loop_test, bind, attr.
  destruct (alpha C s) as [al |] eqn:Ha;
    [| intros H; injection H as <- _; auto].
  destruct (beta C s) as [be |] eqn:Hb;
    [| intros H; injection H as <- _; auto].
  destruct (delta C s) as [de |] eqn:Hd;
    [| intros H; injection H as <- _; auto].
  destruct (convergence_test_writes al be de s) as (a2 & a & Hw).
  destruct (__convergence_test K C al be de s) as [sa [e | c]].
  { simpl in Hw. subst sa. intros H. injection H as <- _. simpl. auto. }
  simpl in Hw. subst sa.
  destruct (Qlt_le_dec 0.0001 c); [intros H; injection H as <- _; simpl; auto |].
  simpl. rewrite Ha. simpl. rewrite Hb. simpl. rewrite Hd. simpl.
  destruct (convergence_test_weak_writes al be de (with_active C s a2 a))
    as (w2 & w & Hw).
  destruct (__convergence_test_weak K C al be de (with_active C s a2 a))
    as [sb [e | v]]; simpl in Hw; subst sb.
  { intros H. injection H as <- _. simpl. auto. }
  destruct (Qlt_le_dec 0.0001 v); intros H; injection H as <- _; simpl; auto.
Qed.

(** One turn, by the outcome of its head and of its body. *)
Lemma turn_cases (email solver : option string) (s : self C) :
  turn K C email solver s =
  match loop_test K C s with
  | (s1, inl e) => (s1, inl e)
  | (s1, inr false) => (s1, inr Finished)
  | (s1, inr true) =>
      match loop_body C email solver s1 with
      | (s2, inl e) => (s2, inl e)
      | (s2, inr _) => (s2, inr Again)
      end
  end.
Proof.
  unfold turn. unfold bind at 1.
  destruct (loop_test K C s) as [s1 [e | [|]]]; reflexivity.
Qed.

Lemma turn_count (email solver : option string) (s s' : self C) (c : nat) :
  count C s = Some c ->
  (turn K C email solver s = (s', inr Again) -> count C s' = Some (c + 1)%nat) /\
  (turn K C email solver s = (s', inr Finished) -> count C s' = Some c).
Proof.
  intros Hc. rewrite turn_cases.
  destruct (loop_test K C s) as [s1 [e | [|]]] eqn:Ht.
  - split; discriminate.
  - destruct (loop_test_fields s s1 _ Ht) as (_ & _ & _ & Hc1 & _).
    destruct (loop_body C email solver s1) as [s2 [e | []]] eqn:Hb;
      [split; discriminate |].
    split; [| discriminate].
    intros H. injection H as <-.
    destruct (loop_body_returns email solver s1 s2 Hb)
      as (a & be & de & m & c' & Hc' & ->).
    simpl. rewrite Hc1, Hc in Hc'. injection Hc' as <-. reflexivity.
  - destruct (loop_test_fields s s1 _ Ht) as (_ & _ & _ & Hc1 & _).
    split; [discriminate |]. intros H. injection H as <-. congruence.
Qed.

Lemma turns_count (email solver : option string) (s s' : self C) (c k : nat) :
  count C s = Some c ->
  turns K C email solver k s = (s', inr Again) ->
  count C s' = Some (c + k)%nat.
Proof.
  intros Hc. revert s'. induction k as [| k IH]; intros s' H; simpl in H.
  - injection H as <-. rewrite Hc. f_equal. lia.
  - destruct (turns K C email solver k s) as [s1 [e | [|]]]; try discriminate.
    specialize (IH s1 eq_refl).
    destruct (turn_count email solver s1 s' (c + k) IH) as [Hag _].
    rewrite (Hag H). f_equal. lia.
Qed.

Lemma turns_front (email solver : option string) (t : nat) (s : self C) :
  turns K C email solver (Datatypes.S t) s =
  match turn K C email solver s with
  | (s1, inr Again) => turns K C email solver t s1
  | r => r
  end.
Proof.
  induction t as [| t IH].
  - simpl. destruct (turn K C email solver s) as [s1 [e | [|]]]; reflexivity.
  - change (turns K C email solver (Datatypes.S (Datatypes.S t)) s)
      with (match turns K C email solver (Datatypes.S t) s with
            | (s', inr Again) => turn K C email solver s'
            | r => r
            end).
    rewrite IH.
    destruct (turn K C email solver s) as [s1 [e | [|]]]; reflexivity.
Qed.

(** A loop that finishes has made some number [k] of turns that went on,
    followed by one whose head did not hold. *)
Lemma while_finishes (fuel : nat) (email solver : option string)
  (s s' : self C) :
  while K C fuel email solver s = Some (s', inr tt) ->
  exists k sk,
    (k < fuel)%nat /\
    turns K C email solver k s = (sk, inr Again) /\
    turn K C email solver sk = (s', inr Finished).
Proof.
  revert s. induction fuel as [| fuel IH]; intros s H; simpl in H; [discriminate |].
  destruct (turn K C email solver s) as [s1 [e | [|]]] eqn:Ht.
  - discriminate.
  - destruct (IH s1 H) as (k & sk & Hk & Hturns & Hlast).
    exists (Datatypes.S k), sk. split; [lia |]. split; [| exact Hlast].
    rewrite turns_front, Ht. exact Hturns.
  - injection H as <-. exists O, s. split; [lia |]. split; [reflexivity | exact Ht].
Qed.

(** X6.  When [optimize] returns, the status flag is 1, the counter holds
    the number of times the loop body (rebuild and solve) has run, and the
    last thing the loop did was to scan the final fit: both scans returned
    a statistic of at most 1e-4 on the fit that the instance now holds. *)
Theorem optimize_returns_converged (fuel : nat) (email solver : option string)
  (s s' : self C) :
  optimize K C fuel email solver s = Some (s', inr tt) ->
  optimization_status C s' = 1%nat /\
  get_status C s' = (s', inr 1%nat) /\
  exists s1 k sk,
    (first_pass C email solver;; set_count C 0) s = (s1, inr tt) /\
    (k < fuel)%nat /\
    turns K C email solver k s1 = (sk, inr Again) /\
    count C s' = Some k /\
    exists al be de sa s2 c w,
      alpha C s' = Some al /\ beta C s' = Some be /\ delta C s' = Some de /\
      __convergence_test K C al be de sk = (sa, inr c) /\ c <= 0.0001 /\
      __convergence_test_weak K C al be de sa = (s2, inr w) /\ w <= 0.0001 /\
      s' = (set_optimization_status C 1 s2).1.
Proof.
  unfold optimize. intros H.
  destruct ((first_pass C email solver;; set_count C 0) s) as [s1 [e | []]] eqn:H1;
    [discriminate |].
  destruct (while K C fuel email solver s1) as [[s2 [e | []]] |] eqn:Hw;
    try discriminate.
  injection H as <-.
  split; [reflexivity |]. split; [reflexivity |].
  destruct (while_finishes fuel email solver s1 s2 Hw) as (k & sk & Hk & Hturns & Hlast).
  destruct (first_pass_returns email solver s s1 H1) as (a0 & b0 & d0 & m0 & Hs1).
  assert (Hc1 : count C s1 = Some O) by (rewrite Hs1; reflexivity).
  pose proof (turns_count email solver s1 sk O k Hc1 Hturns) as Hck.
  destruct (turn_count email solver sk s2 (0 + k) Hck) as [_ Hfin].
  specialize (Hfin Hlast).
  exists s1, k, sk. split; [reflexivity |]. split; [exact Hk |].
  split; [exact Hturns |]. split; [simpl; exact Hfin |].
  assert (Htest : loop_test K C sk = (s2, inr false)).
  { revert Hlast. rewrite turn_cases.
    destruct (loop_test K C sk) as [s3 [e | [|]]].
    - discriminate.
    - destruct (loop_body C email solver s3) as [? [? | ?]]; discriminate.
    - intros H. injection H as <-. reflexivity. }
  destruct (loop_test_false sk s2 Htest)
    as (al & be & de & sa & c & w & Ha & Hb & Hd & Ht & Hc & Htw & Hw').
  destruct (loop_test_fields sk s2 _ Htest) as (Fa & Fb & Fd & _ & _).
  exists al, be, de, sa, s2, c, w.
  simpl. rewrite Fa, Fb, Fd. repeat split; assumption.
Qed.

End Run.

Lemma optimize_returns_converged_witness :
  let s' := match weakCNLSG.optimize sample_constant sample_collaborators 1
                    None None (two_units "prod" "vrs") with
            | Some (s1, _) => s1
            | None => two_units "prod" "vrs"
            end in
  weakCNLSG.optimization_status _ s' = 1%nat.
Proof.
  intros s'.
  refine (proj1 (optimize_returns_converged sample_constant sample_collaborators
                   1 None None (two_units "prod" "vrs") s' _)).
  vm_compute. reflexivity.
Defined.

Section RunEdges.

Import weakCNLSG.

Context (K : constant) (C : collaborators).

(** The concavity scan when no row can be entered. *)
Lemma concavity_scan_unbound (s : self C) (al : vec) (be de : mat) :
  recognized K (rts C s) (fun_ C s) = false \/ x C s = [] ->
  __convergence_test K C al be de s = (s, inl UnboundLocalError).
Proof.
  intros H. unfold __convergence_test. cbv zeta. rewrite branches_pick.
  destruct H as [H | H].
  - rewrite (pick_unrecognized K _ _ _ _ _ _ H). destruct s; reflexivity.
  - rewrite H. destruct (pick K (rts C s) (fun_ C s) _ _ _ _);
      destruct s; simpl in *; subst; reflexivity.
Qed.

(** X7.  [optimize] cannot complete when [(rts, fun)] matches none of the
    four branches or when there is no unit: once the first-pass solve has
    returned, the first evaluation of the loop head raises the
    unbound-local error.  The instance then holds the first-pass fit and a
    counter of 0, and its status flag is what it was. *)
Theorem optimize_raises_without_scan (fuel : nat) (email solver : option string)
  (s s1 : self C) :
  recognized K (rts C s) (fun_ C s) = false \/ x C s = [] ->
  (first_pass C email solver;; set_count C 0) s = (s1, inr tt) ->
  optimize K C (Datatypes.S fuel) email solver s
  = Some (s1, inl UnboundLocalError) /\
  optimization_status C s1 = optimization_status C s /\
  count C s1 = Some O.
Proof.
  intros Hno H1.
  destruct (first_pass_returns C email solver s s1 H1) as (a & be & de & m & Hs1).
  split; [| rewrite Hs1; split; reflexivity].
  unfold optimize. rewrite H1. simpl. rewrite turn_cases.
  assert (Ht : loop_test K C s1 = (s1, inl UnboundLocalError)).
  { unfold loop_test, bind, attr. rewrite Hs1. simpl.
    rewrite concavity_scan_unbound by exact Hno. reflexivity. }
  rewrite Ht. reflexivity.
Qed.

#[local] Instance same_data_preorder : PreOrder (same_data C).
Proof.
  split.
  - intros s. repeat split; reflexivity.
  - intros s1 s2 s3 (A1 & A2 & A3 & A4 & A5 & A6 & A7 & A8)
      (B1 & B2 & B3 & B4 & B5 & B6 & B7 & B8).
    repeat split; congruence.
Qed.

Lemma data_convergence_test (al : vec) (be de : mat) :
  keeps (same_data C) (__convergence_test K C al be de).
Proof.
  intros s. destruct (convergence_test_writes K C al be de s) as (a2 & a & ->).
  repeat split; reflexivity.
Qed.

Lemma data_convergence_test_weak (al : vec) (be de : mat) :
  keeps (same_data C) (__convergence_test_weak K C al be de).
Proof.
  intros s. destruct (convergence_test_weak_writes K C al be de s) as (a2 & a & ->).
  repeat split; reflexivity.
Qed.

Lemma data_with_fit (f : self C -> self C * result unit) :
  (forall s, exists al be de m c st, f s = (with_fit C s al be de m c st, inr tt)) ->
  keeps (same_data C) f.
Proof.
  intros H s. destruct (H s) as (al & be & de & m & c & st & ->).
  simpl. repeat split; reflexivity.
Qed.

Lemma data_attr {A : Type} (f : self C -> option A) :
  keeps (same_data C) (attr C f).
Proof. intros s. unfold attr. destruct (f s); simpl; reflexivity. Qed.

Lemma data_pure {A : Type} (f : self C -> result A) :
  keeps (same_data C) (fun s => (s, f s)).
Proof. intros s. simpl. reflexivity. Qed.

#[local] Hint Resolve data_convergence_test data_convergence_test_weak
  data_attr : keeps_db.

Ltac data_step :=
  first
    [ keeps_step
    | apply data_pure
    | apply data_with_fit; intros ?; repeat eexists ].

Lemma data_first_pass (email solver : option string) :
  keeps (same_data C) (first_pass C email solver;; set_count C 0).
Proof. unfold first_pass. repeat data_step. Qed.

Lemma data_turn (email solver : option string) :
  keeps (same_data C) (turn K C email solver).
Proof. unfold turn, loop_test, loop_body. repeat data_step. Qed.

Lemma data_while (fuel : nat) (email solver : option string) (s s' : self C)
  (r : result unit) :
  while K C fuel email solver s = Some (s', r) -> same_data C s s'.
Proof.
  revert s. induction fuel as [| fuel IH]; intros s H; simpl in H; [discriminate |].
  pose proof (data_turn email solver s) as Ht.
  destruct (turn K C email solver s) as [s1 [e | [|]]]; simpl in Ht.
  - injection H as <- _. exact Ht.
  - etransitivity; [exact Ht | apply IH, H].
  - injection H as <- _. exact Ht.
Qed.

(** X8.  [optimize] never changes the data or the regime of the instance:
    however it ends, [cutactive], [y], [x], [b], [z], [cet], [fun] and
    [rts] are afterwards what they were. *)
Theorem optimize_keeps_data (fuel : nat) (email solver : option string)
  (s s' : self C) (r : result unit) :
  optimize K C fuel email solver s = Some (s', r) -> same_data C s s'.
Proof.
  unfold optimize. intros H.
  pose proof (data_first_pass email solver s) as H1.
  destruct ((first_pass C email solver;; set_count C 0) s) as [s1 [e1 | u]];
    simpl in H1.
  - injection H as <- _. exact H1.
  - destruct (while K C fuel email solver s1) as [[s2 [e2 | u2]] |] eqn:Hw;
      try discriminate H.
    + injection H as <- _. etransitivity; [exact H1 |]. eapply data_while, Hw.
    + injection H as <- _. etransitivity; [exact H1 |].
      apply data_while in Hw. exact Hw.
Qed.

(** X9.  On a solved instance whose error-term form is neither of the two
    known ones, [get_frontier] raises the unbound-local error: none of its
    three branches binds [frontier].  The instance is left as it is. *)
Theorem get_frontier_unbound (s : self C) :
  optimization_status C s <> O ->
  cet C s <> CET_MULT K -> cet C s <> CET_ADDI K ->
  get_frontier K C s = (s, inl UnboundLocalError).
Proof.
  intros Hst Hm Ha. unfold get_frontier, bind, reader, assert_optimized.
  rewrite decide_False by exact Hst.
  rewrite (proj2 (String.eqb_neq _ _) Hm), (proj2 (String.eqb_neq _ _) Ha).
  reflexivity.
Qed.

End RunEdges.

Lemma optimize_raises_without_scan_witness :
  weakCNLSG.optimize sample_constant sample_collaborators 1 None None
    (two_units "prod" "irs")
  = Some (weakCNLSG.with_fit sample_collaborators (two_units "prod" "irs")
            (Some [1; 0]) (Some [[0]; [0]]) (Some [[0]; [0]]) (Some tt)
            (Some O) 0,
          inl UnboundLocalError).
Proof.
  refine (proj1 (optimize_raises_without_scan sample_constant
                   sample_collaborators 0 None None (two_units "prod" "irs")
                   _ _ _)).
  - left. vm_compute. reflexivity.
  - vm_compute. reflexivity.
Defined.

Lemma optimize_keeps_data_witness :
  let s' := match weakCNLSG.optimize sample_constant sample_collaborators 1
                    None None (two_units "prod" "vrs") with
            | Some (s1, _) => s1
            | None => two_units "prod" "vrs"
            end in
  same_data sample_collaborators (two_units "prod" "vrs") s'.
Proof.
  intros s'.
  apply (optimize_keeps_data sample_constant sample_collaborators 1 None None
           (two_units "prod" "vrs") s' (inr tt)).
  vm_compute. reflexivity.
Defined.

Lemma get_frontier_unbound_witness :
  weakCNLSG.get_frontier sample_constant sample_collaborators
    (weakCNLSG.with_fit sample_collaborators
       (weakCNLSG.fresh sample_collaborators [] [[1]] [[1]] [[0]] None
          "log" "prod" "vrs" 1)
       None None None None None 1)
  = (weakCNLSG.with_fit sample_collaborators
       (weakCNLSG.fresh sample_collaborators [] [[1]] [[1]] [[0]] None
          "log" "prod" "vrs" 1)
       None None None None None 1, inl UnboundLocalError).
Proof.
  apply (get_frontier_unbound sample_constant sample_collaborators).
  - simpl. discriminate.
  - simpl. discriminate.
  - simpl. discriminate.
Defined.

(** * Further properties of [weakCNLSxG1] *)

(** ** The constructor *)

Section Constructor.

Import weakCNLSxG1.

Context (K : constant) (C : collaborators).

Ltac case_strings :=
  repeat match goal with
         | |- context [String.eqb ?a ?b] => destruct (String.eqb_spec a b)
         end.

Ltac no_rows H :=
  repeat (apply elem_of_cons in H as [H | H];
          [first [discriminate H | injection H as _ <-; reflexivity] |]);
  apply elem_of_nil in H; contradiction.

Lemma stops_bind {S A B : Type} (c : M S A) (k : A -> M S B) (s : S) :
  (forall a s', c s = (s', inr a) -> stops (k a) s') -> stops (bind c k) s.
Proof.
  intros H. unfold stops, bind in *.
  destruct (c s) as [s' [e | a]]; [eexists; reflexivity | apply H; reflexivity].
Qed.

Lemma stops_first {S A B : Type} (c : M S A) (k : A -> M S B) (s : S) :
  stops c s -> stops (bind c k) s.
Proof.
  intros [e He]. unfold stops, bind.
  destruct (c s) as [s' [e' | a]]; [eexists; reflexivity | discriminate He].
Qed.

(** Both weak-disposability rules take one index. *)
Lemma disposability_rule_one_index (x0 : mat) (rts0 : string) (J : list nat)
  (n : nat) (r : rule) :
  __disposability_rule K x0 rts0 J n = inr r -> params r = 1%nat.
Proof.
  unfold __disposability_rule. intros H.
  destruct (String.eqb rts0 (RTS_VRS K)); [injection H as <-; reflexivity |].
  destruct (String.eqb rts0 (RTS_CRS K)); [injection H as <-; reflexivity |].
  discriminate H.
Qed.

(** A constraint over pairs of units whose rule does not take two indices
    raises [TypeError] at its first index and is left without a row. *)
Lemma add_constraint_arity (name : string) (n : nat) (r : rule)
  (m : ConcreteModel) :
  params r <> 2%nat -> n <> O ->
  add_constraint C name (index2 (seq 0 n) (seq 0 n)) r m
  = ({| components := components m ++ [(name, CConstraint [])];
        values := values m |}, inl TypeError).
Proof.
  intros Hp Hn. destruct n as [| n]; [contradiction |].
  unfold add_constraint. simpl. unfold call_rule. simpl.
  rewrite decide_False by (intros Heq; apply Hp; symmetry; exact Heq).
  reflexivity.
Qed.

(** With at least one unit the constraints of lines 63 to 80 are never
    all built. *)
Lemma constrain_stops (y0 x0 b0 cut : mat) (cet0 fun0 rts0 : string)
  (J L : list nat) (m : ConcreteModel) :
  x0 <> [] -> stops (constrain K C y0 x0 b0 cut cet0 fun0 rts0 J L) m.
Proof.
  intros Hx. unfold constrain.
  do 5 (apply stops_bind; intros ? ? _).
  apply stops_bind. intros r m' Hr. unfold lift in Hr. injection Hr as _ Hr.
  apply stops_first. exists TypeError.
  rewrite add_constraint_arity; [reflexivity | |].
  - rewrite (disposability_rule_one_index _ _ _ _ _ Hr). discriminate.
  - destruct x0; [contradiction | discriminate].
Qed.

(** X10.  The constructor returns an instance only when there is no unit.
    With no unit, data whose first rows can be measured and a recognized
    error-term form and returns to scale, it returns an unsolved instance
    whose constraints have no row, whatever the direction [fun].  With at
    least one unit it returns no instance, whatever the regime and the
    data: the weak-disposability constraint is declared over pairs of
    units and its rule takes one unit, so the constraint cannot be built
    even when everything before it is. *)
Theorem constructor_needs_no_unit (y0 x0 b0 cut : mat) (cet0 fun0 rts0 : string) :
  (x0 = [] ->
   forall wy wb, width y0 = inr wy -> width b0 = inr wb ->
   cet0 = CET_ADDI K \/ cet0 = CET_MULT K ->
   rts0 = RTS_VRS K \/ rts0 = RTS_CRS K ->
   exists m s,
     __init__ K C y0 x0 b0 cut cet0 fun0 rts0 = (m, inr s) /\
     optimization_status s = O /\ model s = m /\
     forall name rows, (name, CConstraint rows) ∈ components m -> rows = []) /\
  (x0 <> [] ->
   exists m e, __init__ K C y0 x0 b0 cut cet0 fun0 rts0 = (m, inl e)).
Proof.
  split.
  - intros -> wy wb Hy Hb Hcet Hrts.
    unfold __init__. rewrite (build_declares K C _ _ _ _ _ _ _ wy wb Hy Hb).
    unfold constrain, bind, lift, add_component, add_constraint.
    unfold __regression_rule, __log_rule, __afriat_rule, __disposability_rule,
      __sweet_rule.
    destruct Hcet as [-> | ->]; destruct Hrts as [-> | ->];
      case_strings; try contradiction; simpl;
      (eexists _, _; split; [reflexivity |]; split; [reflexivity |];
       split; [reflexivity |]; intros name rows Hin; simpl in Hin; no_rows Hin).
  - intros Hx. unfold __init__.
    assert (Hstop : stops (build K C y0 x0 b0 cut cet0 fun0 rts0) empty_model).
    { unfold build. do 11 (apply stops_bind; intros ? ? _).
      apply constrain_stops. exact Hx. }
    destruct Hstop as [e He].
    destruct (build K C y0 x0 b0 cut cet0 fun0 rts0 empty_model) as [m [e' | u]];
      [eexists _, _; reflexivity | discriminate He].
Qed.

(** X12.  Data without a first row stops the constructor with
    [IndexError]: when [y] is empty only the set [I] has been put on the
    model; when [y] has a first row and [b] is empty, the sets [I] and
    [J]. *)
Theorem empty_data_raises_index_error (y0 x0 b0 cut : mat)
  (cet0 fun0 rts0 : string) :
  (y0 = [] ->
   __init__ K C y0 x0 b0 cut cet0 fun0 rts0
   = ({| components := [("I", CSet (seq 0 (length x0)))]; values := [] |},
      inl IndexError)) /\
  (forall row rest, y0 = row :: rest -> b0 = [] ->
   __init__ K C y0 x0 b0 cut cet0 fun0 rts0
   = ({| components := [("I", CSet (seq 0 (length x0)));
                        ("J", CSet (seq 0 (length row)))];
         values := [] |}, inl IndexError)).
Proof.
  split.
  - intros ->. reflexivity.
  - intros row rest -> ->. reflexivity.
Qed.

End Constructor.

Lemma constructor_needs_no_unit_witness :
  (exists m s,
     weakCNLSxG1.__init__ sample_constant sample_solver [[1]] [] [[1]] []
       "addi" "up" "vrs" = (m, inr s) /\
     weakCNLSxG1.optimization_status s = O /\ weakCNLSxG1.model s = m /\
     forall name rows,
       (name, weakCNLSxG1.CConstraint rows) ∈ weakCNLSxG1.components m ->
       rows = []) /\
  (exists m e,
     weakCNLSxG1.__init__ sample_constant sample_solver [[1]] [[1]] [[1]] [[0]]
       "addi" "prod" "vrs" = (m, inl e)).
Proof.
  split.
  - refine (proj1 (constructor_needs_no_unit sample_constant sample_solver
                     [[1]] [] [[1]] [] "addi" "up" "vrs") eq_refl 1%nat 1%nat
                  eq_refl eq_refl _ _).
    + left. reflexivity.
    + left. reflexivity.
  - refine (proj2 (constructor_needs_no_unit sample_constant sample_solver
                     [[1]] [[1]] [[1]] [[0]] "addi" "prod" "vrs") _).
    discriminate.
Defined.

Lemma empty_data_raises_index_error_witness :
  weakCNLSxG1.__init__ sample_constant sample_solver [] [[1]] [[1]] [[0]]
    "addi" "prod" "vrs"
  = ({| weakCNLSxG1.components := [("I", weakCNLSxG1.CSet [O])];
        weakCNLSxG1.values := [] |}, inl IndexError).
Proof.
  apply (proj1 (empty_data_raises_index_error sample_constant sample_solver []
                  [[1]] [[1]] [[0]] "addi" "prod" "vrs") eq_refl).
Defined.

(** ** A direction that is not recognized *)

Section Direction.

Import weakCNLSxG1.

Context (K : constant) (C : collaborators).

Ltac no_afriat :=
  let rows := fresh "rows" in
  let Hin := fresh "Hin" in
  intros rows Hin; unfold declared in Hin; simpl in Hin;
  repeat (apply elem_of_cons in Hin as [Hin | Hin]; [discriminate Hin |]);
  apply elem_of_nil in Hin; contradiction.

(** With a direction that is neither of the two known ones, every call of
    the Afriat rule raises [NameError]. *)
Lemma afriat_rule_unbound (x0 y0 b0 : mat) (fun0 rts0 : string)
  (J L : list nat) (n : nat) (r : rule) (i : nat) :
  fun0 <> FUN_PROD K -> fun0 <> FUN_COST K ->
  __afriat_rule K x0 y0 b0 fun0 rts0 J L n = inr r ->
  call_rule r [i] = inl NameError.
Proof.
  intros Hp Hc Hr.
  assert (Hop : operator K fun0 = None).
  { unfold operator.
    rewrite (proj2 (String.eqb_neq _ _) Hp), (proj2 (String.eqb_neq _ _) Hc).
    reflexivity. }
  unfold __afriat_rule in Hr.
  destruct (String.eqb rts0 (RTS_VRS K));
    [| destruct (String.eqb rts0 (RTS_CRS K)); [| discriminate Hr]];
    injection Hr as <-; unfold call_rule; simpl;
    unfold apply_operator; rewrite Hop; reflexivity.
Qed.

Lemma add_afriat_unbound (x0 y0 b0 : mat) (fun0 rts0 : string)
  (J L : list nat) (n : nat) (r : rule) (m : ConcreteModel) :
  fun0 <> FUN_PROD K -> fun0 <> FUN_COST K -> n <> O ->
  __afriat_rule K x0 y0 b0 fun0 rts0 J L n = inr r ->
  add_constraint C "afriat_rule" (index1 (seq 0 n)) r m
  = ({| components := components m ++ [("afriat_rule", CConstraint [])];
        values := values m |}, inl NameError).
Proof.
  intros Hp Hc Hn Hr. destruct n as [| n]; [contradiction |].
  unfold add_constraint. simpl.
  rewrite (afriat_rule_unbound _ _ _ _ _ _ _ _ _ O Hp Hc Hr). reflexivity.
Qed.

(** X11.  With at least one unit and a direction [fun] that is neither of
    the two known ones, the constructor returns no instance, and if it
    gets as far as the Afriat constraint the error is [NameError], raised
    by the first call of the rule, the constraint being left without a
    row: [__afriat_rule] leaves its local [__operator] unbound and returns
    a rule all the same.  It does get that far in the additive form when
    the regression constraint is built. *)
Theorem unknown_direction_raises_name_error (y0 x0 b0 cut : mat)
  (cet0 fun0 rts0 : string) :
  x0 <> [] -> fun0 <> FUN_PROD K -> fun0 <> FUN_COST K ->
  exists m e,
    __init__ K C y0 x0 b0 cut cet0 fun0 rts0 = (m, inl e) /\
    (forall rows, ("afriat_rule", CConstraint rows) ∈ components m ->
       e = NameError /\ rows = []) /\
    (forall wy wb r rows,
       width y0 = inr wy -> width b0 = inr wb ->
       cet0 <> CET_MULT K -> rts0 = RTS_VRS K \/ rts0 = RTS_CRS K ->
       __regression_rule K C x0 y0 b0 cet0 rts0 (seq 0 wy) (seq 0 wb) (length x0)
         = inr r ->
       build_rows C r (index1 (seq 0 (length x0))) = (rows, inr tt) ->
       e = NameError /\
       components m
       = declared (length x0) wy wb
         ++ [("regression_rule", CConstraint rows);
             ("afriat_rule", CConstraint [])]).
Proof.
  intros Hx Hp Hc.
  assert (Hn : length x0 <> O) by (destruct x0; [contradiction | discriminate]).
  destruct (width y0) as [ey | wy] eqn:Hy.
  { eexists _, _. split; [| split].
    - apply init_of_build. unfold build, bind, lift, add_component.
      rewrite Hy. reflexivity.
    - no_afriat.
    - intros ? ? ? ? Hy'. discriminate Hy'. }
  destruct (width b0) as [eb | wb] eqn:Hb.
  { eexists _, _. split; [| split].
    - apply init_of_build. unfold build, bind, lift, add_component.
      rewrite Hy, Hb. reflexivity.
    - no_afriat.
    - intros ? ? ? ? _ Hb'. discriminate Hb'. }
  pose proof (build_declares K C y0 x0 b0 cut cet0 fun0 rts0 wy wb Hy Hb) as Hbuild.
  unfold constrain, bind, lift in Hbuild.
  destruct (__regression_rule K C x0 y0 b0 cet0 rts0 (seq 0 wy) (seq 0 wb)
              (length x0)) as [e1 | r1] eqn:Hr1.
  { eexists _, _. split; [apply init_of_build; exact Hbuild | split].
    - no_afriat.
    - intros wy' wb' r rows Hy' Hb' _ _ Hr. injection Hy' as <-. injection Hb' as <-.
      rewrite Hr1 in Hr. discriminate Hr. }
  unfold add_constraint at 1 in Hbuild.
  destruct (build_rows C r1 (index1 (seq 0 (length x0)))) as [rows1 [e | []]] eqn:Hb1.
  { eexists _, _. split; [apply init_of_build; exact Hbuild | split].
    - no_afriat.
    - intros wy' wb' r rows Hy' Hb' _ _ Hr Hrows.
      injection Hy' as <-. injection Hb' as <-.
      rewrite Hr1 in Hr. injection Hr as <-. rewrite Hb1 in Hrows.
      discriminate Hrows. }
  destruct (String.eqb_spec cet0 (CET_MULT K)) as [Hm | Hm].
  - (* multiplicative: the log constraint comes next *)
    destruct (__log_rule K y0 b0 cet0 rts0 (seq 0 wy) (seq 0 wb) (length x0))
      as [e2 | r2] eqn:Hr2.
    { eexists _, _. split; [apply init_of_build; exact Hbuild | split].
      - no_afriat.
      - intros ? ? ? ? _ _ Hnm. contradiction. }
    unfold add_constraint at 1 in Hbuild.
    destruct (build_rows C r2 (index1 (seq 0 (length x0)))) as [rows2 [e | []]] eqn:Hb2.
    { eexists _, _. split; [apply init_of_build; exact Hbuild | split].
      - no_afriat.
      - intros ? ? ? ? _ _ Hnm. contradiction. }
    destruct (__afriat_rule K x0 y0 b0 fun0 rts0 (seq 0 wy) (seq 0 wb) (length x0))
      as [e3 | r3] eqn:Hr3.
    { eexists _, _. split; [apply init_of_build; exact Hbuild | split].
      - no_afriat.
      - intros ? ? ? ? _ _ Hnm. contradiction. }
    rewrite (add_afriat_unbound _ _ _ _ _ _ _ _ _ _ Hp Hc Hn Hr3) in Hbuild.
    eexists _, _. split; [apply init_of_build; exact Hbuild | split].
    + intros rows Hin. unfold declared in Hin. simpl in Hin.
      repeat (apply elem_of_cons in Hin as [Hin | Hin]; [discriminate Hin |]).
      apply elem_of_cons in Hin as [Hin | Hin];
        [injection Hin as ->; split; reflexivity |].
      apply elem_of_nil in Hin. contradiction.
    + intros ? ? ? ? _ _ Hnm. contradiction.
  - unfold ret in Hbuild. cbv beta iota in Hbuild.
    destruct (__afriat_rule K x0 y0 b0 fun0 rts0 (seq 0 wy) (seq 0 wb) (length x0))
      as [e3 | r3] eqn:Hr3.
    { eexists _, _. split; [apply init_of_build; exact Hbuild | split].
      - no_afriat.
      - intros wy' wb' r rows Hy' Hb' _ Hrts _ _. exfalso.
        unfold __afriat_rule in Hr3.
        destruct Hrts as [-> | ->].
        + rewrite String.eqb_refl in Hr3. discriminate Hr3.
        + rewrite String.eqb_refl in Hr3.
          destruct (String.eqb (RTS_CRS K) (RTS_VRS K)); discriminate Hr3. }
    rewrite (add_afriat_unbound _ _ _ _ _ _ _ _ _ _ Hp Hc Hn Hr3) in Hbuild.
    eexists _, _. split; [apply init_of_build; exact Hbuild | split].
    + intros rows Hin. unfold declared in Hin. simpl in Hin.
      repeat (apply elem_of_cons in Hin as [Hin | Hin]; [discriminate Hin |]).
      apply elem_of_cons in Hin as [Hin | Hin];
        [injection Hin as ->; split; reflexivity |].
      apply elem_of_nil in Hin. contradiction.
    + intros wy' wb' r rows Hy' Hb' _ _ Hr Hrows.
      injection Hy' as <-. injection Hb' as <-.
      rewrite Hr1 in Hr. injection Hr as <-. rewrite Hb1 in Hrows.
      injection Hrows as <-. split; [reflexivity |].
      unfold declared. reflexivity.
Qed.

End Direction.

Lemma unknown_direction_raises_name_error_witness :
  exists m,
    weakCNLSxG1.__init__ sample_constant sample_solver [[1]] [[1]] [[1]] [[0]]
      "addi" "up" "vrs" = (m, inl NameError) /\
    exists rows,
      ("afriat_rule", weakCNLSxG1.CConstraint rows) ∈ weakCNLSxG1.components m.
Proof.
  destruct (unknown_direction_raises_name_error sample_constant sample_solver
              [[1]] [[1]] [[1]] [[0]] "addi" "up" "vrs")
    as (m & e & Hrun & _ & Hreach); [discriminate .. |].
  edestruct (Hreach 1%nat 1%nat) as [-> Hm];
    [reflexivity | reflexivity | discriminate | left; reflexivity
    | reflexivity | reflexivity |].
  exists m. split; [exact Hrun |].
  eexists. rewrite Hm. apply elem_of_app. right. right. left.
Defined.

(** ** Sums of coefficient terms *)

Section Sums.

Import weakCNLSxG1.

Lemma sum_from_ok (acc : expr) (ks : list nat) (f : nat -> result expr) :
  (forall k, k ∈ ks -> exists t, f k = inr t) ->
  exists e, sum_from acc ks f = inr e.
Proof.
  revert acc. induction ks as [| k ks IH]; intros acc H; simpl.
  - eexists. reflexivity.
  - destruct (H k) as [t ->]; [left |]. simpl.
    apply IH. intros k' Hin. apply H. right. exact Hin.
Qed.

Lemma sum_from_fail (acc : expr) (pre post : list nat) (k : nat)
  (f : nat -> result expr) (e : exn) :
  (forall k', k' ∈ pre -> exists t, f k' = inr t) -> f k = inl e ->
  sum_from acc (pre ++ k :: post) f = inl e.
Proof.
  revert acc. induction pre as [| k0 pre IH]; intros acc H Hk; simpl.
  - rewrite Hk. reflexivity.
  - destruct (H k0) as [t ->]; [left |]. simpl.
    apply IH; [| exact Hk]. intros k' Hin. apply H. right. exact Hin.
Qed.

Lemma sum_of_seq_ok (w : nat) (f : nat -> result expr) :
  (forall k, (k < w)%nat -> exists t, f k = inr t) ->
  exists e, sum_of (seq 0 w) f = inr e.
Proof.
  intros H. apply sum_from_ok. intros k Hin. apply H.
  apply list_elem_of_In, in_seq in Hin. lia.
Qed.

Lemma sum_of_seq_fail (w k : nat) (f : nat -> result expr) (e : exn) :
  (k < w)%nat -> (forall k', (k' < k)%nat -> exists t, f k' = inr t) ->
  f k = inl e -> sum_of (seq 0 w) f = inl e.
Proof.
  intros Hk Hpre Hf. unfold sum_of.
  replace w with (k + S (w - S k))%nat by lia.
  rewrite seq_app. simpl. apply sum_from_fail; [| exact Hf].
  intros k' Hin. apply Hpre. apply list_elem_of_In, in_seq in Hin. lia.
Qed.

Lemma sum_from_omits (name : string) (acc : expr) (ks : list nat)
  (f : nat -> result expr) :
  mentions name acc = false -> (forall k, omits name (f k)) ->
  omits name (sum_from acc ks f).
Proof.
  revert acc. induction ks as [| k ks IH]; intros acc Hacc Hf e He; simpl in He.
  - injection He as <-. exact Hacc.
  - destruct (f k) as [err | t] eqn:Hk; [discriminate He |]. simpl in He.
    apply (IH (Add acc t)); [| exact Hf | exact He].
    simpl. rewrite Hacc. apply (Hf k). exact Hk.
Qed.

Lemma sum_of_omits (name : string) (ks : list nat) (f : nat -> result expr) :
  (forall k, omits name (f k)) -> omits name (sum_of ks f).
Proof. intros H. apply sum_from_omits; [reflexivity | exact H]. Qed.

Lemma lift1_omits (name : string) (op : expr -> expr) (a : result expr) :
  (forall e, mentions name (op e) = mentions name e) ->
  omits name a -> omits name (lift1 op a).
Proof.
  intros Hop Ha e He. unfold lift1 in He.
  destruct a as [err | x]; [discriminate He |]. injection He as <-.
  rewrite Hop. apply Ha. reflexivity.
Qed.

Lemma lift2_omits (name : string) (op : expr -> expr -> expr)
  (a c : result expr) :
  (forall l r, mentions name (op l r) = mentions name l || mentions name r) ->
  omits name a -> omits name c -> omits name (lift2 op a c).
Proof.
  intros Hop Ha Hc e He. unfold lift2 in He.
  destruct a as [err | l]; [discriminate He |].
  destruct c as [err | r]; [discriminate He |]. injection He as <-.
  rewrite Hop, (Ha l eq_refl), (Hc r eq_refl). reflexivity.
Qed.

Lemma times_omits (name : string) (v : result expr) (d : result Q) :
  omits name v -> omits name (times v d).
Proof.
  intros Hv e He. unfold times in He.
  destruct v as [err | x]; [discriminate He |].
  destruct d as [err | q]; [discriminate He |]. injection He as <-.
  simpl. rewrite (Hv x eq_refl). reflexivity.
Qed.

Lemma bind_omits {A : Type} (name : string) (a : result A)
  (k : A -> result expr) :
  (forall x, omits name (k x)) -> omits name (rbind a k).
Proof.
  intros Hk e He. destruct a as [err | x]; [discriminate He |].
  apply (Hk x). exact He.
Qed.

Lemma var1_omits (name v : string) (n i : nat) :
  v <> name -> omits name (var1 n v i).
Proof.
  intros Hne e He. unfold var1 in He.
  destruct (decide (i < n)%nat); [| discriminate He]. injection He as <-.
  change (String.eqb v name = false). apply String.eqb_neq. exact Hne.
Qed.

Lemma gamma_omits (name : string) (L : list nat) (n i j : nat) :
  name <> "gamma" -> omits name (gamma L n i j).
Proof.
  intros Hne e He. unfold gamma in He.
  destruct (decide ((i < n)%nat /\ j ∈ L)); [| discriminate He].
  injection He as <-. change (String.eqb "gamma" name = false).
  apply String.eqb_neq. congruence.
Qed.

Lemma delta_omits (name : string) (J : list nat) (n i l : nat) :
  name <> "delta" -> omits name (delta J n i l).
Proof.
  intros Hne e He. unfold delta in He.
  destruct (decide ((i < n)%nat /\ l ∈ J)); [| discriminate He].
  injection He as <-. change (String.eqb "delta" name = false).
  apply String.eqb_neq. congruence.
Qed.

Lemma num_omits (name : string) (q : Q) : omits name (inr (Num q)).
Proof. intros e He. injection He as <-. reflexivity. Qed.

End Sums.

(** ** The intercept under constant returns to scale *)

Section RuleFacts.

Import weakCNLSxG1.

Context (K : constant).

Ltac case_strings :=
  repeat match goal with
         | |- context [String.eqb ?a ?b] => destruct (String.eqb_spec a b)
         end.

(** One more operand of a rule body has been evaluated. *)
Ltac step H :=
  match type of H with
  | rbind ?a _ = _ =>
      let Ha := fresh "Hop" in
      destruct a as [? | ?] eqn:Ha; [discriminate H | cbn [rbind] in H]
  end.

Ltac omits_alpha :=
  repeat first
    [ apply lift2_omits; [intros ? ?; reflexivity | |]
    | apply lift1_omits; [intros ?; reflexivity |]
    | apply sum_of_omits; intros ?
    | apply times_omits
    | apply bind_omits; intros ?
    | apply gamma_omits; discriminate
    | apply delta_omits; discriminate
    | apply var1_omits; discriminate
    | apply num_omits ].

Ltac operands H :=
  unfold apply_operator, operator in H;
  match type of H with
  | context [String.eqb ?f (FUN_PROD K)] =>
      destruct (String.eqb f (FUN_PROD K));
      [| destruct (String.eqb f (FUN_COST K)); [| discriminate H]]
  end;
  step H; step H; injection H as <-; unfold mentions_rel; simpl;
  match goal with
  | Hl : ?A = inr ?l, Hr : ?B = inr ?r |- mentions _ ?l || mentions _ ?r = false =>
      assert (HA : omits "alpha" A) by omits_alpha;
      assert (HB : omits "alpha" B) by omits_alpha;
      rewrite (HA _ Hl), (HB _ Hr); reflexivity
  end.

(** X14.  Under constant returns to scale the intercept [alpha], although
    declared, occurs in no constraint: no relation returned by the
    regression, log, Afriat, weak-disposability or cutting-plane rule
    mentions it, and neither does the expression the regression rule
    compares a row of [x] with. *)
Theorem crs_rules_omit_alpha (C : collaborators) (x0 y0 b0 : mat)
  (cet0 fun0 rts0 : string) (cut : mat) (J L : list nat) (n : nat)
  (r : rule) (ix : list nat) :
  rts0 = RTS_CRS K -> RTS_CRS K <> RTS_VRS K ->
  __regression_rule K C x0 y0 b0 cet0 rts0 J L n = inr r \/
  __log_rule K y0 b0 cet0 rts0 J L n = inr r \/
  __afriat_rule K x0 y0 b0 fun0 rts0 J L n = inr r \/
  __disposability_rule K x0 rts0 J n = inr r \/
  __sweet_rule K y0 b0 fun0 rts0 cut J L n = inr r ->
  (forall rel, call_rule r ix = inr (Rel rel) -> mentions_rel "alpha" rel = false) /\
  (forall row e, call_rule r ix = inr (RowEq row e) -> mentions "alpha" e = false).
Proof.
  intros -> Hne Hr.
  assert (Hv : String.eqb (RTS_CRS K) (RTS_VRS K) = false)
    by (apply String.eqb_neq, Hne).
  unfold __regression_rule, __log_rule, __afriat_rule, __disposability_rule,
    __sweet_rule in Hr.
  rewrite Hv, String.eqb_refl in Hr.
  split; [intros rel Hcall | intros row e Hcall]; unfold call_rule in Hcall;
    destruct Hr as [Hr | [Hr | [Hr | [Hr | Hr]]]].
  - (* regression, a relation: the multiplicative form *)
    destruct (String.eqb cet0 (CET_ADDI K)).
    + injection Hr as <-. simpl in Hcall.
      destruct ix as [| i [| h t]]; simpl in Hcall; try discriminate Hcall.
      step Hcall. step Hcall. discriminate Hcall.
    + destruct (String.eqb cet0 (CET_MULT K)); [| discriminate Hr].
      injection Hr as <-. simpl in Hcall.
      destruct ix as [| i [| h t]]; simpl in Hcall; try discriminate Hcall.
      step Hcall. step Hcall. step Hcall. injection Hcall as <-.
      unfold mentions_rel. simpl.
      match goal with
      | Hrhs : ?A = inr ?e |- mentions _ ?e = false =>
          assert (HA : omits "alpha" A) by omits_alpha; apply (HA _ Hrhs)
      end.
  - (* log *)
    destruct (String.eqb cet0 (CET_MULT K)); [| discriminate Hr].
    injection Hr as <-. simpl in Hcall.
    destruct ix as [| i [| h t]]; simpl in Hcall; try discriminate Hcall.
    step Hcall. step Hcall. injection Hcall as <-.
    unfold mentions_rel. simpl.
    match goal with
    | Hf : var1 _ _ _ = inr ?f, Hrhs : ?A = inr ?e
      |- mentions _ ?f || mentions _ ?e = false =>
        assert (HF : omits "alpha" (var1 n "frontier" i)) by omits_alpha;
        assert (HA : omits "alpha" A) by omits_alpha;
        rewrite (HF _ Hf), (HA _ Hrhs); reflexivity
    end.
  - (* Afriat *)
    injection Hr as <-. simpl in Hcall.
    destruct ix as [| i [| h t]]; simpl in Hcall; try discriminate Hcall.
    operands Hcall.
  - (* weak disposability: a truth value *)
    injection Hr as <-. simpl in Hcall.
    destruct ix as [| i [| h t]]; simpl in Hcall; try discriminate Hcall.
    step Hcall. discriminate Hcall.
  - (* cutting plane *)
    injection Hr as <-. simpl in Hcall.
    destruct ix as [| i [| h [| k t]]]; simpl in Hcall; try discriminate Hcall.
    step Hcall.
    match type of Hcall with
    | (if ?c then _ else _) = _ => destruct c; [| discriminate Hcall]
    end.
    destruct (decide (i = h)); [discriminate Hcall |].
    operands Hcall.
  - (* regression, a comparison with a row: the additive form *)
    destruct (String.eqb cet0 (CET_ADDI K)).
    + injection Hr as <-. simpl in Hcall.
      destruct ix as [| i [| h t]]; simpl in Hcall; try discriminate Hcall.
      step Hcall. step Hcall. injection Hcall as _ <-.
      match goal with
      | Hrhs : ?A = inr ?e |- mentions _ ?e = false =>
          assert (HA : omits "alpha" A) by omits_alpha; apply (HA _ Hrhs)
      end.
    + destruct (String.eqb cet0 (CET_MULT K)); [| discriminate Hr].
      injection Hr as <-. simpl in Hcall.
      destruct ix as [| i [| h t]]; simpl in Hcall; try discriminate Hcall.
      step Hcall. step Hcall. step Hcall. discriminate Hcall.
  - destruct (String.eqb cet0 (CET_MULT K)); [| discriminate Hr].
    injection Hr as <-. simpl in Hcall.
    destruct ix as [| i [| h t]]; simpl in Hcall; try discriminate Hcall.
    step Hcall. step Hcall. discriminate Hcall.
  - injection Hr as <-. simpl in Hcall.
    destruct ix as [| i [| h t]]; simpl in Hcall; try discriminate Hcall.
    unfold apply_operator in Hcall.
    destruct (operator K fun0); [| discriminate Hcall].
    step Hcall. step Hcall. discriminate Hcall.
  - injection Hr as <-. simpl in Hcall.
    destruct ix as [| i [| h t]]; simpl in Hcall; try discriminate Hcall.
    step Hcall. discriminate Hcall.
  - injection Hr as <-. simpl in Hcall.
    destruct ix as [| i [| h [| k t]]]; simpl in Hcall; try discriminate Hcall.
    step Hcall.
    match type of Hcall with
    | (if ?c then _ else _) = _ => destruct c; [| discriminate Hcall]
    end.
    destruct (decide (i = h)); [discriminate Hcall |].
    unfold apply_operator in Hcall.
    destruct (operator K fun0); [| discriminate Hcall].
    step Hcall. step Hcall. discriminate Hcall.
Qed.

End RuleFacts.

(** ** Matrices of different widths *)

Section Widths.

Import weakCNLSxG1.

Context (K : constant).

Ltac case_strings :=
  repeat match goal with
         | |- context [String.eqb ?a ?b] => destruct (String.eqb_spec a b)
         end.

Lemma elem_of_seq0 (w k : nat) : k ∈ seq 0 w <-> (k < w)%nat.
Proof. rewrite list_elem_of_In, in_seq. lia. Qed.

(** The sum over the columns of [y] of [gamma[k, j] * d[i][j]], [gamma]
    being declared over the columns of [b]. *)
Lemma gamma_sum (d : mat) (wy wb n k i : nat) :
  (k < n)%nat ->
  (forall j, (j < wy)%nat -> exists q, getitem2 d i j = inr q) ->
  ((wy <= wb)%nat ->
   exists e, sum_of (seq 0 wy) (fun j => gamma (seq 0 wb) n k j *! getitem2 d i j)
             = inr e) /\
  ((wb < wy)%nat ->
   sum_of (seq 0 wy) (fun j => gamma (seq 0 wb) n k j *! getitem2 d i j)
   = inl KeyError).
Proof.
  intros Hk Hd.
  assert (Hok : forall j, (j < wy)%nat -> (j < wb)%nat ->
            exists t, gamma (seq 0 wb) n k j *! getitem2 d i j = inr t).
  { intros j Hy Hb. destruct (Hd j Hy) as [q ->]. unfold gamma.
    rewrite decide_True by (split; [exact Hk | apply elem_of_seq0; exact Hb]).
    eexists. reflexivity. }
  split.
  - intros Hle. apply sum_of_seq_ok. intros j Hj. apply Hok; lia.
  - intros Hlt. apply (sum_of_seq_fail wy wb); [exact Hlt | |].
    + intros j Hj. apply Hok; lia.
    + unfold gamma. rewrite decide_False; [reflexivity |].
      intros [_ Hin]. apply elem_of_seq0 in Hin. lia.
Qed.

(** The sum over the columns of [b] of [delta[k, l] * d[i][l]], [delta]
    being declared over the columns of [y]. *)
Lemma delta_sum (d : mat) (wy wb n k i : nat) :
  (k < n)%nat ->
  (forall l, (l < wb)%nat -> exists q, getitem2 d i l = inr q) ->
  ((wb <= wy)%nat ->
   exists e, sum_of (seq 0 wb) (fun l => delta (seq 0 wy) n k l *! getitem2 d i l)
             = inr e) /\
  ((wy < wb)%nat ->
   sum_of (seq 0 wb) (fun l => delta (seq 0 wy) n k l *! getitem2 d i l)
   = inl KeyError).
Proof.
  intros Hk Hd.
  assert (Hok : forall l, (l < wb)%nat -> (l < wy)%nat ->
            exists t, delta (seq 0 wy) n k l *! getitem2 d i l = inr t).
  { intros l Hb Hy. destruct (Hd l Hb) as [q ->]. unfold delta.
    rewrite decide_True by (split; [exact Hk | apply elem_of_seq0; exact Hy]).
    eexists. reflexivity. }
  split.
  - intros Hle. apply sum_of_seq_ok. intros l Hl. apply Hok; lia.
  - intros Hlt. apply (sum_of_seq_fail wb wy); [exact Hlt | |].
    + intros l Hl. apply Hok; lia.
    + unfold delta. rewrite decide_False; [reflexivity |].
      intros [_ Hin]. apply elem_of_seq0 in Hin. lia.
Qed.

(** The first row of a matrix whose width has been measured is complete. *)
Lemma width_first_row (d : mat) (w : nat) :
  width d = inr w -> forall j, (j < w)%nat -> exists q, getitem2 d 0 j = inr q.
Proof.
  unfold width, getitem2, getitem. intros H j Hj.
  destruct (d !! O) as [row |]; [| discriminate H]. injection H as <-.
  destruct (lookup_lt_is_Some_2 row j Hj) as [q ->]. eexists. reflexivity.
Qed.

(** X15.  In the additive form the regression rule indexes [gamma] by the
    columns of [y] and [delta] by the columns of [b], while the
    constructor declares [gamma] over the columns of [b] and [delta] over
    the columns of [y].  So when [y] and [b] differ in width and there is
    a unit, the first call of the rule raises [KeyError]: the constructor
    stops there, the regression constraint being on the model without a
    row. *)
Theorem unequal_widths_raise_key_error (C : collaborators)
  (y0 x0 b0 cut : mat) (cet0 fun0 rts0 : string) (wy wb : nat) :
  width y0 = inr wy -> width b0 = inr wb -> wy <> wb -> x0 <> [] ->
  cet0 = CET_ADDI K -> rts0 = RTS_VRS K \/ rts0 = RTS_CRS K ->
  __init__ K C y0 x0 b0 cut cet0 fun0 rts0
  = ({| components := declared (length x0) wy wb
                      ++ [("regression_rule", CConstraint [])];
        values := [] |}, inl KeyError).
Proof.
  intros Hy Hb Hw Hx -> Hrts.
  destruct x0 as [| row rest] eqn:Ex; [contradiction |]. rewrite <- Ex.
  assert (Hn : (0 < length x0)%nat) by (rewrite Ex; simpl; lia).
  assert (Hrow : getrow x0 0 = inr row) by (rewrite Ex; reflexivity).
  pose proof (gamma_sum y0 wy wb (length x0) 0 0 Hn (width_first_row y0 wy Hy))
    as [Hg_ok Hg_bad].
  pose proof (delta_sum b0 wy wb (length x0) 0 0 Hn (width_first_row b0 wb Hb))
    as [Hd_ok Hd_bad].
  assert (Ha : var1 (length x0) "alpha" 0 = inr (Var1 "alpha" 0))
    by (unfold var1; rewrite decide_True by exact Hn; reflexivity).
  apply init_of_build. rewrite (build_declares K C _ _ _ _ _ _ _ wy wb Hy Hb).
  unfold constrain, bind, lift, __regression_rule. rewrite String.eqb_refl.
  assert (Hfirst : forall r,
            call_rule r [O] = inl KeyError ->
            add_constraint C "regression_rule" (index1 (seq 0 (length x0))) r
              {| components := declared (length x0) wy wb; values := [] |}
            = ({| components := declared (length x0) wy wb
                                ++ [("regression_rule", CConstraint [])];
                  values := [] |}, inl KeyError)).
  { intros r Hr. unfold add_constraint. rewrite Ex. simpl. rewrite Hr.
    reflexivity. }
  destruct (Nat.lt_ge_cases wb wy) as [Hlt | Hge].
  - (* [y] is wider: [gamma[0, wb]] is not declared *)
    specialize (Hg_bad Hlt).
    destruct Hrts as [-> | ->]; case_strings; try contradiction;
      (rewrite Hfirst; [reflexivity |]; unfold call_rule; simpl;
       rewrite Hrow; simpl; rewrite ?Ha, Hg_bad; reflexivity).
  - (* [b] is wider: [delta[0, wy]] is not declared *)
    destruct Hg_ok as [sg Hsg]; [lia |].
    assert (Hd : (wy < wb)%nat) by lia. specialize (Hd_bad Hd).
    destruct Hrts as [-> | ->]; case_strings; try contradiction;
      (rewrite Hfirst; [reflexivity |]; unfold call_rule; simpl;
       rewrite Hrow; simpl; rewrite ?Ha, Hsg, Hd_bad; reflexivity).
Qed.

End Widths.

Lemma unequal_widths_raise_key_error_witness :
  weakCNLSxG1.__init__ sample_constant sample_solver [[1; 2]] [[1]] [[1]] [[0]]
    "addi" "prod" "vrs"
  = ({| weakCNLSxG1.components :=
          declared 1 2 1 ++ [("regression_rule", weakCNLSxG1.CConstraint [])];
        weakCNLSxG1.values := [] |}, inl KeyError).
Proof.
  apply (unequal_widths_raise_key_error sample_constant sample_solver [[1; 2]]
           [[1]] [[1]] [[0]] "addi" "prod" "vrs" 2 1 eq_refl eq_refl).
  - discriminate.
  - discriminate.
  - reflexivity.
  - left. reflexivity.
Defined.

(** ** The cutting-plane rule *)

Section Sweet.

Import weakCNLSxG1.

Context (K : constant).

Ltac case_strings :=
  repeat match goal with
         | |- context [String.eqb ?a ?b] => destruct (String.eqb_spec a b)
         end.

(** One side of the cutting-plane inequality: the coefficients of unit
    [k] applied to the data of unit [i]. *)
Lemma sweet_side (y0 b0 : mat) (wy wb n k i : nat) (vrs : bool) :
  (k < n)%nat ->
  (forall j, (j < wy)%nat -> exists q, getitem2 y0 i j = inr q) ->
  (forall l, (l < wb)%nat -> exists q, getitem2 b0 i l = inr q) ->
  let side :=
    if vrs
    then var1 n "alpha" k
         -! sum_of (seq 0 wy) (fun j => gamma (seq 0 wb) n k j *! getitem2 y0 i j)
         +! sum_of (seq 0 wb) (fun l => delta (seq 0 wy) n k l *! getitem2 b0 i l)
    else -! sum_of (seq 0 wy) (fun j => gamma (seq 0 wb) n k j *! getitem2 y0 i j)
         +! sum_of (seq 0 wb) (fun l => delta (seq 0 wy) n k l *! getitem2 b0 i l)
  in
  (wy = wb -> exists e, side = inr e) /\ (wy <> wb -> side = inl KeyError).
Proof.
  intros Hk Hy Hb side.
  destruct (gamma_sum y0 wy wb n k i Hk Hy) as [Hg_ok Hg_bad].
  destruct (delta_sum b0 wy wb n k i Hk Hb) as [Hd_ok Hd_bad].
  assert (Ha : var1 n "alpha" k = inr (Var1 "alpha" k))
    by (unfold var1; rewrite decide_True by exact Hk; reflexivity).
  split.
  - intros Hw. destruct Hg_ok as [sg Hsg]; [lia |].
    destruct Hd_ok as [sd Hsd]; [lia |].
    subst side. destruct vrs; rewrite ?Ha, Hsg, Hsd; eexists; reflexivity.
  - intros Hw. subst side. destruct (Nat.lt_ge_cases wb wy) as [Hlt | Hge].
    + rewrite (Hg_bad Hlt). destruct vrs; rewrite ?Ha; reflexivity.
    + destruct Hg_ok as [sg Hsg]; [lia |].
      rewrite Hsg, Hd_bad by lia. destruct vrs; rewrite ?Ha; reflexivity.
Qed.

(** X13.  The cutting-plane rule takes a pair of units [(i, h)].  It emits
    nothing for a unit paired with itself, whatever [cutactive] holds, and
    nothing for a pair whose [cutactive] entry is zero; an entry of
    [cutactive] that does not exist raises [IndexError].  For a pair of
    different units with a non-zero entry it raises [NameError] when the
    direction is neither of the two known ones; otherwise, the data of
    unit [i] being complete, it raises [KeyError] when [y] and [b] differ
    in width ([gamma] and [delta] are indexed by the columns of the other
    matrix), and when they have the same width it returns, under variable
    returns to scale, one inequality, [<=] for a production and [>=] for
    a cost frontier. *)
Theorem sweet_rule_skips (y0 b0 : mat) (fun0 rts0 : string) (cut : mat)
  (wy wb n : nat) :
  rts0 = RTS_VRS K \/ rts0 = RTS_CRS K ->
  exists r,
    __sweet_rule K y0 b0 fun0 rts0 cut (seq 0 wy) (seq 0 wb) n = inr r /\
    params r = 2%nat /\
    forall i h,
      (forall e, getitem2 cut i h = inl e -> call_rule r [i; h] = inl e) /\
      (forall c, getitem2 cut i h = inr c -> c == 0 ->
                 call_rule r [i; h] = inr Skip) /\
      (forall c, getitem2 cut i h = inr c -> i = h ->
                 call_rule r [i; h] = inr Skip) /\
      (forall c, getitem2 cut i h = inr c -> ~ c == 0 -> i <> h ->
         (fun0 <> FUN_PROD K -> fun0 <> FUN_COST K ->
          call_rule r [i; h] = inl NameError) /\
         ((i < n)%nat -> (h < n)%nat ->
          (forall j, (j < wy)%nat -> exists q, getitem2 y0 i j = inr q) ->
          (forall l, (l < wb)%nat -> exists q, getitem2 b0 i l = inr q) ->
          (wy = wb -> rts0 = RTS_VRS K ->
           (fun0 = FUN_PROD K ->
            exists l r', call_rule r [i; h] = inr (Rel (Le l r'))) /\
           (fun0 <> FUN_PROD K -> fun0 = FUN_COST K ->
            exists l r', call_rule r [i; h] = inr (Rel (Ge l r')))) /\
          (wy <> wb -> fun0 = FUN_PROD K \/ fun0 = FUN_COST K ->
           call_rule r [i; h] = inl KeyError))).
Proof.
  intros Hrts.
  assert (Hcut : forall i h c, getitem2 cut i h = inr c ->
            cut_set cut i h = inr (if Qeq_bool c 0 then false else true)).
  { intros i h c Hc. unfold cut_set. rewrite Hc. reflexivity. }
  assert (Hz : forall c, c == 0 -> Qeq_bool c 0 = true)
    by (intros c Hc; apply Qeq_bool_iff, Hc).
  assert (Hnz : forall c, ~ c == 0 -> Qeq_bool c 0 = false).
  { intros c Hc. destruct (Qeq_bool c 0) eqn:E; [| reflexivity].
    apply Qeq_bool_iff in E. contradiction. }
  assert (Hop : fun0 = FUN_PROD K \/ fun0 = FUN_COST K ->
                exists op, operator K fun0 = Some op /\
                  (fun0 = FUN_PROD K -> op = Le) /\
                  (fun0 <> FUN_PROD K -> op = Ge)).
  { intros Hfun. unfold operator.
    destruct (String.eqb_spec fun0 (FUN_PROD K)) as [Hp | Hp].
    - exists Le. split; [reflexivity |]. split; [reflexivity | contradiction].
    - destruct Hfun as [Hf | Hf]; [contradiction |].
      rewrite (proj2 (String.eqb_eq _ _) Hf).
      exists Ge. split; [reflexivity |]. split; [contradiction | reflexivity]. }
  assert (Hnone : fun0 <> FUN_PROD K -> fun0 <> FUN_COST K ->
                  operator K fun0 = None).
  { intros Hp Hc. unfold operator.
    rewrite (proj2 (String.eqb_neq _ _) Hp), (proj2 (String.eqb_neq _ _) Hc).
    reflexivity. }
  assert (Hbody : exists (vrs : bool) r,
            __sweet_rule K y0 b0 fun0 rts0 cut (seq 0 wy) (seq 0 wb) n = inr r /\
            params r = 2%nat /\
            forall i h, call_rule r [i; h]
              = let? c := cut_set cut i h in
                if c then
                  if decide (i = h) then inr Skip
                  else
                    let side k :=
                      if vrs
                      then var1 n "alpha" k
                           -! sum_of (seq 0 wy) (fun j =>
                                 gamma (seq 0 wb) n k j *! getitem2 y0 i j)
                           +! sum_of (seq 0 wb) (fun l =>
                                 delta (seq 0 wy) n k l *! getitem2 b0 i l)
                      else -! sum_of (seq 0 wy) (fun j =>
                                 gamma (seq 0 wb) n k j *! getitem2 y0 i j)
                           +! sum_of (seq 0 wb) (fun l =>
                                 delta (seq 0 wy) n k l *! getitem2 b0 i l)
                    in apply_operator K fun0 (side i) (side h)
                else inr Skip).
  { unfold __sweet_rule.
    destruct (String.eqb_spec rts0 (RTS_VRS K)) as [Hv | Hv].
    - exists true. eexists. split; [reflexivity |]. split; reflexivity.
    - destruct Hrts as [Hr | Hr]; [contradiction |].
      rewrite (proj2 (String.eqb_eq _ _) Hr).
      exists false. eexists. split; [reflexivity |]. split; reflexivity. }
  destruct Hbody as (vrs & r & Hr & Hparams & Hcall).
  exists r. split; [exact Hr |]. split; [exact Hparams |].
  intros i h. rewrite Hcall. clear Hcall.
  split; [intros err Herr; unfold cut_set; rewrite Herr; reflexivity |].
  split; [intros q Hq Hq0; rewrite (Hcut i h q Hq), (Hz q Hq0); reflexivity |].
  split.
  { intros q Hq ->. rewrite (Hcut h h q Hq). simpl.
    destruct (Qeq_bool q 0); [reflexivity |].
    rewrite decide_True by reflexivity. reflexivity. }
  intros q Hq Hq0 Hne. rewrite (Hcut i h q Hq), (Hnz q Hq0). cbn [rbind].
  rewrite decide_False by exact Hne. cbv zeta. split.
  { intros Hp Hc. unfold apply_operator. rewrite (Hnone Hp Hc). reflexivity. }
  intros Hi Hh Hy Hb.
  destruct (sweet_side y0 b0 wy wb n i i vrs Hi Hy Hb) as [Hi_ok Hi_bad].
  destruct (sweet_side y0 b0 wy wb n h i vrs Hh Hy Hb) as [Hh_ok Hh_bad].
  cbv zeta in Hi_ok, Hi_bad, Hh_ok, Hh_bad.
  split.
  - intros Hw _. destruct (Hi_ok Hw) as [l Hl]. destruct (Hh_ok Hw) as [r' Hr'].
    unfold apply_operator. rewrite Hl, Hr'. split.
    + intros Hp. destruct Hop as (op & -> & Hle & _); [left; exact Hp |].
      rewrite (Hle Hp). eexists _, _. reflexivity.
    + intros Hp Hc. destruct Hop as (op & -> & _ & Hge); [right; exact Hc |].
      rewrite (Hge Hp). eexists _, _. reflexivity.
  - intros Hw Hfun. destruct (Hop Hfun) as (op & Hsome & _).
    unfold apply_operator. rewrite Hsome, (Hi_bad Hw). reflexivity.
Qed.

End Sweet.

Lemma sweet_rule_skips_witness :
  (exists l r',
     (let? r := weakCNLSxG1.__sweet_rule sample_constant [[1]; [1]] [[1]; [1]]
                  "prod" "vrs" [[1; 1]; [1; 1]] (seq 0 1) (seq 0 1) 2 in
      weakCNLSxG1.call_rule r [O; 1%nat])
     = inr (weakCNLSxG1.Rel (weakCNLSxG1.Le l r'))) /\
  (let? r := weakCNLSxG1.__sweet_rule sample_constant [[1; 1]; [1; 1]] [[1]; [1]]
               "prod" "vrs" [[1; 1]; [1; 1]] (seq 0 2) (seq 0 1) 2 in
   weakCNLSxG1.call_rule r [O; 1%nat])
  = inl KeyError.
Proof.
  split.
  - destruct (sweet_rule_skips sample_constant [[1]; [1]] [[1]; [1]] "prod" "vrs"
                [[1; 1]; [1; 1]] 1 1 2) as (r & -> & _ & Hr);
      [left; reflexivity |].
    destruct (Hr O 1%nat) as (_ & _ & _ & Hpair).
    destruct (Hpair 1 eq_refl) as [_ Hrel]; [discriminate | discriminate |].
    destruct Hrel as [Hsame _]; [lia | lia | | |].
    + intros [| j] Hj; [eexists; reflexivity | lia].
    + intros [| l] Hl; [eexists; reflexivity | lia].
    + destruct Hsame as [Hle _]; [reflexivity | reflexivity |].
      apply Hle. reflexivity.
  - destruct (sweet_rule_skips sample_constant [[1; 1]; [1; 1]] [[1]; [1]]
                "prod" "vrs" [[1; 1]; [1; 1]] 2 1 2) as (r & -> & _ & Hr);
      [left; reflexivity |].
    destruct (Hr O 1%nat) as (_ & _ & _ & Hpair).
    destruct (Hpair 1 eq_refl) as [_ Hrel]; [discriminate | discriminate |].
    destruct Hrel as [_ Hdiff]; [lia | lia | | |].
    + intros [| [| j]] Hj; [eexists; reflexivity .. | lia].
    + intros [| l] Hl; [eexists; reflexivity | lia].
    + apply Hdiff; [discriminate | left; reflexivity].
Defined.

Lemma crs_rules_omit_alpha_witness :
  mentions_rel "alpha"
    (weakCNLSxG1.Le
       (weakCNLSxG1.Add
          (weakCNLSxG1.Neg
             (weakCNLSxG1.Add (weakCNLSxG1.Num 0)
                (weakCNLSxG1.Mul (weakCNLSxG1.Var2 "gamma" 0 0) (weakCNLSxG1.Num 1))))
          (weakCNLSxG1.Add (weakCNLSxG1.Num 0)
             (weakCNLSxG1.Mul (weakCNLSxG1.Var2 "delta" 0 0) (weakCNLSxG1.Num 1))))
       (weakCNLSxG1.Add
          (weakCNLSxG1.Neg
             (weakCNLSxG1.Add (weakCNLSxG1.Num 0)
                (weakCNLSxG1.Mul (weakCNLSxG1.Var2 "gamma" 1 0) (weakCNLSxG1.Num 1))))
          (weakCNLSxG1.Add (weakCNLSxG1.Num 0)
             (weakCNLSxG1.Mul (weakCNLSxG1.Var2 "delta" 1 0) (weakCNLSxG1.Num 1)))))
  = false.
Proof.
  refine (proj1 (crs_rules_omit_alpha sample_constant sample_solver
                   [[1]; [2]] [[1]; [1]] [[1]; [1]] "addi" "prod" "crs"
                   [[1; 1]; [1; 1]] [O] [O] 2 _ [O; 1%nat] eq_refl _
                   (or_intror (or_intror (or_intror (or_intror eq_refl)))))
            _ _).
  - simpl. discriminate.
  - vm_compute. reflexivity.
Defined.

(** ** The accessors *)

Section InnerAccessors.

Import weakCNLSxG1.

Context (K : constant) (C : collaborators).


End InnerAccessors.


(** * The outer loop has no bound *)

Section NoBound.

Import weakCNLSG.

Context (K : constant) (C : collaborators).

Lemma while_never_finishes (email solver : option string) (fuel : nat)
  (s : self C) :
  (forall t, (turns K C email solver t s).2 = inr Again) ->
  while K C fuel email solver s = None.
Proof.
  revert s. induction fuel as [| fuel IH]; intros s H; [reflexivity |].
  simpl. pose proof (H 1%nat) as H1. simpl in H1.
  destruct (turn K C email solver s) as [s1 [e | [|]]] eqn:Ht;
    try discriminate H1.
  apply IH. intros t. specialize (H (Datatypes.S t)).
  rewrite turns_front, Ht in H. exact H.
Qed.

(** X17.  Nothing bounds the number of turns of the outer loop: when the
    first pass returns and every turn finds its head to hold and its body
    to return, [optimize] does not return, however many turns it is
    given. *)
Theorem optimize_has_no_bound (email solver : option string)
  (s s1 : self C) :
  (first_pass C email solver;; set_count C 0) s = (s1, inr tt) ->
  (forall t, (turns K C email solver t s1).2 = inr Again) ->
  forall fuel, optimize K C fuel email solver s = None.
Proof.
  intros H1 Hturns fuel. unfold optimize. rewrite H1.
  rewrite (while_never_finishes email solver fuel s1 Hturns). reflexivity.
Qed.

End NoBound.

Lemma stubborn_turns (t : nat) :
  weakCNLSG.turns sample_constant stubborn_collaborators None None
    (Datatypes.S t) (weakCNLSG.set_count stubborn_collaborators 0
                       (weakCNLSG.first_pass stubborn_collaborators None None
                          stubborn_units).1).1
  = (stubborn_after (Datatypes.S t), inr weakCNLSG.Again).
Proof.
  induction t as [| t IH].
  - vm_compute. reflexivity.
  - change (weakCNLSG.turns sample_constant stubborn_collaborators None None
              (Datatypes.S (Datatypes.S t)) ?s)
      with (match weakCNLSG.turns sample_constant stubborn_collaborators
                    None None (Datatypes.S t) s with
            | (s', inr weakCNLSG.Again) =>
                weakCNLSG.turn sample_constant stubborn_collaborators None None s'
            | r => r
            end).
    rewrite IH. rewrite turn_cases.
    replace (Datatypes.S (Datatypes.S t)) with (Datatypes.S t + 1)%nat by lia.
    generalize (Datatypes.S t). intros c. vm_compute. reflexivity.
Defined.

Lemma optimize_has_no_bound_witness :
  weakCNLSG.optimize sample_constant stubborn_collaborators 5 None None
    stubborn_units = None.
Proof.
  refine (optimize_has_no_bound sample_constant stubborn_collaborators None None
            stubborn_units
            (weakCNLSG.set_count stubborn_collaborators 0
               (weakCNLSG.first_pass stubborn_collaborators None None
                  stubborn_units).1).1 _ _ 5).
  - vm_compute. reflexivity.
  - intros [| t]; [reflexivity |]. rewrite stubborn_turns. reflexivity.
Defined.
